(** * A shallow embedding of the sampling-and-caching core of general-gcl

    The development follows the control flow of the repository:
    [download_cora] (annotation, component extraction), [ESWR] (the pool of
    exploration samplers and the generation loop), [CoraDataset] (the
    processed-file cache) and the [+=] merge of dataset handles.

    Library calls (numpy, littleballoffur, networkx, torch) are either
    embedded after their reference behaviour or taken as the fields of an
    interface class; each place says which. *)

From stdpp Require Import gmap strings list sorting.
From Stdlib Require Import Strings.Byte Strings.Ascii DecimalString DecimalNat.

Open Scope Z_scope.
Open Scope nat_scope.

(** ** Tensors and the object store

    A [torch.Tensor] is a mutable object.  The store is the list of all
    tensors allocated so far, a reference is a position in it, and two
    names bound to the same reference see each other's writes. *)

Abbreviation tensor := (list Z).
Abbreviation ref := nat.
Abbreviation store := (list tensor).

(** [torch.Tensor([...])]: a fresh object. *)
Definition new_tensor (t : tensor) (h : store) : ref * store :=
  (length h, h ++ [t]).

(** [t[i] = v]: in-place write; an index out of range raises. *)
Definition setitem (r : ref) (i : nat) (v : Z) (h : store) : option store :=
  t ← h !! r;
  if decide (i < length t) then Some (<[r := <[i := v]> t]> h) else None.

Abbreviation node := nat.

(** ** networkx graphs

    [g_nodes] is the node dictionary in insertion order, [g_edges] the
    undirected edge list. *)

Record Graph := mkGraph {
  g_nodes : list node;
  g_edges : list (node * node)
}.

Definition number_of_nodes (G : Graph) : nat := length (g_nodes G).

(** Well-formed graph objects: node keys are unique and every edge joins
    two nodes of the graph. *)
Definition wf_graph (G : Graph) : Prop :=
  NoDup (g_nodes G) ∧
  Forall (λ e : node * node, e.1 ∈ g_nodes G ∧ e.2 ∈ g_nodes G) (g_edges G).

#[global] Instance wf_graph_dec (G : Graph) : Decision (wf_graph G).
Proof. unfold wf_graph. apply _. Defined.

Module Annotate.

(** State of the annotation loops of [download_cora]: the object store
    and the ["attrs"] entry of every node and edge, held by reference. *)
Record state := mkState {
  heap : store;
  node_attrs : gmap node ref;
  edge_attrs : gmap (node * node) ref
}.

(** [node_classes = {n: edges.y[i].item() for i, n in enumerate(list(G.nodes()))}] *)
Fixpoint node_classes_from (i : nat) (nodes : list node) (y : list Z)
    (acc : gmap node Z) : option (gmap node Z) :=
  match nodes with
  | [] => Some acc
  | n :: rest =>
      c ← y !! i;
      node_classes_from (S i) rest y (<[n := c]> acc)
  end.

Definition node_classes (nodes : list node) (y : list Z) : option (gmap node Z) :=
  node_classes_from 0 nodes y ∅.

(** Body of [for node in list(G.nodes())]:
    [class_tensor = base_tensor] binds a second name to the same object,
    [class_tensor[0] = node_classes[node]] writes through it, and the
    node keeps the reference. *)
Definition node_step (base_tensor : ref) (classes : gmap node Z)
    (st : state) (n : node) : option state :=
  let class_tensor := base_tensor in
  c ← classes !! n;
  h ← setitem class_tensor 0 c (heap st);
  Some (mkState h (<[n := class_tensor]> (node_attrs st)) (edge_attrs st)).

(** Body of [for edge in list(G.edges())]: every edge gets a tensor of
    its own, [torch.Tensor([1,0,0])]. *)
Definition edge_step (st : state) (e : node * node) : state :=
  let '(r, h) := new_tensor [1; 0; 0]%Z (heap st) in
  mkState h (node_attrs st) (<[e := r]> (edge_attrs st)).

Fixpoint node_loop (base_tensor : ref) (classes : gmap node Z)
    (st : state) (nodes : list node) : option state :=
  match nodes with
  | [] => Some st
  | n :: rest =>
      st' ← node_step base_tensor classes st n;
      node_loop base_tensor classes st' rest
  end.

(** Lines 43 to 54 of [download_cora]. *)
Definition annotate (G : Graph) (y : list Z) : option state :=
  classes ← node_classes (g_nodes G) y;
  let '(base_tensor, h) := new_tensor (replicate 9 0%Z) [] in
  st ← node_loop base_tensor classes (mkState h ∅ ∅) (g_nodes G);
  Some (foldl edge_step st (g_edges G)).

(** What a later reader of [G.nodes[n]["attrs"]] sees. *)
Definition read_node_attrs (st : state) (n : node) : option tensor :=
  r ← node_attrs st !! n; heap st !! r.

End Annotate.

(** ** Component extraction ([download_cora], lines 56 to 59) *)

(** [G.adj[v]]: the nodes sharing an edge with [v]. *)
Definition neighbors (G : Graph) (v : node) : list node :=
  omap (λ e : node * node,
          if decide (e.1 = v) then Some e.2
          else if decide (e.2 = v) then Some e.1 else None)
       (g_edges G).

(** One more layer around a set of nodes. *)
Definition expand (G : Graph) (S : gset node) : gset node :=
  S ∪ list_to_set (elements S ≫= neighbors G).

(** The loop of [_plain_bfs]: add layers until one adds nothing. *)
Fixpoint bfs_layers (G : Graph) (fuel : nat) (seen : gset node) : gset node :=
  match fuel with
  | 0 => seen
  | S fuel' =>
      let seen' := expand G seen in
      if decide (seen' = seen) then seen else bfs_layers G fuel' seen'
  end.

(** The set [_plain_bfs(G, source)] returns: everything reachable from
    [source].  A graph with [N] nodes needs at most [N] layers. *)
Definition plain_bfs (G : Graph) (source : node) : gset node :=
  bfs_layers G (number_of_nodes G) {[source]}.

(** [nx.connected_components(G)]: walk the nodes in the graph's order and
    yield the component of every node not seen so far. *)
Fixpoint components_from (G : Graph) (todo : list node) (seen : gset node)
    : list (gset node) :=
  match todo with
  | [] => []
  | v :: rest =>
      if decide (v ∈ seen) then components_from G rest seen
      else let c := plain_bfs G v in c :: components_from G rest (seen ∪ c)
  end.

Definition connected_components (G : Graph) : list (gset node) :=
  components_from G (g_nodes G) ∅.

(** [G.subgraph(c)]: the nodes of [c] in the order of [G], with the edges
    of [G] between them. *)
Definition subgraph (G : Graph) (c : gset node) : Graph :=
  {| g_nodes := filter (λ n, n ∈ c) (g_nodes G);
     g_edges := filter (λ e : node * node, e.1 ∈ c ∧ e.2 ∈ c) (g_edges G) |}.

(** [sorted(xs, key=key, reverse=True)]: Python's sort is stable, also
    under [reverse=True], so the result is the one descending order in
    which elements of equal key keep their input order. *)
Fixpoint insert_desc {A} (key : A → nat) (x : A) (l : list A) : list A :=
  match l with
  | [] => [x]
  | y :: ys =>
      if decide (key x < key y) then y :: insert_desc key x ys
      else x :: y :: ys
  end.

Definition sorted_reverse {A} (key : A → nat) (l : list A) : list A :=
  foldr (insert_desc key) [] l.

(** [nx.relabel_nodes(G, mapping)] with a fresh copy: [mapping.get(n, n)]
    on every node and on both ends of every edge. *)
Definition relabel_nodes (G : Graph) (mapping : gmap node node) : Graph :=
  let f n := default n (mapping !! n) in
  {| g_nodes := f <$> g_nodes G;
     g_edges := (λ e : node * node, (f e.1, f e.2)) <$> g_edges G |}.

(** [nx.convert_node_labels_to_integers(G)]:
    [mapping = dict(zip(G.nodes(), range(0, N)))]. *)
Definition integer_mapping (G : Graph) : gmap node node :=
  list_to_map (zip (g_nodes G) (seq 0 (number_of_nodes G))).

Definition convert_node_labels_to_integers (G : Graph) : Graph :=
  relabel_nodes G (integer_mapping G).

(** The tail of [download_cora]; [CGs[0]] raises on a graph without nodes. *)
Definition largest_component (G : Graph) : option Graph :=
  let CGs := subgraph G <$> connected_components G in
  let CGs := sorted_reverse number_of_nodes CGs in
  graph ← CGs !! 0;
  Some (convert_node_labels_to_integers graph).

(** A path [lo - lo+1 - ... - lo+len-1]. *)
Definition path_edges (lo len : nat) : list (node * node) :=
  (λ i, (i, S i)) <$> seq lo (len - 1).

(** A star: [hub] joined to [hub+1 .. hub+leaves]. *)
Definition star_edges (hub leaves : nat) : list (node * node) :=
  (λ i, (hub, i)) <$> seq (S hub) leaves.

(** A star of ten nodes, listed before a star of a hundred and fifty. *)
Definition two_component_graph : Graph :=
  {| g_nodes := seq 0 160;
     g_edges := star_edges 0 9 ++ star_edges 10 149 |}.

(** ** Random state

    The code draws from the process-wide generators of numpy and of
    Python's [random] module.  [gen] is the state of one such generator;
    how a seed initialises it and what a draw yields belong to the
    libraries. *)

Class RandomLib := {
  gen : Type;
  (** generator state after [np.random.seed(s)] *)
  np_random_seed : Z → gen;
  (** generator state after [random.seed(s)] *)
  random_seed : Z → gen;
  (** generator state after [torch.manual_seed(s)] / [torch.cuda.manual_seed_all(s)] *)
  torch_manual_seed : Z → gen;
  (** [np.random.randint(high)] for [0 < high]: a value and the next state *)
  np_random_randint : nat → gen → nat * gen;
  np_random_randint_lt : ∀ high g, 0 < high → (np_random_randint high g).1 < high
}.

(** The global state a run starts from and leaves behind. *)
Record World `{RandomLib} := mkWorld {
  torch_random : gen;
  cudnn_deterministic : bool;
  np_random : gen;
  py_random : gen
}.

(** [setup_seed] (transfer.py, lines 80 to 85). *)
Definition setup_seed `{RandomLib} (seed : Z) (w : World) : World :=
  {| torch_random := torch_manual_seed seed;
     cudnn_deterministic := true;
     np_random := np_random_seed seed;
     py_random := random_seed seed |}.

(** [np.random.randint(high)] on the global generator; [ValueError] when the
    range is empty. *)
Definition randint `{RandomLib} (high : nat) (w : World) : option (nat * World) :=
  if decide (high = 0) then None
  else let '(v, g) := np_random_randint high (np_random w) in
       Some (v, {| torch_random := torch_random w;
                   cudnn_deterministic := cudnn_deterministic w;
                   np_random := g;
                   py_random := py_random w |}).

(** ** Exploration samplers (littleballoffur) *)

Inductive Algorithm :=
  | MetropolisHastingsRandomWalkSampler
  | DiffusionSampler
  | DepthFirstSearchSampler.

(** A constructed sampler object: its class and its [number_of_nodes]. *)
Record Sampler := mkSampler {
  algorithm : Algorithm;
  budget : nat
}.

(** The two library entry points the code uses: the constructor, which may
    touch the global generators, and [sampler.sample(graph)], which
    consumes them and returns the induced subgraph on the visited nodes.
    Both are taken as returning: what the library raises on a graph it
    rejects is not part of the model. *)
Class SamplerLib `{RandomLib} := {
  sampler_init : Algorithm → nat → World → World;
  sample : Sampler → Graph → World → Graph * World
}.

(** [sampler(i)]. *)
Definition new_sampler `{SamplerLib} (a : Algorithm) (i : nat) (w : World)
    : Sampler * World :=
  (mkSampler a i, sampler_init a i w).

(** The draw at the head of the loop body:
    [sampler_list[np.random.randint(len(sampler_list))]]. *)
Definition draw_sampler `{RandomLib} (sampler_list : list Sampler) (w : World)
    : option (Sampler * World) :=
  '(idx, w') ← randint (length sampler_list) w;
  sampler ← sampler_list !! idx;
  Some (sampler, w').

Module Utils.
Section ESWR.
Context `{SamplerLib}.

Definition possible_samplers : list Algorithm :=
  [MetropolisHastingsRandomWalkSampler; DiffusionSampler; DepthFirstSearchSampler].

(** [for i in range(lo, hi): sampler_list.append(sampler(i))] *)
Fixpoint append_budgets (sampler : Algorithm) (budgets : list nat)
    (sampler_list : list Sampler) (w : World) : list Sampler * World :=
  match budgets with
  | [] => (sampler_list, w)
  | i :: rest =>
      let '(s, w') := new_sampler sampler i w in
      append_budgets sampler rest (sampler_list ++ [s]) w'
  end.

(** [for sampler in possible_samplers: ...] *)
Fixpoint append_samplers (samplers : list Algorithm) (budgets : list nat)
    (sampler_list : list Sampler) (w : World) : list Sampler * World :=
  match samplers with
  | [] => (sampler_list, w)
  | sampler :: rest =>
      let '(l, w') := append_budgets sampler budgets sampler_list w in
      append_samplers rest budgets l w'
  end.

(** The pool for a list of algorithms and a range [range(lo, hi)]. *)
Definition build_pool (samplers : list Algorithm) (lo hi : nat) (w : World)
    : list Sampler * World :=
  append_samplers samplers (seq lo (hi - lo)) [] w.

(** The generation loop (lines 166 to 169): [n_graphs] rounds, each one
    draw from the pool and one relabelled sample appended. *)
Fixpoint generate (sampler_list : list Sampler) (graph : Graph)
    (n_graphs : nat) (graphs : list Graph) (w : World)
    : option (list Graph * World) :=
  match n_graphs with
  | 0 => Some (graphs, w)
  | S k =>
      '(sampler, w1) ← draw_sampler sampler_list w;
      let '(g, w2) := sample sampler graph w1 in
      generate sampler_list graph k
               (graphs ++ [convert_node_labels_to_integers g]) w2
  end.

(** [ESWR(graph, n_graphs, size)] of utils.py. *)
Definition ESWR (graph : Graph) (n_graphs : nat) (size : nat) (w : World)
    : option (list Graph * World) :=
  let '(sampler_list, w0) := build_pool possible_samplers 24 96 w in
  generate sampler_list graph n_graphs [] w0.

(** A run configured with a base seed. *)
Definition seeded_ESWR (seed : Z) (graph : Graph) (n_graphs size : nat)
    (w : World) : option (list Graph) :=
  fst <$> ESWR graph n_graphs size (setup_seed seed w).

End ESWR.
End Utils.

Module Cora.
Section ESWR.
Context `{SamplerLib}.

(** The list comprehension of line 67. *)
Fixpoint sample_n (sampler : Sampler) (graph : Graph) (n_graphs : nat)
    (w : World) : list Graph * World :=
  match n_graphs with
  | 0 => ([], w)
  | S k =>
      let '(g, w1) := sample sampler graph w in
      let '(rest, w2) := sample_n sampler graph k w1 in
      (convert_node_labels_to_integers g :: rest, w2)
  end.

(** [ESWR(graph, n_graphs, size)] of cora_dataset.py. *)
Definition ESWR (graph : Graph) (n_graphs : nat) (size : nat) (w : World)
    : list Graph * World :=
  let '(sampler, w0) := new_sampler MetropolisHastingsRandomWalkSampler size w in
  sample_n sampler graph n_graphs w0.
End ESWR.
End Cora.

(** ** Data objects and their serialisation *)

(** A [torch_geometric.data.Data] object: the tensors converted from a
    networkx graph, and the label field [y]. *)
Record Data := mkData {
  d_graph : Graph;
  d_y : option Z
}.

(** [pyg.utils.from_networkx(g, group_node_attrs=all, group_edge_attrs=all)] *)
Definition from_networkx (g : Graph) : Data := mkData g None.

(** [data.y = None] *)
Definition clear_y (d : Data) : Data := mkData (d_graph d) None.

(** The pair [(data, slices)] that [collate] builds and [torch.save]
    writes, represented by the samples it separates into, in order. *)
Abbreviation Split := (list Data).
Definition collate (data_list : list Data) : Split := data_list.

(** [torch.save] / [torch.load] on a split: an opaque byte format that
    reads back what was written. *)
Class Pickle := {
  dumps : Split → list byte;
  loads : list byte → option Split;
  loads_dumps : ∀ s, loads (dumps s) = Some s
}.

(** ** The file system *)

Abbreviation FS := (gmap string (list byte)).

(** [open(path, "wb")]: the file exists from here on, and is empty. *)
Definition open_wb (path : string) (fs : FS) : FS := <[path := []]> fs.

(** Appending to an open file. *)
Definition write_bytes (path : string) (bs : list byte) (fs : FS) : FS :=
  alter (λ c, c ++ bs) path fs.

(** [os.rename(src, dst)]. *)
Definition rename (src dst : string) (fs : FS) : FS :=
  match fs !! src with
  | Some c => <[dst := c]> (delete src fs)
  | None => fs
  end.

(** [torch.save(obj, path)]: open the target itself and write into it. *)
Definition torch_save `{Pickle} (obj : Split) (path : string) (fs : FS) : FS :=
  write_bytes path (dumps obj) (open_wb path fs).

(** The same call when the process dies after [k] bytes have reached the
    file. *)
Definition torch_save_interrupted `{Pickle} (k : nat) (obj : Split)
    (path : string) (fs : FS) : FS :=
  write_bytes path (take k (dumps obj)) (open_wb path fs).

(** [torch.load(path)]: a missing file and an unreadable one both raise. *)
Definition torch_load `{Pickle} (path : string) (fs : FS) : option Split :=
  bs ← fs !! path; loads bs.

(** [files_exist] of torch_geometric: a non-empty list of paths, all of
    them present. *)
Definition files_exist (files : list string) (fs : FS) : bool :=
  bool_decide (files ≠ [] ∧ Forall (λ f, is_Some (fs !! f)) files).

(** The discipline the specification asks for, for comparison: write to a
    temporary path, then rename onto the target.  [atomic_crash] lists
    where such a run can stop. *)
Inductive atomic_crash :=
  | CrashWriting (k : nat)
  | CrashBeforeRename
  | NoCrash.

Definition spec_atomic_save `{Pickle} (c : atomic_crash) (obj : Split)
    (tmp path : string) (fs : FS) : FS :=
  match c with
  | CrashWriting k => torch_save_interrupted k obj tmp fs
  | CrashBeforeRename => torch_save obj tmp fs
  | NoCrash => rename tmp path (torch_save obj tmp fs)
  end.

(** A way of saving is atomic at [path] when, wherever it stops, the file
    at [path] is either what it was or the complete serialisation. *)
Definition atomic_at `{Pickle} (obj : Split) (path : string) (before after : FS)
    : Prop :=
  after !! path = before !! path ∨ after !! path = Some (dumps obj).

(** ** The cached dataset ([CoraDataset]) *)

Inductive Stage := train | val | test.

Definition stage_to_index (s : Stage) : nat :=
  match s with train => 0 | val => 1 | test => 2 end.

(** The machine a dataset is constructed on: files, global generators, and
    a count of how often [process] has run (bookkeeping for the proofs, the
    code has no such counter). *)
Record System `{RandomLib} := mkSystem {
  sys_fs : FS;
  sys_world : World;
  process_calls : nat
}.

(** [download_cora()]: the raw graph and labels come from [cora_ml.npz];
    nodes and edges are annotated, then the largest component is
    returned with integer labels. *)
Definition download_cora (raw : Graph) (y : list Z) : option Graph :=
  _ ← Annotate.annotate raw y;
  largest_component raw.

Module CoraDataset.
Section Dataset.
Context `{SamplerLib} `{Pickle}.

(** The constructor's arguments; [raw] and [y] stand for the content of
    the downloaded [cora_ml.npz]. *)
Record args := mkArgs {
  raw : Graph;
  y : list Z;
  root : string;
  stage : Stage;
  pre_transform : option (Data → Data);
  pre_filter : option (Data → bool);
  num : nat
}.

(** The constructed object. *)
Record t := mkDataset {
  self : args;
  data_slices : Split
}.

Definition processed_file_names : list string :=
  ["train.pt"; "val.pt"; "test.pt"].

(** [osp.join(root, "processed", name)] for every processed file name. *)
Definition processed_paths (a : args) : list string :=
  (λ f, root a +:+ "/processed/" +:+ f) <$> processed_file_names.

(** [get_cora_dataset(num)]. *)
Definition get_cora_dataset (a : args) (w : World) : option (list Data * World) :=
  fb_graph ← download_cora (raw a) (y a);
  let '(nx_graph_list, w') := Cora.ESWR fb_graph (num a) 48 w in
  let data_objects := from_networkx <$> nx_graph_list in
  Some (clear_y <$> data_objects, w').

(** The body of [process] up to [collate] (lines 110 to 118). *)
Definition build (a : args) (w : World) : option (Split * World) :=
  '(data_list, w') ← get_cora_dataset a w;
  let data_list :=
    match pre_filter a with
    | Some keep => filter (λ d, keep d = true) data_list
    | None => data_list
    end in
  let data_list :=
    match pre_transform a with
    | Some f => f <$> data_list
    | None => data_list
    end in
  Some (collate data_list, w').

(** [self.processed_paths[self.stage_to_index[self.stage]]] *)
Definition stage_path (a : args) : option string :=
  processed_paths a !! stage_to_index (stage a).

(** [CoraDataset.process] (lines 108 to 119). *)
Definition process (a : args) (sys : System) : option System :=
  '(split, w') ← build a (sys_world sys);
  path ← stage_path a;
  Some {| sys_fs := torch_save split path (sys_fs sys);
          sys_world := w';
          process_calls := S (process_calls sys) |}.

(** [process] when the write of [torch.save] stops after [k] bytes. *)
Definition process_interrupted (k : nat) (a : args) (sys : System)
    : option System :=
  '(split, w') ← build a (sys_world sys);
  path ← stage_path a;
  Some {| sys_fs := torch_save_interrupted k split path (sys_fs sys);
          sys_world := w';
          process_calls := S (process_calls sys) |}.

(** [Dataset._process] of the torch_geometric base class, which
    [super().__init__] runs: skip when every file named by
    [processed_file_names] exists, otherwise call [process].  The record
    files the base class keeps of [pre_transform] and [pre_filter] are left
    out. *)
Definition base_process (a : args) (sys : System) : option System :=
  if files_exist (processed_paths a) (sys_fs sys) then Some sys
  else process a sys.

(** [CoraDataset.__init__] (lines 86 to 94). *)
Definition init (a : args) (sys : System) : option (t * System) :=
  _ ← download_cora (raw a) (y a);
  sys' ← base_process a sys;
  path ← stage_path a;
  split ← torch_load path (sys_fs sys');
  Some (mkDataset a split, sys').
End Dataset.
End CoraDataset.

(** ** Merging dataset handles ([get_big_dataset], lines 124 to 140) *)

Module Combiner.

(** Modelled from the spec: the handle classes ([FromOGBDataset],
    [FacebookDataset], [EgoDataset]) are not among the sources, so what
    [combined += data] builds follows the DatasetCombiner of the
    specification, in the form the torch base class gives it: a
    concatenation that keeps its parts in order together with their
    cumulative sizes, and finds the owner of a position by bisection. *)
#[warnings="-register-all"]
Inductive Handle :=
  | Stored (samples : list Data)
  | ConcatDataset (datasets : list Handle).

(** [cumsum]: running totals of the lengths. *)
Fixpoint cumsum_from (s : nat) (lens : list nat) : list nat :=
  match lens with
  | [] => []
  | l :: rest => (l + s) :: cumsum_from (l + s) rest
  end.

Definition cumsum (lens : list nat) : list nat := cumsum_from 0 lens.

(** [len(handle)]: for a concatenation, [cumulative_sizes[-1]]. *)
Fixpoint len (h : Handle) : nat :=
  match h with
  | Stored samples => length samples
  | ConcatDataset datasets => default 0 (last (cumsum (len <$> datasets)))
  end.

(** [bisect.bisect_right(a, x)]: binary search for the insertion point
    to the right of every entry not above [x]. *)
Fixpoint bisect_loop (fuel : nat) (a : list nat) (x lo hi : nat) : nat :=
  match fuel with
  | 0 => lo
  | S fuel' =>
      if decide (lo < hi) then
        let mid := (lo + hi) `div` 2 in
        match a !! mid with
        | Some am =>
            if decide (x < am) then bisect_loop fuel' a x lo mid
            else bisect_loop fuel' a x (mid + 1) hi
        | None => lo
        end
      else lo
  end.

Definition bisect_right (a : list nat) (x : nat) : nat :=
  bisect_loop (S (length a)) a x 0 (length a).

(** Python indexing of a list by an integer: negative positions count
    from the end, anything else out of range raises. *)
Definition py_index {A} (l : list A) (i : Z) : option A :=
  if decide (0 ≤ i)%Z then l !! Z.to_nat i
  else if decide (- i ≤ Z.of_nat (length l))%Z
       then l !! Z.to_nat (Z.of_nat (length l) + i)
       else None.

(** [datasets[i]] followed by a call on the entry; a position past the
    end raises. *)
Definition at_index {A B} (f : A → option B) : list A → nat → option B :=
  fix go (ds : list A) (i : nat) : option B :=
    match ds, i with
    | d :: _, 0 => f d
    | _ :: rest, S i' => go rest i'
    | [], _ => None
    end.

(** [handle[idx]]. *)
Fixpoint getitem (h : Handle) (idx : Z) : option Data :=
  match h with
  | Stored samples => py_index samples idx
  | ConcatDataset datasets =>
      let sizes := cumsum (len <$> datasets) in
      let total := Z.of_nat (default 0 (last sizes)) in
      idx ← (if decide (idx < 0)%Z
             then (if decide (total < - idx)%Z then None
                   else Some (Z.to_nat (total + idx)))
             else Some (Z.to_nat idx));
      let dataset_idx := bisect_right sizes idx in
      sample_idx ← (if decide (dataset_idx = 0) then Some idx
                    else (λ c, idx - c) <$> sizes !! (dataset_idx - 1));
      at_index (λ d, getitem d (Z.of_nat sample_idx)) datasets dataset_idx
  end.

(** [a += b], that is [a = a + b]. *)
Definition iadd (a b : Handle) : Handle := ConcatDataset [a; b].

(** [for data in datasets: combined += data]. *)
Definition merge (combined : Handle) (datasets : list Handle) : Handle :=
  foldl iadd combined datasets.

End Combiner.

(** ** Predicates the properties are stated with *)

(** Two nodes are adjacent when an edge joins them, connected when a chain
    of adjacent nodes does. *)
Definition adjacent (G : Graph) (u w : node) : Prop := w ∈ neighbors G u.
Definition connected (G : Graph) : relation node := rtc (adjacent G).

(** A connected component: a non-empty set of nodes of the graph that
    holds, with each of its nodes, exactly the nodes connected to it. *)
Definition is_component (G : Graph) (c : gset node) : Prop :=
  c ≠ ∅ ∧ (∀ u, u ∈ c → u ∈ g_nodes G) ∧
  ∀ u, u ∈ c → ∀ w, w ∈ c ↔ connected G u w.

(** The cross product of a list of algorithms and a list of budgets, in the
    order of the nested loops. *)
Definition cross_product (samplers : list Algorithm) (budgets : list nat)
    : list Sampler :=
  a ← samplers; mkSampler a <$> budgets.

(** What the sampler library promises on a graph for the samplers of a
    pool: a graph object with unique node keys, at least the start node,
    and no more nodes than the sampler's budget. *)
Definition respects_budget `{SamplerLib} (sampler_list : list Sampler)
    (graph : Graph) : Prop :=
  ∀ s w, s ∈ sampler_list →
    NoDup (g_nodes (sample s graph w).1) ∧
    1 ≤ number_of_nodes (sample s graph w).1 ≤ budget s.

(** A sample with contiguous node identifiers [0 .. k-1], [1 ≤ k ≤ bound]. *)
Definition contiguous_sample (bound : nat) (g : Graph) : Prop :=
  ∃ k, g_nodes g = seq 0 k ∧ 1 ≤ k ≤ bound.

#[global] Instance Algorithm_eq_dec : EqDecision Algorithm.
Proof. solve_decision. Defined.
#[global] Instance Sampler_eq_dec : EqDecision Sampler.
Proof. solve_decision. Defined.

(** ** A small library instance

    A concrete instance of the library interfaces, used to run the model:
    generators are counters, a sampler walks the node list from a random
    position, and constructors reseed the generators as littleballoffur's
    do. *)

Module Demo.

Lemma counter_randint_lt (high g : nat) : 0 < high → (g `mod` high, S g).1 < high.
Proof. intros Hh. cbn. apply Nat.mod_upper_bound. lia. Qed.

Definition random_lib : RandomLib :=
  {| gen := nat;
     np_random_seed s := Z.to_nat s;
     random_seed s := Z.to_nat s;
     torch_manual_seed s := Z.to_nat s;
     np_random_randint high g := (g `mod` high, S g);
     np_random_randint_lt := counter_randint_lt |}.

#[local] Existing Instance random_lib.

(** The nodes a walk visits: up to [budget] nodes from a random start. *)
Definition visited (s : Sampler) (G : Graph) (w : World) : list node :=
  take (budget s) (rotate (np_random w) (g_nodes G)).

Definition walk (s : Sampler) (G : Graph) (w : World) : Graph * World :=
  (subgraph G (list_to_set (visited s G w)),
   {| torch_random := torch_random w;
      cudnn_deterministic := cudnn_deterministic w;
      np_random := S (np_random w);
      py_random := S (py_random w) |}).

Definition reseed (a : Algorithm) (i : nat) (w : World) : World :=
  {| torch_random := torch_random w;
     cudnn_deterministic := cudnn_deterministic w;
     np_random := np_random_seed 42;
     py_random := random_seed 42 |}.

Definition sampler_lib : SamplerLib :=
  {| sampler_init := reseed; sample := walk |}.

Definition world0 : World :=
  {| torch_random := 0; cudnn_deterministic := false;
     np_random := 7; py_random := 11 |}.

(** A ring of 120 nodes. *)
Definition ring : Graph :=
  {| g_nodes := seq 0 120;
     g_edges := (119, 0) :: path_edges 0 120 |}.

#[local] Instance Graph_eq_dec : EqDecision Graph.
Proof. solve_decision. Defined.

#[local] Instance Data_eq_dec : EqDecision Data.
Proof. solve_decision. Defined.

#[local] Instance Graph_countable : Countable Graph.
Proof.
  refine (inj_countable' (λ G, (g_nodes G, g_edges G))
                         (λ p, mkGraph p.1 p.2) _).
  by intros [].
Defined.

#[local] Instance Data_countable : Countable Data.
Proof.
  refine (inj_countable' (λ d, (d_graph d, d_y d))
                         (λ p, mkData p.1 p.2) _).
  by intros [].
Defined.

(** A byte per binary digit, then an end marker. *)
Fixpoint pos_to_bytes (p : positive) : list byte :=
  match p with
  | xH => [x02]
  | xO q => x00 :: pos_to_bytes q
  | xI q => x01 :: pos_to_bytes q
  end.

Fixpoint bytes_to_pos (bs : list byte) : option positive :=
  match bs with
  | [x02] => Some xH
  | x00 :: rest => xO <$> bytes_to_pos rest
  | x01 :: rest => xI <$> bytes_to_pos rest
  | _ => None
  end.

Lemma bytes_to_pos_to_bytes p : bytes_to_pos (pos_to_bytes p) = Some p.
Proof. induction p as [q IH|q IH|]; cbn; by rewrite ?IH. Qed.

Definition demo_dumps (s : Split) : list byte := pos_to_bytes (encode s).
Definition demo_loads (bs : list byte) : option Split :=
  p ← bytes_to_pos bs; decode p.

Lemma demo_loads_dumps s : demo_loads (demo_dumps s) = Some s.
Proof.
  unfold demo_loads, demo_dumps. rewrite bytes_to_pos_to_bytes. cbn.
  apply decode_encode.
Qed.

Definition pickle : Pickle :=
  {| dumps := demo_dumps; loads := demo_loads; loads_dumps := demo_loads_dumps |}.

(** A raw graph with a component of four nodes and one of two, and the
    class labels of its nodes. *)
Definition raw0 : Graph :=
  {| g_nodes := [0; 1; 2; 3; 4; 5];
     g_edges := [(0, 1); (1, 2); (2, 3); (4, 5)] |}.
Definition y0 : list Z := [0; 1; 2; 0; 1; 2]%Z.

Definition args0 : CoraDataset.args :=
  {| CoraDataset.raw := raw0; CoraDataset.y := y0;
     CoraDataset.root := "cora"; CoraDataset.stage := train;
     CoraDataset.pre_transform := None; CoraDataset.pre_filter := None;
     CoraDataset.num := 2 |}.

Definition sys0 : @System random_lib :=
  {| sys_fs := ∅; sys_world := world0; process_calls := 0 |}.

(** The split [get_cora_dataset] builds from [raw0]: two samples of the
    four-node component. *)
Definition split0 : Split :=
  let g := mkGraph [0; 1; 2; 3] [(0, 1); (1, 2); (2, 3)] in
  [mkData g None; mkData g None].
End Demo.

(** * The rest of the code around the core

    What the second part of the properties is about: more on the dataset
    cache, [wandb_cfg_to_actual_cfg], [better_to_nx], the picture files of
    [vis_vals] and [vis_views] with their listing in [run], the file
    handling of [download_cora], and the choice of the latest
    checkpoint. *)

(** The arguments of a construction for another stage, everything else
    unchanged. *)
Definition with_stage (a : CoraDataset.args) (s : Stage) : CoraDataset.args :=
  {| CoraDataset.raw := CoraDataset.raw a; CoraDataset.y := CoraDataset.y a;
     CoraDataset.root := CoraDataset.root a; CoraDataset.stage := s;
     CoraDataset.pre_transform := CoraDataset.pre_transform a;
     CoraDataset.pre_filter := CoraDataset.pre_filter a;
     CoraDataset.num := CoraDataset.num a |}.

(** A set of nodes that holds, with each member, everything connected to
    it. *)
Definition closed_nodes (G : Graph) (S : gset node) : Prop :=
  ∀ u w, u ∈ S → connected G u w → w ∈ S.

(** ** What the sampler library does with the global generators

    The constructors of littleballoffur's samplers call [random.seed] and
    [np.random.seed] with the sampler's own seed, and [sample] draws from
    these two generators only.  Two worlds with the same state of both
    yield the same draws. *)
Definition same_draws `{RandomLib} (w1 w2 : World) : Prop :=
  np_random w1 = np_random w2 ∧ py_random w1 = py_random w2.

(** The state of the two generators after a construction does not depend
    on their state before it. *)
Definition constructors_reseed `{SamplerLib} : Prop :=
  ∀ a i w1 w2, same_draws (sampler_init a i w1) (sampler_init a i w2).

(** A sample, and the state of the two generators after it, depend on the
    world through the two generators only. *)
Definition sample_reads_draws `{SamplerLib} : Prop :=
  ∀ s G w1 w2, same_draws w1 w2 →
    (sample s G w1).1 = (sample s G w2).1 ∧
    same_draws (sample s G w1).2 (sample s G w2).2.


(** A machine whose cache for the root of [Demo.args0] is complete: the
    training file holds [Demo.split0]. *)
Definition sys_complete : @System Demo.random_lib :=
  {| sys_fs := {[ ("cora/processed/train.pt" : string) := Demo.demo_dumps Demo.split0;
                  ("cora/processed/val.pt" : string) := [];
                  ("cora/processed/test.pt" : string) := [] ]};
     sys_world := Demo.world0;
     process_calls := 0 |}.

(** [Demo.args0] with another sample count and a transform. *)
Definition args_other : CoraDataset.args :=
  {| CoraDataset.raw := Demo.raw0; CoraDataset.y := Demo.y0;
     CoraDataset.root := "cora"; CoraDataset.stage := train;
     CoraDataset.pre_transform := Some (λ d, mkData (d_graph d) (Some 1%Z));
     CoraDataset.pre_filter := None;
     CoraDataset.num := 5 |}.

(** Constructing the three stages one after the other on [Demo.sys0]. *)
Definition three_stage_run :=
  let init := @CoraDataset.init Demo.random_lib Demo.sampler_lib Demo.pickle in
  r1 ← init (with_stage Demo.args0 val) Demo.sys0;
  r2 ← init (with_stage Demo.args0 train) r1.2;
  r3 ← init (with_stage Demo.args0 test) r2.2;
  Some (r1, r2, r3).

#[global] Instance Stage_eq_dec : EqDecision Stage.
Proof. solve_decision. Defined.

(** ** Restoring a saved configuration ([wandb_cfg_to_actual_cfg],
    utils.py lines 16 to 35 and transfer.py lines 90 to 109)

    [vars(original_cfg)] is the attribute dictionary of the run's
    namespace.  The saved configuration is what [yaml.safe_load] returned:
    a dictionary whose entries are dictionaries themselves (wandb stores
    an option as [{desc: ..., value: ...}]) or plain values (as
    [wandb_version: 1] is). *)

Module Config.
Section Config.
Context {V : Type}.

Inductive Entry :=
  | Dict (d : gmap string V)
  | Plain (v : V).

(** [entry['value']]: [KeyError] on a dictionary without the key,
    [TypeError] on a plain value. *)
Definition entry_value (e : Entry) : option V :=
  match e with
  | Dict d => d !! ("value" : string)
  | Plain _ => None
  end.

(** The loop body for one key: [continue] when the saved configuration
    does not have it, else overwrite the attribute. *)
Definition cfg_step (wandb_cfg : gmap string Entry)
    (original_cfg : gmap string V) (key : string) : option (gmap string V) :=
  match wandb_cfg !! key with
  | None => Some original_cfg
  | Some entry =>
      v ← entry_value entry;
      Some (<[key := v]> original_cfg)
  end.

Fixpoint cfg_loop (wandb_cfg : gmap string Entry)
    (original_cfg : gmap string V) (keys : list string)
    : option (gmap string V) :=
  match keys with
  | [] => Some original_cfg
  | key :: rest =>
      cfg ← cfg_step wandb_cfg original_cfg key;
      cfg_loop wandb_cfg cfg rest
  end.

(** The keys are listed before the loop starts.  The loop reads only the
    saved configuration and writes only the key at hand, so the order in
    which the keys come decides nothing but which of several offending
    keys raises. *)
Definition wandb_cfg_to_actual_cfg (original_cfg : gmap string V)
    (wandb_cfg : gmap string Entry) : option (gmap string V) :=
  let original_keys := (map_to_list original_cfg).*1 in
  cfg_loop wandb_cfg original_cfg original_keys.

End Config.
Arguments Entry : clear implicits.
End Config.

(** The value the loop leaves at a key it visits. *)
Definition restored {V} (w : gmap string (Config.Entry V)) (o : gmap string V)
    (k : string) : option V :=
  match w !! k with
  | None => o !! k
  | Some e => Config.entry_value e
  end.

(** The run's options and a saved configuration with an entry for one of
    them and one for an option the run does not have. *)
Definition cfg_run : gmap string Z :=
  {[ ("seed" : string) := 1%Z; ("lr" : string) := 2%Z ]}.
Definition cfg_saved : gmap string (Config.Entry Z) :=
  {[ ("lr" : string) := Config.Dict {[ ("desc" : string) := 0%Z; ("value" : string) := 5%Z ]};
     ("epochs" : string) := Config.Dict {[ ("value" : string) := 9%Z ]};
     ("wandb_version" : string) := Config.Plain 1%Z ]}.

(** ** From tensors back to a graph ([better_to_nx], utils.py lines 103 to
    125; the same statements open [vis_from_pyg] of
    interactive_validation.py, lines 85 to 95) *)

(** The two tensors of a [Data] object the function reads: the feature
    matrix [x] by its rows, and [edge_index] by its columns (what
    [edge_index.T] lists). *)
Record TensorData := mkTensorData {
  td_x : list tensor;
  td_edge_index : list (node * node)
}.

(** [x[:,0]]: the first entry of every row; a matrix without columns
    raises. *)
Definition first_column (x : list tensor) : option (list Z) :=
  mapM (λ row : tensor, row !! 0) x.

(** [G.add_node(n)]: a node already there stays where it is. *)
Definition add_node (n : node) (G : Graph) : Graph :=
  if decide (n ∈ g_nodes G) then G
  else {| g_nodes := g_nodes G ++ [n]; g_edges := g_edges G |}.

(** [G.add_edge(u, v)]: both ends become nodes, [u] first, and the edge
    is entered once, whichever way round it was there before.  The edge
    list keeps the order of entry; networkx reports edges node by node,
    and nothing proved below depends on that order. *)
Definition add_edge (u v : node) (G : Graph) : Graph :=
  let G := add_node v (add_node u G) in
  if decide ((u, v) ∈ g_edges G ∨ (v, u) ∈ g_edges G) then G
  else {| g_nodes := g_nodes G; g_edges := g_edges G ++ [(u, v)] |}.

(** [G.add_edges_from(edges)] *)
Definition add_edges_from (edges : list (node * node)) (G : Graph) : Graph :=
  foldl (λ G e, add_edge e.1 e.2 G) G edges.

(** The values [np.unique(edges)] holds. *)
Definition edge_values (edges : list (node * node)) : list node :=
  edges ≫= λ e, [e.1; e.2].

(** The loop of lines 121 to 123. *)
Definition add_isolated (edges : list (node * node)) (n : nat) (g : Graph)
    : Graph :=
  foldl (λ g ilabel,
           if decide (ilabel ∈ edge_values edges) then g else add_node ilabel g)
        g (seq 0 n).

Definition better_to_nx (data : TensorData) : option (Graph * list Z) :=
  let edges := td_edge_index data in
  labels ← first_column (td_x data);
  let g := {| g_nodes := []; g_edges := [] |} in
  let g := add_edges_from edges g in
  let g := add_isolated edges (length labels) g in
  Some (g, labels).

(** Every unordered pair is listed at most once. *)
Definition simple_edges (es : list (node * node)) : Prop :=
  NoDup es ∧ ∀ u v, (u, v) ∈ es → u ≠ v → (v, u) ∉ es.

(** A triangle on the nodes 2, 0, 1, stored in both directions as
    torch_geometric stores an undirected graph, and a fourth node without
    edges. *)
Definition triangle_data : TensorData :=
  {| td_x := [[7]; [8]; [9]; [5]]%Z;
     td_edge_index := [(2, 0); (0, 2); (0, 1); (1, 0); (1, 2); (2, 1)] |}.

(** ** Pictures on disk ([vis_vals], [vis_views], and the listing in [run];
    interactive_validation.py) *)

(** [f"{i}"]: the decimal digits of [i]. *)
Definition str (i : nat) : string := NilEmpty.string_of_uint (Nat.to_uint i).

(** [f"val-{i}.png"] and [f"view-{i}.png"]. *)
Definition val_name (i : nat) : string := "val-" +:+ str i +:+ ".png".
Definition view_name (i : nat) : string := "view-" +:+ str i +:+ ".png".

(** A directory of pictures, by file name. *)
Abbreviation Dir Picture := (gmap string Picture).

Section vis_files.

(** Drawing belongs to networkx and matplotlib: [render data] is the
    figure [vis_from_pyg] draws for a sample, [None] when drawing it
    raises. *)
Context {Picture : Type} (render : TensorData → option Picture).
Context (name : nat → string).

(** [vis_from_pyg(data, filename=filename)] (lines 84 to 112):
    [savefig] creates the file or replaces it. *)
Definition vis_from_pyg (data : TensorData) (filename : string)
    (dir : Dir Picture) : option (Dir Picture) :=
  pic ← render data;
  Some (<[filename := pic]> dir).

(** The first loop: [skip_all] stays [True] when each of the first [num]
    names is in the listing. *)
Definition skip_all (num : nat) (existing_files : gset string) : bool :=
  forallb (λ i, bool_decide (name i ∈ existing_files)) (seq 0 num).

(** The last loop, from position [i] on.  The flag tells whether the loop
    ran to its end ([true]) or a call of [vis_from_pyg] raised. *)
Fixpoint vis_loop (num : nat) (existing_files : gset string) (i : nat)
    (datas : list TensorData) (dir : Dir Picture) : Dir Picture * bool :=
  match datas with
  | [] => (dir, true)
  | data :: rest =>
      if decide (num ≤ i ∨ name i ∈ existing_files)
      then vis_loop num existing_files (S i) rest dir
      else match vis_from_pyg data (name i) dir with
           | Some dir' => vis_loop num existing_files (S i) rest dir'
           | None => (dir, false)
           end
  end.

(** The function as a whole.  [sub] is the picture directory of the
    dataset, [None] when it has not been made yet; [loader] lists the
    samples the loader yields, which are read only past the early
    return. *)
Definition vis_files (num : nat) (loader : list TensorData)
    (sub : option (Dir Picture)) : Dir Picture * bool :=
  let dir := default ∅ sub in
  let existing_files := dom dir in
  if skip_all num existing_files then (dir, true)
  else
    let val_data := loader in
    let existing_files := dom dir in
    vis_loop num existing_files 0 val_data dir.
End vis_files.

(** [vis_vals] (lines 293 to 325). *)
Definition vis_vals {Picture} (render : TensorData → option Picture)
    : nat → list TensorData → option (Dir Picture) → Dir Picture * bool :=
  vis_files render val_name.

(** [vis_views] (lines 331 to 402); [loader] lists the views the pass
    over the loader has put into [view_data]. *)
Definition vis_views {Picture} (render : TensorData → option Picture)
    : nat → list TensorData → option (Dir Picture) → Dir Picture * bool :=
  vis_files render view_name.

(** [edge_index[:, mask]]: the columns at which the boolean mask holds;
    a mask of another length raises. *)
Definition mask_select {A} (l : list A) (mask : list bool) : option (list A) :=
  if decide (length mask = length l)
  then Some (zip l mask ≫= λ p : A * bool, if p.2 then [p.1] else [])
  else None.

(** The loop over a batch in [vis_views] (lines 381 to 389): every sample
    keeps the edges its slice of [kept] marks. *)
Fixpoint slice_views (kept : list bool) (edges_so_far : nat)
    (datalist : list TensorData) : option (list TensorData) :=
  match datalist with
  | [] => Some []
  | data :: rest =>
      let num_edges := length (td_edge_index data) in
      let dropped_slice := take num_edges (drop edges_so_far kept) in
      new_edges ← mask_select (td_edge_index data) dropped_slice;
      let edges_so_far := edges_so_far + num_edges in
      let data := mkTensorData (td_x data) new_edges in
      rest' ← slice_views kept edges_so_far rest;
      Some (data :: rest')
  end.

(** [s[a:]] and [s[:-b]] on strings. *)
Fixpoint string_drop (n : nat) (s : string) : string :=
  match n, s with
  | 0, _ => s
  | S n', String _ rest => string_drop n' rest
  | S _, EmptyString => EmptyString
  end.

Fixpoint string_take (n : nat) (s : string) : string :=
  match n, s with
  | 0, _ => EmptyString
  | S n', String c rest => String c (string_take n' rest)
  | S _, EmptyString => EmptyString
  end.

(** [s[a:-b]] for [0 < b]. *)
Definition slice (a b : nat) (s : string) : string :=
  string_take (String.length s - b - a) (string_drop a s).

(** [s.split(sep)] for a separator of one character. *)
Fixpoint split_on (sep : ascii) (s : string) : list string :=
  match s with
  | EmptyString => [EmptyString]
  | String c rest =>
      if decide (c = sep) then EmptyString :: split_on sep rest
      else match split_on sep rest with
           | [] => [String c EmptyString]
           | h :: t => String c h :: t
           end
  end.

(** [int(s)] on a string of decimal digits.  Other strings are taken as
    raising; Python also accepts a sign, blanks around the number and
    underscores between digits. *)
Definition py_int (s : string) : option nat :=
  if decide (s = EmptyString) then None
  else Nat.of_uint <$> NilEmpty.uint_of_string s.

(** [int(filename.split('/')[-1][a:-4])] *)
Definition file_number (a : nat) (filename : string) : option nat :=
  base ← last (split_on "/"%char filename);
  py_int (slice a 4 base).

(** What [np.argsort(keys)] may return: the positions of [keys], in an
    order that makes the keys ascend.  The order among equal keys is left
    open, as numpy's default sort leaves it. *)
Definition is_argsort (keys : list nat) (inds : list nat) : Prop :=
  inds ≡ₚ seq 0 (length keys) ∧
  ∃ sorted, mapM (keys !!.) inds = Some sorted ∧ Sorted le sorted.

(** [[img_paths[ind] for ind in sort_inds][:num]] *)
Definition select_paths (img_paths : list string) (sort_inds : list nat)
    (num : nat) : option (list string) :=
  take num <$> mapM (img_paths !!.) sort_inds.

(** A way of drawing that keeps the graph of the sample. *)
Definition graph_of (data : TensorData) : option Graph := fst <$> better_to_nx data.

(** A sample whose feature matrix has no column. *)
Definition no_feature_data : TensorData :=
  {| td_x := [[]; []]; td_edge_index := [(0, 1); (1, 0)] |}.

(** ** Fetching the raw file ([download_cora], lines 25 to 41 and 61)

    The part of [download_cora] around the graph work: change into
    [original_datasets], download [cora_ml.npz] into a new directory
    [cora] unless an entry of that name is listed, read the file, and
    change back. *)

Module Fetch.

(** A path, by its components from the root. *)
Abbreviation Path := (list string).

(** The content of an [.npz] file, as [read_npz] and [to_networkx] return
    it: the graph and the label tensor. *)
Abbreviation Npz := (Graph * list Z)%type.

(** The process's view of the file system: the working directory, the
    directories and the files. *)
Record OS := mkOS {
  cwd : Path;
  dirs : gset Path;
  files : gmap Path Npz
}.

(** [os.chdir(path)] to an absolute path: raises unless it is a
    directory. *)
Definition chdir_abs (path : Path) (os : OS) : option OS :=
  if decide (path ∈ dirs os) then Some (mkOS path (dirs os) (files os))
  else None.

(** [os.chdir(name)] with a relative name. *)
Definition chdir (name : string) (os : OS) : option OS :=
  chdir_abs (cwd os ++ [name]) os.

(** [name in os.listdir()] *)
Definition listed (name : string) (os : OS) : Prop :=
  cwd os ++ [name] ∈ dirs os ∨ is_Some (files os !! (cwd os ++ [name])).

#[global] Instance listed_dec name os : Decision (listed name os).
Proof. unfold listed. apply _. Defined.

(** [os.mkdir(name)] *)
Definition mkdir (name : string) (os : OS) : option OS :=
  if decide (listed name os) then None
  else Some (mkOS (cwd os) ({[cwd os ++ [name]]} ∪ dirs os) (files os)).

(** [wget.download(zip_url)]: [net] is what the server sends, [None]
    when the request fails; the file is saved in the working directory
    under the last part of the URL.  (The directory is new when the code
    gets here, so the name is free.) *)
Definition wget_download (net : option Npz) (os : OS) : option OS :=
  content ← net;
  Some (mkOS (cwd os) (dirs os) (<[cwd os ++ ["cora_ml.npz"] := content]> (files os))).

(** [read_npz("cora_ml.npz")] *)
Definition read_npz (os : OS) : option Npz :=
  files os !! (cwd os ++ ["cora_ml.npz"]).

(** [download_cora()]: the state the call leaves behind, and the graph it
    returns unless it raised.  No statement is guarded, so an exception
    leaves the working directory where it was at that point. *)
Definition download_cora (net : option Npz) (os : OS) : OS * option Graph :=
  let start_dir := cwd os in
  match chdir "original_datasets" os with
  | None => (os, None)
  | Some os1 =>
      let entered :=
        if decide (¬ listed "cora" os1) then
          match mkdir "cora" os1 with
          | None => (os1, false)
          | Some os2 =>
              match chdir "cora" os2 with
              | None => (os2, false)
              | Some os3 =>
                  match wget_download net os3 with
                  | None => (os3, false)
                  | Some os4 => (os4, true)
                  end
              end
          end
        else
          match chdir "cora" os1 with
          | None => (os1, false)
          | Some os2 => (os2, true)
          end in
      let '(os5, ok) := entered in
      if ok then
        match read_npz os5 with
        | None => (os5, None)
        | Some (raw, y) =>
            match download_cora raw y with
            | None => (os5, None)
            | Some graph =>
                match chdir_abs start_dir os5 with
                | None => (os5, None)
                | Some os6 => (os6, Some graph)
                end
            end
        end
      else (os5, None)
  end.

(** The state a caller is in after it has changed back to [dir]. *)
Definition back_to (dir : Path) (os : OS) : OS := mkOS dir (dirs os) (files os).

End Fetch.

(** A project directory with [original_datasets] in it and nothing
    fetched yet. *)
Definition os_fresh : Fetch.OS :=
  {| Fetch.cwd := ["proj"];
     Fetch.dirs := {[ ["proj"]; ["proj"; "original_datasets"] ]};
     Fetch.files := ∅ |}.

(** The samples a handle stands for, in order: those of a stored handle,
    and for a concatenation those of its parts one after the other. *)
Fixpoint samples (h : Combiner.Handle) : list Data :=
  match h with
  | Combiner.Stored s => s
  | Combiner.ConcatDataset datasets => datasets ≫= samples
  end.

(** ** Choosing the latest checkpoint ([run] of transfer.py, lines 289 to
    296) *)

Module Latest.

Definition checkpoint_root : string := "wandb/latest-run/files".

(** What [glob.glob(f"{checkpoint_root}/Checkpoint-*.pt")] lists for the
    file names [Checkpoint-{stem}.pt] in the directory: each match with
    the directory part of the pattern in front. *)
Definition glob (stems : list string) : list string :=
  (λ stem, checkpoint_root +:+ "/Checkpoint-" +:+ stem +:+ ".pt") <$> stems.

(** [[cp.split('-')[0] for cp in checkpoints]] *)
Definition epochs (checkpoints : list string) : list string :=
  (λ cp, default EmptyString (head (split_on "-" cp))) <$> checkpoints.

(** [f"wandb/latest-run/files/{checkpoints[checkpoint_ind]}"], for the
    index the sort of the keys has put first. *)
Definition checkpoint_path (checkpoints : list string) (checkpoint_ind : nat)
    : option string :=
  cp ← checkpoints !! checkpoint_ind;
  Some ("wandb/latest-run/files/" +:+ cp).

End Latest.

(** * Properties *)

(** ** Annotation *)

Module AnnotateFacts.
Import Annotate.

Lemma setitem_length r i v h h' :
  setitem r i v h = Some h' → length h' = length h.
Proof.
  unfold setitem. intros Hs. simplify_option_eq. by rewrite length_insert.
Qed.

(** The node loop never allocates, and every reference it hands out is
    the one of [base_tensor]. *)
Lemma node_loop_alias base classes nodes st st' :
  node_loop base classes st nodes = Some st' →
  (∀ n r, node_attrs st !! n = Some r → r = base) →
  length (heap st') = length (heap st) ∧
  (∀ n r, node_attrs st' !! n = Some r → r = base) ∧
  (∀ n, is_Some (node_attrs st !! n) ∨ n ∈ nodes → is_Some (node_attrs st' !! n)).
Proof.
  revert st. induction nodes as [|n nodes IH]; intros st Hloop Hinv.
  - injection Hloop as <-. split_and!; [done|done|].
    intros n [Hn|Hn]; [done|inversion Hn].
  - cbn [node_loop] in Hloop.
    destruct (node_step base classes st n) as [st1|] eqn:Hstep; [|done].
    cbn in Hloop. unfold node_step in Hstep.
    destruct (classes !! n) as [c|]; [|done]. cbn in Hstep.
    destruct (setitem base 0 c (heap st)) as [h|] eqn:Hset; [|done].
    cbn in Hstep. injection Hstep as <-.
    apply setitem_length in Hset.
    destruct (IH _ Hloop) as (Hl & Hall & Hin).
    { cbn. intros m r. rewrite lookup_insert. case_decide; [congruence|apply Hinv]. }
    cbn in Hl. split_and!; [congruence|done|].
    intros m Hm. apply Hin. cbn. rewrite lookup_insert.
    case_decide; [by left|]. destruct Hm as [Hm|Hm]; [by left|].
    apply elem_of_cons in Hm as [->|Hm]; [done|by right].
Qed.

(** The edge loop only appends to the store. *)
Lemma edge_loop_frame edges st :
  node_attrs (foldl edge_step st edges) = node_attrs st ∧
  ∀ r, r < length (heap st) →
       heap (foldl edge_step st edges) !! r = heap st !! r.
Proof.
  revert st. induction edges as [|e edges IH]; intros st; [done|].
  cbn [foldl]. destruct (IH (edge_step st e)) as [Hn Hh].
  split; [by rewrite Hn|]. intros r Hr. rewrite Hh.
  - cbn. by rewrite lookup_app_l.
  - cbn. rewrite length_app. lia.
Qed.

(** After [annotate], every node reads the one tensor allocated before
    the loop: any two nodes see the same vector. *)
Lemma annotate_shares_one_tensor G y st :
  annotate G y = Some st →
  ∀ n, n ∈ g_nodes G → read_node_attrs st n = heap st !! 0.
Proof.
  unfold annotate. destruct (node_classes (g_nodes G) y) as [classes|]; [|done].
  cbn. destruct (node_loop 0 classes _ (g_nodes G)) as [st1|] eqn:Hloop; [|done].
  cbn. intros [= <-] n Hn.
  apply node_loop_alias in Hloop as (Hl & Hall & Hin); [|by intros ??; cbn; rewrite lookup_empty].
  destruct (edge_loop_frame (g_edges G) st1) as [Hn' Hh].
  unfold read_node_attrs. rewrite Hn'.
  destruct (Hin n (or_intror Hn)) as [r Hr]. rewrite Hr. cbn.
  by rewrite (Hall _ _ Hr).
Qed.
End AnnotateFacts.

(** C1, at the graph with nodes 0 and 1, one edge, and class labels 3 and 5:
    after the annotation loops of [download_cora] both nodes hold the same
    tensor object, and it reads (5, 0, ..., 0).  Node 0 does not carry its
    own label 3 in slot 0, and the two vectors do not differ in slot 0.
    The edges, by contrast, each hold a tensor of their own. *)
Theorem annotate_overwrites_earlier_labels :
  let G := mkGraph [0; 1] [(0, 1)] in
  let y := [3; 5]%Z in
  (Annotate.annotate G y ≫= λ st, Annotate.read_node_attrs st 0)
    = Some [5; 0; 0; 0; 0; 0; 0; 0; 0]%Z ∧
  (Annotate.annotate G y ≫= λ st, Annotate.read_node_attrs st 1)
    = Some [5; 0; 0; 0; 0; 0; 0; 0; 0]%Z ∧
  (Annotate.annotate G y ≫= λ st, Annotate.node_attrs st !! 0) = Some 0 ∧
  (Annotate.annotate G y ≫= λ st, Annotate.node_attrs st !! 1) = Some 0 ∧
  (Annotate.annotate G y ≫= λ st, Annotate.edge_attrs st !! (0, 1)) = Some 1.
Proof. cbv zeta. split_and!; vm_compute; reflexivity. Qed.

(** ** Graph facts *)

Section graph_facts.
Context (G : Graph).

Lemma elem_of_neighbors u w :
  w ∈ neighbors G u ↔ (u, w) ∈ g_edges G ∨ (w, u) ∈ g_edges G.
Proof.
  unfold neighbors. rewrite list_elem_of_omap. split.
  - intros ([a b] & Hin & Hsel). cbn in Hsel.
    repeat case_decide; simplify_eq; auto.
  - intros [Hin|Hin].
    + exists (u, w). split; [done|]. cbn. by rewrite decide_True.
    + exists (w, u). split; [done|]. cbn. case_decide; [by subst|].
      by rewrite decide_True.
Qed.

Lemma adjacent_sym u w : adjacent G u w → adjacent G w u.
Proof. unfold adjacent. rewrite !elem_of_neighbors. tauto. Qed.

Lemma connected_sym u w : connected G u w → connected G w u.
Proof.
  induction 1 as [|u v w Huv _ IH]; [done|].
  eapply rtc_r; [exact IH|by apply adjacent_sym].
Qed.

Lemma elem_of_expand S w :
  w ∈ expand G S ↔ w ∈ S ∨ ∃ u, u ∈ S ∧ adjacent G u w.
Proof.
  unfold expand, adjacent.
  rewrite elem_of_union, elem_of_list_to_set, list_elem_of_bind.
  setoid_rewrite elem_of_elements.
  split; (intros [?|(u & ? & ?)]; [by left|right; by exists u]).
Qed.

Lemma expand_subseteq S : S ⊆ expand G S.
Proof. intros w Hw. apply elem_of_expand. by left. Qed.

Lemma iter_expand_sound v k w :
  w ∈ Nat.iter k (expand G) {[v]} → connected G v w.
Proof.
  revert w. induction k as [|k IH]; intros w; cbn.
  - rewrite elem_of_singleton. by intros ->.
  - rewrite elem_of_expand. intros [Hw|(u & Hu & Hadj)]; [by apply IH|].
    eapply rtc_r; [by apply IH|done].
Qed.

Lemma iter_expand_source v k : v ∈ Nat.iter k (expand G) {[v]}.
Proof.
  induction k as [|k IH]; cbn; [by apply elem_of_singleton|].
  by apply expand_subseteq.
Qed.

(** A set that [expand] leaves alone holds everything connected to its
    members. *)
Lemma expand_fixed_closed S u w :
  expand G S = S → u ∈ S → connected G u w → w ∈ S.
Proof.
  intros Hfix Hu Hc. induction Hc as [|u v w Huv _ IH]; [done|].
  apply IH. rewrite <-Hfix. apply elem_of_expand. right. eauto.
Qed.

Lemma iter_expand_nodes v k :
  wf_graph G → v ∈ g_nodes G →
  Nat.iter k (expand G) {[v]} ⊆ list_to_set (g_nodes G).
Proof.
  intros [_ Hedges] Hv. rewrite Forall_forall in Hedges.
  induction k as [|k IH]; cbn.
  - intros w. rewrite elem_of_singleton, elem_of_list_to_set. by intros ->.
  - intros w. rewrite elem_of_expand. intros [Hw|(u & Hu & Hadj)]; [by apply IH|].
    apply elem_of_list_to_set. unfold adjacent in Hadj.
    apply elem_of_neighbors in Hadj as [He|He]; apply Hedges in He; tauto.
Qed.

(** Each round either changes nothing or adds a node. *)
Lemma iter_expand_progress v k :
  let S := Nat.iter k (expand G) {[v]} in
  expand G S = S ∨ k + 1 ≤ size S.
Proof.
  induction k as [|k IH]; intros S.
  - right. subst S. cbn. by rewrite size_singleton.
  - subst S. change (Nat.iter (Datatypes.S k) (expand G) {[v]})
      with (expand G (Nat.iter k (expand G) {[v]})).
    cbn zeta in IH. set (S := Nat.iter k (expand G) {[v]}) in *.
    destruct IH as [Hfix|Hsz]; [left; by rewrite !Hfix|].
    destruct (decide (expand G S = S)) as [Hfix|Hne]; [left; by rewrite !Hfix|].
    right. assert (S ⊂ expand G S) as Hlt.
    { split; [apply expand_subseteq|]. intros Hsub. apply Hne.
      apply set_eq. intros x. split; [apply Hsub|apply expand_subseteq]. }
    apply subset_size in Hlt. lia.
Qed.

Lemma iter_expand_fixed k S :
  expand G S = S → Nat.iter k (expand G) S = S.
Proof.
  intros Hfix. induction k as [|k IH]; [done|].
  by rewrite Nat.iter_succ, IH.
Qed.

(** Stopping at the first layer that adds nothing changes no result. *)
Lemma bfs_layers_iter fuel S :
  bfs_layers G fuel S = Nat.iter fuel (expand G) S.
Proof.
  revert S. induction fuel as [|fuel IH]; intros S; [done|].
  cbn [bfs_layers]. case_decide as Hfix.
  - symmetry. by apply iter_expand_fixed.
  - rewrite IH. by rewrite Nat.iter_succ_r.
Qed.

Lemma plain_bfs_fixed v :
  wf_graph G → v ∈ g_nodes G → expand G (plain_bfs G v) = plain_bfs G v.
Proof.
  intros Hwf Hv. unfold plain_bfs. rewrite bfs_layers_iter.
  destruct (iter_expand_progress v (number_of_nodes G)) as [Hfix|Hsz]; [done|].
  exfalso. pose proof (iter_expand_nodes v (number_of_nodes G) Hwf Hv) as Hsub.
  apply subseteq_size in Hsub.
  assert (size (list_to_set (g_nodes G) : gset node) = number_of_nodes G).
  { apply size_list_to_set, Hwf. }
  lia.
Qed.

(** [plain_bfs] returns the nodes connected to its source. *)
Lemma elem_of_plain_bfs v w :
  wf_graph G → v ∈ g_nodes G → w ∈ plain_bfs G v ↔ connected G v w.
Proof.
  intros Hwf Hv. split.
  - unfold plain_bfs. rewrite bfs_layers_iter. apply iter_expand_sound.
  - intros Hc. eapply expand_fixed_closed; [by apply plain_bfs_fixed| |done].
    unfold plain_bfs. rewrite bfs_layers_iter. apply iter_expand_source.
Qed.

Lemma plain_bfs_is_component v :
  wf_graph G → v ∈ g_nodes G → is_component G (plain_bfs G v).
Proof.
  intros Hwf Hv. split_and!.
  - intros He. pose proof (iter_expand_source v (number_of_nodes G)) as Hin.
    unfold plain_bfs in He. rewrite bfs_layers_iter in He.
    rewrite He in Hin. set_solver.
  - intros u Hu. unfold plain_bfs in Hu. rewrite bfs_layers_iter in Hu.
    apply (iter_expand_nodes v _ Hwf Hv) in Hu.
    by apply elem_of_list_to_set in Hu.
  - intros u Hu w. apply elem_of_plain_bfs in Hu; [|done..].
    rewrite elem_of_plain_bfs by done. split; intros Hc.
    + etrans; [by apply connected_sym|done].
    + etrans; done.
Qed.

Lemma components_from_bfs todo seen c :
  c ∈ components_from G todo seen → ∃ v, v ∈ todo ∧ c = plain_bfs G v.
Proof.
  revert seen. induction todo as [|v todo IH]; intros seen; cbn; [by intros ?%elem_of_nil|].
  case_decide.
  - intros (u & ? & ?)%IH. exists u. split; [by right|done].
  - intros [->|(u & ? & ?)%IH]%elem_of_cons; [exists v|exists u]; split; try done; by constructor.
Qed.

(** Every set [connected_components] yields is a connected component. *)
Lemma connected_components_sound c :
  wf_graph G → c ∈ connected_components G → is_component G c.
Proof.
  intros Hwf (v & Hv & ->)%components_from_bfs. by apply plain_bfs_is_component.
Qed.

Lemma connected_components_nonempty :
  g_nodes G ≠ [] → connected_components G ≠ [].
Proof.
  unfold connected_components. destruct (g_nodes G) as [|v l]; [done|].
  intros _. cbn. by rewrite decide_False by set_solver.
Qed.

(** The view [G.subgraph(c)] has as many nodes as [c] has members. *)
Lemma number_of_nodes_subgraph c :
  NoDup (g_nodes G) → (∀ u, u ∈ c → u ∈ g_nodes G) →
  number_of_nodes (subgraph G c) = size c.
Proof.
  intros Hnd Hsub. unfold number_of_nodes, subgraph. cbn.
  unfold size, set_size. cbn. apply Permutation_length, NoDup_Permutation.
  - by apply NoDup_filter.
  - apply NoDup_elements.
  - intros x. rewrite list_elem_of_filter, elem_of_elements.
    split; [tauto|]. intros Hx. split; [done|by apply Hsub].
Qed.

Lemma subgraph_wf c : wf_graph G → wf_graph (subgraph G c).
Proof.
  intros [Hnd Hedges]. rewrite Forall_forall in Hedges. split; cbn.
  - by apply NoDup_filter.
  - apply Forall_forall. intros e. rewrite !list_elem_of_filter.
    intros [[??] [??]%Hedges]. done.
Qed.
End graph_facts.

(** ** Sorting facts *)

Section sorting_facts.
Context {A : Type} (key : A → nat).

Lemma insert_desc_head (x : A) (l : list A) :
  insert_desc key x l !! 0 =
    match l !! 0 with
    | Some y => if decide (key x < key y) then Some y else Some x
    | None => Some x
    end.
Proof. destruct l as [|y ys]; [done|]. cbn. by case_decide. Qed.

(** The head of the sorted list is the first element of the input with
    the largest key: what comes before it in the input has a strictly
    smaller key, what comes after has none larger. *)
Lemma sorted_reverse_head (l : list A) :
  l ≠ [] →
  ∃ pre x post,
    l = pre ++ x :: post ∧
    sorted_reverse key l !! 0 = Some x ∧
    (∀ y, y ∈ pre → key y < key x) ∧
    (∀ y, y ∈ post → key y ≤ key x).
Proof.
  induction l as [|a l IH]; [done|]. intros _.
  change (sorted_reverse key (a :: l))
    with (insert_desc key a (sorted_reverse key l)).
  rewrite insert_desc_head. destruct l as [|b l'].
  - exists [], a, []. cbn. split_and!; [done|done|..]; by intros ? ?%elem_of_nil.
  - destruct IH as (pre & x & post & Hl & Hhead & Hpre & Hpost); [done|].
    rewrite Hhead. case_decide as Hlt.
    + exists (a :: pre), x, post. rewrite Hl. split_and!; [done|done| |done].
      intros y [->|Hy]%elem_of_cons; [done|by apply Hpre].
    + exists [], a, (b :: l'). split_and!; [done|done|by intros ? ?%elem_of_nil|].
      intros y Hy. rewrite Hl in Hy.
      apply elem_of_app in Hy as [Hy|[->|Hy]%elem_of_cons].
      * apply Hpre in Hy. lia.
      * lia.
      * apply Hpost in Hy. lia.
Qed.

Lemma insert_desc_perm (x : A) (l : list A) : insert_desc key x l ≡ₚ x :: l.
Proof.
  induction l as [|y ys IH]; [done|]. cbn. case_decide; [|done].
  rewrite IH. apply Permutation_swap.
Qed.

Lemma sorted_reverse_perm (l : list A) : sorted_reverse key l ≡ₚ l.
Proof.
  induction l as [|a l IH]; [done|].
  change (sorted_reverse key (a :: l))
    with (insert_desc key a (sorted_reverse key l)).
  by rewrite insert_desc_perm, IH.
Qed.
End sorting_facts.

(** ** Relabelling facts *)

Section relabel_facts.
Context (G : Graph) (Hnd : NoDup (g_nodes G)).

Lemma zip_nodes_lookup i n :
  g_nodes G !! i = Some n →
  zip (g_nodes G) (seq 0 (number_of_nodes G)) !! i = Some (n, i).
Proof.
  intros Hi. apply lookup_zip_with_Some. exists n, i. split_and!; [done..|].
  apply lookup_seq. split; [done|]. by apply lookup_lt_Some in Hi.
Qed.

(** The mapping sends the node at position [i] to [i], and nothing else
    to [i]. *)
Lemma integer_mapping_lookup i n :
  g_nodes G !! i = Some n ↔ integer_mapping G !! n = Some i.
Proof.
  unfold integer_mapping.
  assert ((zip (g_nodes G) (seq 0 (number_of_nodes G))).*1 = g_nodes G) as Hfst.
  { apply fst_zip. unfold number_of_nodes. by rewrite length_seq. }
  split.
  - intros Hi. apply elem_of_list_to_map_1; [by rewrite Hfst|].
    apply list_elem_of_lookup. exists i. by apply zip_nodes_lookup.
  - intros Hm. apply elem_of_list_to_map_2 in Hm.
    apply list_elem_of_lookup in Hm as [j Hj].
    apply lookup_zip_with_Some in Hj as (n' & i' & [= <- <-] & Hn & Hs).
    apply lookup_seq in Hs as [-> _]. done.
Qed.

Lemma convert_nodes :
  g_nodes (convert_node_labels_to_integers G) = seq 0 (number_of_nodes G).
Proof.
  apply list_eq. intros i. cbn. rewrite list_lookup_fmap.
  destruct (g_nodes G !! i) as [n|] eqn:Hi; cbn.
  - pose proof (lookup_lt_Some _ _ _ Hi).
    apply integer_mapping_lookup in Hi. rewrite Hi. cbn.
    symmetry. by apply lookup_seq.
  - symmetry. apply lookup_ge_None. rewrite length_seq.
    by apply lookup_ge_None in Hi.
Qed.

(** The edges of the result are the edges of the input, each end replaced
    by its position. *)
Lemma convert_edges a b :
  Forall (λ e : node * node, e.1 ∈ g_nodes G ∧ e.2 ∈ g_nodes G) (g_edges G) →
  (a, b) ∈ g_edges (convert_node_labels_to_integers G) ↔
  ∃ u v, (u, v) ∈ g_edges G ∧
         g_nodes G !! a = Some u ∧ g_nodes G !! b = Some v.
Proof.
  intros Hedges. rewrite Forall_forall in Hedges.
  cbn. rewrite list_elem_of_fmap. split.
  - intros ([u v] & [= -> ->] & He). exists u, v. split; [done|]. cbn.
    destruct (Hedges _ He) as [Hu Hv]. cbn in Hu, Hv.
    apply list_elem_of_lookup in Hu as [i Hi], Hv as [j Hj].
    rewrite (proj1 (integer_mapping_lookup _ _) Hi).
    rewrite (proj1 (integer_mapping_lookup _ _) Hj). done.
  - intros (u & v & He & Ha & Hb). exists (u, v). split; [|done]. cbn.
    apply integer_mapping_lookup in Ha, Hb. by rewrite Ha, Hb.
Qed.
End relabel_facts.

(** C4: on a well-formed graph with at least one node, [download_cora]
    returns the connected component of largest node count, the first such
    in the order [connected_components] yields them, relabelled one-to-one
    onto [0 .. N-1]; when the components have 150 and 10 nodes, the result
    has the nodes [0 .. 149]. *)
Theorem largest_component_correct (G : Graph) :
  wf_graph G → g_nodes G ≠ [] →
  ∃ pre c post H,
    connected_components G = pre ++ c :: post ∧
    is_component G c ∧
    (∀ c', c' ∈ pre → size c' < size c) ∧
    (∀ c', c' ∈ post → size c' ≤ size c) ∧
    largest_component G = Some H ∧
    H = convert_node_labels_to_integers (subgraph G c) ∧
    g_nodes H = seq 0 (size c) ∧
    (∀ i n, g_nodes (subgraph G c) !! i = Some n ↔
            integer_mapping (subgraph G c) !! n = Some i) ∧
    (∀ a b, (a, b) ∈ g_edges H ↔
            ∃ u v, (u, v) ∈ g_edges (subgraph G c) ∧
                   g_nodes (subgraph G c) !! a = Some u ∧
                   g_nodes (subgraph G c) !! b = Some v) ∧
    (size <$> connected_components G ≡ₚ [150; 10] → g_nodes H = seq 0 150).
Proof.
  intros Hwf Hne.
  assert (∀ c, c ∈ connected_components G →
               number_of_nodes (subgraph G c) = size c) as Hkey.
  { intros c Hc. apply connected_components_sound in Hc as (_ & Hsub & _); [|done].
    apply number_of_nodes_subgraph; [apply Hwf|done]. }
  destruct (sorted_reverse_head number_of_nodes
              (subgraph G <$> connected_components G))
    as (pre' & x & post' & Hsplit & Hhead & Hpre & Hpost).
  { intros Hnil%fmap_nil_inv. by apply connected_components_nonempty in Hnil. }
  apply fmap_app_inv in Hsplit as (pre & rest & -> & Hrest & Hcc).
  symmetry in Hrest. apply fmap_cons_inv in Hrest as (c & post & -> & -> & ->).
  assert (c ∈ connected_components G) as Hc.
  { rewrite Hcc. apply elem_of_app. right. by left. }
  assert (∀ c', c' ∈ pre → size c' < size c) as Hpre_lt.
  { intros c' Hc'. rewrite <-!Hkey; [|done|rewrite Hcc; apply elem_of_app; by left].
    apply Hpre. by apply list_elem_of_fmap_2. }
  assert (∀ c', c' ∈ post → size c' ≤ size c) as Hpost_le.
  { intros c' Hc'. rewrite <-!Hkey;
      [|done|rewrite Hcc; apply elem_of_app; right; by right].
    apply Hpost. by apply list_elem_of_fmap_2. }
  pose proof (subgraph_wf G c Hwf) as [Hnd Hedges].
  exists pre, c, post, (convert_node_labels_to_integers (subgraph G c)).
  assert (g_nodes (convert_node_labels_to_integers (subgraph G c)) = seq 0 (size c))
    as Hnodes by (by rewrite convert_nodes, Hkey).
  split_and!; try done.
  - by apply connected_components_sound.
  - unfold largest_component. cbn zeta. by rewrite Hhead.
  - intros i n. by apply integer_mapping_lookup.
  - intros a b. by apply convert_edges.
  - intros Hperm. rewrite Hnodes. f_equal.
    assert (size c = 150 ∨ size c = 10) as Hin.
    { assert (size c ∈ [150; 10]) as Hin
        by (rewrite <-Hperm; by apply list_elem_of_fmap_2).
      apply elem_of_cons in Hin as [?|Hin]; [by left|right].
      by apply list_elem_of_singleton in Hin. }
    assert (150 ∈ size <$> connected_components G) as Hbig.
    { rewrite Hperm. by left. }
    apply list_elem_of_fmap in Hbig as (c' & Hsz & Hc').
    rewrite Hcc in Hc'. apply elem_of_app in Hc' as [Hc'|[->|Hc']%elem_of_cons].
    + apply Hpre_lt in Hc'. lia.
    + done.
    + apply Hpost_le in Hc'. lia.
Qed.

Lemma largest_component_correct_witness :
  size <$> connected_components two_component_graph = [10; 150] ∧
  g_nodes <$> largest_component two_component_graph = Some (seq 0 150).
Proof.
  assert (size <$> connected_components two_component_graph = [10; 150]) as Hsizes.
  { vm_cast_no_check (eq_refl [10; 150]). }
  split; [exact Hsizes|].
  destruct (largest_component_correct two_component_graph)
    as (pre & c & post & H & _ & _ & _ & _ & Hlc & _ & _ & _ & _ & Hscenario).
  - apply (bool_decide_unpack (wf_graph two_component_graph)).
    vm_compute. exact I.
  - vm_compute. discriminate.
  - rewrite Hlc. cbn. f_equal. apply Hscenario.
    rewrite Hsizes. apply Permutation_swap.
Defined.

(** ** The sampler pool and the generation loop *)

Section pool_facts.
Context `{SamplerLib}.
Import Utils.

Lemma append_budgets_list a budgets l w :
  (append_budgets a budgets l w).1 = l ++ (mkSampler a <$> budgets).
Proof.
  revert l w. induction budgets as [|i budgets IH]; intros l w; cbn.
  - by rewrite app_nil_r.
  - rewrite IH. by rewrite <-app_assoc.
Qed.

Lemma append_samplers_list samplers budgets l w :
  (append_samplers samplers budgets l w).1 = l ++ cross_product samplers budgets.
Proof.
  revert l w. induction samplers as [|a samplers IH]; intros l w; cbn.
  - by rewrite app_nil_r.
  - pose proof (append_budgets_list a budgets l w) as Hb.
    destruct (append_budgets a budgets l w) as [l' w']. cbn in Hb. subst l'.
    rewrite IH. by rewrite <-app_assoc.
Qed.

(** The pool is the cross product, whatever the constructors do to the
    generators. *)
Lemma build_pool_list samplers lo hi w :
  (build_pool samplers lo hi w).1 = cross_product samplers (seq lo (hi - lo)).
Proof. unfold build_pool. by rewrite append_samplers_list. Qed.

Lemma elem_of_cross_product samplers budgets s :
  s ∈ cross_product samplers budgets ↔
  algorithm s ∈ samplers ∧ budget s ∈ budgets.
Proof.
  unfold cross_product. rewrite list_elem_of_bind. split.
  - intros (a & (b & -> & Hb)%list_elem_of_fmap & Ha). done.
  - intros [Ha Hb]. exists (algorithm s). split; [|done].
    apply list_elem_of_fmap. exists (budget s). by destruct s.
Qed.

Lemma length_cross_product samplers budgets :
  length (cross_product samplers budgets) = length samplers * length budgets.
Proof.
  induction samplers as [|a samplers IH]; [done|].
  cbn. rewrite length_app, length_fmap. unfold cross_product in IH.
  by rewrite IH.
Qed.

Lemma slots_of_one_algorithm a a' budgets :
  length (filter (λ s, algorithm s = a) (mkSampler a' <$> budgets))
  = if decide (a' = a) then length budgets else 0.
Proof.
  induction budgets as [|b budgets IH]; [by case_decide|].
  rewrite fmap_cons, filter_cons. cbn [algorithm].
  destruct (decide (a' = a)); cbn [length]; by rewrite IH.
Qed.

(** The slots of one algorithm: one per budget, for each time the
    algorithm is listed. *)
Lemma cross_product_algorithm_slots samplers budgets a :
  length (filter (λ s, algorithm s = a) (cross_product samplers budgets))
  = length (filter (λ a', a' = a) samplers) * length budgets.
Proof.
  induction samplers as [|a' samplers IH]; [done|].
  change (cross_product (a' :: samplers) budgets)
    with ((mkSampler a' <$> budgets) ++ cross_product samplers budgets).
  rewrite filter_app, length_app, IH, slots_of_one_algorithm, filter_cons.
  case_decide; cbn; lia.
Qed.

Lemma cross_product_NoDup samplers budgets :
  NoDup samplers → NoDup budgets → NoDup (cross_product samplers budgets).
Proof.
  intros Hs Hb. induction Hs as [|a samplers Hnotin Hs IH]; [constructor|].
  change (cross_product (a :: samplers) budgets)
    with ((mkSampler a <$> budgets) ++ cross_product samplers budgets).
  apply NoDup_app. split_and!; [|  |done].
  - apply NoDup_fmap_2; [|done]. by intros ?? [=].
  - intros s (b & -> & _)%list_elem_of_fmap [Ha _]%elem_of_cross_product. done.
Qed.
End pool_facts.

Section loop_facts.
Context `{SamplerLib}.
Import Utils.

(** On a non-empty pool a draw succeeds: the index is in range and the
    sampler is the pool entry at that index. *)
Lemma draw_sampler_spec sampler_list w :
  sampler_list ≠ [] →
  ∃ idx s w',
    randint (length sampler_list) w = Some (idx, w') ∧
    idx = (np_random_randint (length sampler_list) (np_random w)).1 ∧
    idx < length sampler_list ∧
    sampler_list !! idx = Some s ∧
    draw_sampler sampler_list w = Some (s, w').
Proof.
  intros Hne. assert (0 < length sampler_list) as Hlen.
  { destruct sampler_list; [done|cbn; lia]. }
  pose proof (np_random_randint_lt (length sampler_list) (np_random w) Hlen) as Hlt.
  unfold draw_sampler, randint. rewrite decide_False by lia.
  destruct (np_random_randint (length sampler_list) (np_random w)) as [idx g].
  cbn in Hlt. destruct (lookup_lt_is_Some_2 sampler_list idx Hlt) as [s Hs].
  exists idx, s. eexists. split_and!; [done|done|done|done|].
  cbn. by rewrite Hs.
Qed.

(** The loop appends exactly [n_graphs] graphs, each the relabelled
    output of a pool sampler. *)
Lemma generate_spec sampler_list graph n graphs w :
  sampler_list ≠ [] →
  ∃ gs w',
    generate sampler_list graph n graphs w = Some (graphs ++ gs, w') ∧
    length gs = n ∧
    Forall (λ g, ∃ s w1, s ∈ sampler_list ∧
              g = convert_node_labels_to_integers (sample s graph w1).1) gs.
Proof.
  intros Hne. revert graphs w. induction n as [|n IH]; intros graphs w; cbn.
  - exists [], w. by rewrite app_nil_r.
  - destruct (draw_sampler_spec sampler_list w Hne)
      as (idx & s & w1 & _ & _ & _ & Hs & ->). cbn.
    destruct (sample s graph w1) as [g w2] eqn:Hsample.
    destruct (IH (graphs ++ [convert_node_labels_to_integers g]) w2)
      as (gs & w' & -> & Hlen & Hall).
    exists (convert_node_labels_to_integers g :: gs), w'.
    split_and!; [by rewrite <-app_assoc|cbn; lia|].
    constructor; [|done]. exists s, w1. split; [by eapply list_elem_of_lookup_2|].
    by rewrite Hsample.
Qed.

Lemma sample_n_spec sampler graph n w :
  length (Cora.sample_n sampler graph n w).1 = n ∧
  Forall (λ g, ∃ w1, g = convert_node_labels_to_integers (sample sampler graph w1).1)
         (Cora.sample_n sampler graph n w).1.
Proof.
  revert w. induction n as [|n IH]; intros w; cbn; [done|].
  destruct (sample sampler graph w) as [g w1] eqn:Hsample.
  destruct (IH w1) as [Hlen Hall].
  destruct (Cora.sample_n sampler graph n w1) as [rest w2]. cbn in *.
  split; [lia|]. constructor; [|done]. exists w. by rewrite Hsample.
Qed.


(** A relabelled sample of a budget-respecting sampler. *)
Lemma convert_contiguous sampler_list graph s w bound :
  respects_budget sampler_list graph → s ∈ sampler_list → budget s ≤ bound →
  contiguous_sample bound (convert_node_labels_to_integers (sample s graph w).1).
Proof.
  intros Hresp Hs Hb. destruct (Hresp s w Hs) as [Hnd Hk].
  exists (number_of_nodes (sample s graph w).1).
  split; [by apply convert_nodes|lia].
Qed.

(** The loop over any pool: contiguous samples, none larger than the
    largest budget of the pool. *)
Lemma generate_contiguous sampler_list graph n w :
  sampler_list ≠ [] → respects_budget sampler_list graph →
  ∃ gs w',
    generate sampler_list graph n [] w = Some (gs, w') ∧
    length gs = n ∧
    Forall (contiguous_sample (max_list (budget <$> sampler_list))) gs.
Proof.
  intros Hne Hresp.
  destruct (generate_spec sampler_list graph n [] w Hne) as (gs & w' & Hg & Hlen & Hall).
  exists gs, w'. split_and!; [done..|].
  eapply Forall_impl; [exact Hall|]. cbn.
  intros g (s & w1 & Hs & ->). eapply convert_contiguous; [done..|].
  apply max_list_elem_of_le. by apply list_elem_of_fmap_2.
Qed.
End loop_facts.

Section sampling_properties.
Context `{SamplerLib}.
Import Utils.



(** C7: the pool is the cross product of the algorithm list and the
    budgets [lo .. hi-1], built once before the loop; each round takes
    the entry at an index drawn from [0 .. len-1], so every entry has one
    slot out of [len] and an algorithm has one slot per budget. *)
Theorem pool_is_cross_product_with_index_draw
    (samplers : list Algorithm) (lo hi : nat) (graph : Graph)
    (n size : nat) (w : World) :
  let pool := (build_pool samplers lo hi w).1 in
  pool = cross_product samplers (seq lo (hi - lo)) ∧
  (∀ s, s ∈ pool ↔ algorithm s ∈ samplers ∧ lo ≤ budget s < hi) ∧
  length pool = length samplers * (hi - lo) ∧
  (NoDup samplers → NoDup pool) ∧
  (∀ a, length (filter (λ s, algorithm s = a) pool)
        = length (filter (λ a', a' = a) samplers) * (hi - lo)) ∧
  (∀ w1, pool ≠ [] →
     ∃ idx s w2,
       randint (length pool) w1 = Some (idx, w2) ∧
       idx < length pool ∧ pool !! idx = Some s ∧
       draw_sampler pool w1 = Some (s, w2)) ∧
  ESWR graph n size w
    = generate (cross_product possible_samplers (seq 24 72)) graph n []
               (build_pool possible_samplers 24 96 w).2 ∧
  length (cross_product possible_samplers (seq 24 72)) = 216 ∧
  (∀ a, a ∈ possible_samplers →
        length (filter (λ s, algorithm s = a)
                       (cross_product possible_samplers (seq 24 72))) = 72).
Proof.
  intros pool. subst pool. rewrite build_pool_list. split_and!.
  - done.
  - intros s. rewrite elem_of_cross_product, elem_of_seq.
    split; intros [? ?]; split; [done|lia|done|lia].
  - by rewrite length_cross_product, length_seq.
  - intros Hnd. apply cross_product_NoDup; [done|apply NoDup_seq].
  - intros a. by rewrite cross_product_algorithm_slots, length_seq.
  - intros w1 Hne.
    destruct (draw_sampler_spec _ w1 Hne) as (idx & s & w2 & ? & ? & ? & ? & ?).
    by exists idx, s, w2.
  - unfold ESWR. pose proof (build_pool_list possible_samplers 24 96 w) as Hp.
    destruct (build_pool possible_samplers 24 96 w) as [pool w0].
    change (pool = cross_product possible_samplers (seq 24 72)) in Hp.
    by subst pool.
  - done.
  - intros a Ha. rewrite cross_product_algorithm_slots, length_seq.
    repeat (apply elem_of_cons in Ha as [->|Ha]; [by vm_compute|]).
    by apply elem_of_nil in Ha.
Qed.

(** C8: when the sampler library keeps to its budgets on [graph], every
    sample the generation loop returns has the node identifiers
    [0 .. k-1] with [1 ≤ k], and [k] is at most the largest budget in the
    pool in use: 95 for the pool of utils.py, [size] for the single
    sampler of cora_dataset.py. *)
Theorem ESWR_samples_contiguous (sampler_list : list Sampler)
    (graph : Graph) (n size : nat) (w : World) :
  sampler_list ≠ [] →
  respects_budget sampler_list graph →
  respects_budget (cross_product possible_samplers (seq 24 72)) graph →
  respects_budget [mkSampler MetropolisHastingsRandomWalkSampler size] graph →
  (∃ gs w', generate sampler_list graph n [] w = Some (gs, w') ∧
            Forall (contiguous_sample (max_list (budget <$> sampler_list))) gs) ∧
  max_list (budget <$> cross_product possible_samplers (seq 24 72)) = 95 ∧
  (∃ gs w', ESWR graph n size w = Some (gs, w') ∧
            Forall (contiguous_sample 95) gs) ∧
  Forall (contiguous_sample size) (Cora.ESWR graph n size w).1.
Proof.
  intros Hne0 Hany Hpool Hone.
  assert (max_list (budget <$> cross_product possible_samplers (seq 24 72)) = 95)
    as Hmax by (by vm_compute).
  split_and!; [|done| |].
  - destruct (generate_contiguous sampler_list graph n w Hne0 Hany)
      as (gs & w' & Hg & _ & Hall).
    by exists gs, w'.
  - unfold ESWR. pose proof (build_pool_list possible_samplers 24 96 w) as Hp.
    destruct (build_pool possible_samplers 24 96 w) as [pool w0].
    change (pool = cross_product possible_samplers (seq 24 72)) in Hp.
    subst pool.
    assert (cross_product possible_samplers (seq 24 72) ≠ []) as Hne by done.
    destruct (generate_contiguous _ graph n w0 Hne Hpool)
      as (gs & w' & Hg & _ & Hall).
    exists gs, w'. split; [done|]. by rewrite Hmax in Hall.
  - unfold Cora.ESWR. cbn.
    destruct (sample_n_spec (mkSampler MetropolisHastingsRandomWalkSampler size)
                graph n (sampler_init MetropolisHastingsRandomWalkSampler size w))
      as [_ Hall].
    eapply Forall_impl; [exact Hall|]. cbn. intros g [w1 ->].
    eapply convert_contiguous; [exact Hone|by left|done].
Qed.

(** C10: the [size] argument of the pool-based [ESWR] has no effect, and
    the budgets in the pool are the integers from 24 to 95. *)
Theorem ESWR_ignores_size (graph : Graph) (n s1 s2 : nat) (w : World) :
  ESWR graph n s1 w = ESWR graph n s2 w ∧
  budget <$> (build_pool possible_samplers 24 96 w).1
    = seq 24 72 ++ seq 24 72 ++ seq 24 72.
Proof. split; [reflexivity|]. rewrite build_pool_list. by vm_compute. Qed.
End sampling_properties.

Section closed_sampling_lemmas.
Import Demo.
#[local] Existing Instances random_lib sampler_lib.

Lemma rotate_NoDup {A} (n : nat) (l : list A) : NoDup l → NoDup (rotate n l).
Proof.
  intros Hnd. unfold rotate.
  rewrite Permutation_app_comm, take_drop. done.
Qed.

Lemma walk_respects_budget (sampler_list : list Sampler) (G : Graph) :
  NoDup (g_nodes G) → g_nodes G ≠ [] →
  Forall (λ s, 1 ≤ budget s) sampler_list →
  @respects_budget random_lib sampler_lib sampler_list G.
Proof.
  intros Hnd Hne Hpos s w Hs. rewrite Forall_forall in Hpos.
  specialize (Hpos s Hs).
  change (@sample random_lib sampler_lib s G w).1
    with (subgraph G (list_to_set (visited s G w))).
  assert (NoDup (visited s G w)) as Hv.
  { eapply sublist_NoDup; [|apply sublist_take]. by apply rotate_NoDup. }
  split; [by apply NoDup_filter|].
  rewrite number_of_nodes_subgraph; [|done|].
  - rewrite size_list_to_set by done. unfold visited.
    rewrite length_take, length_rotate.
    destruct (g_nodes G); [done|cbn; lia].
  - intros u. rewrite elem_of_list_to_set. unfold visited.
    intros Hu%subseteq_take. by apply elem_of_rotate in Hu.
Qed.

Lemma pool_budgets_positive :
  Forall (λ s, 1 ≤ budget s) (cross_product Utils.possible_samplers (seq 24 72)).
Proof.
  apply Forall_forall. intros s [_ Hb]%elem_of_cross_product.
  apply elem_of_seq in Hb. lia.
Qed.

Lemma ESWR_samples_contiguous_witness :
  (∃ gs w', Utils.generate [mkSampler DiffusionSampler 5] ring 3 [] world0
              = Some (gs, w') ∧
            Forall (contiguous_sample
                      (max_list (budget <$> [mkSampler DiffusionSampler 5]))) gs) ∧
  max_list (budget <$> cross_product Utils.possible_samplers (seq 24 72)) = 95 ∧
  (∃ gs w', Utils.ESWR ring 3 48 world0 = Some (gs, w') ∧
            Forall (contiguous_sample 95) gs) ∧
  Forall (contiguous_sample 48) (Cora.ESWR ring 3 48 world0).1.
Proof.
  apply (ESWR_samples_contiguous [mkSampler DiffusionSampler 5] ring 3 48 world0).
  - discriminate.
  - apply walk_respects_budget.
    + apply NoDup_seq.
    + discriminate.
    + constructor; [cbn; lia|constructor].
  - apply walk_respects_budget.
    + apply NoDup_seq.
    + discriminate.
    + apply pool_budgets_positive.
  - apply walk_respects_budget.
    + apply NoDup_seq.
    + discriminate.
    + constructor; [cbn; lia|constructor].
Defined.

(** The model run on the ring: three samples from the pool, three from
    the single sampler. *)
Example ESWR_on_ring :
  fmap (M:=list) number_of_nodes <$> (fst <$> Utils.ESWR ring 3 48 world0)
    = Some [66; 68; 70] ∧
  number_of_nodes <$> (Cora.ESWR ring 3 48 world0).1 = [48; 48; 48].
Proof. split; vm_compute; reflexivity. Qed.
End closed_sampling_lemmas.

(** ** The file system and the cache *)

Section fs_facts.
Context `{Pickle}.

Lemma torch_save_insert obj path (fs : FS) :
  torch_save obj path fs = <[path := dumps obj]> fs.
Proof.
  unfold torch_save, write_bytes, open_wb.
  by rewrite alter_insert_eq.
Qed.

Lemma torch_save_interrupted_insert k obj path (fs : FS) :
  torch_save_interrupted k obj path fs = <[path := take k (dumps obj)]> fs.
Proof.
  unfold torch_save_interrupted, write_bytes, open_wb.
  by rewrite alter_insert_eq.
Qed.

(** What was saved is what loads. *)
Lemma torch_load_save obj path (fs : FS) :
  torch_load path (torch_save obj path fs) = Some obj.
Proof.
  unfold torch_load. rewrite torch_save_insert, lookup_insert_eq. cbn.
  apply loads_dumps.
Qed.

Lemma take_proper_prefix {A} (k : nat) (l : list A) :
  k < length l → take k l ≠ l.
Proof.
  intros Hk Heq. apply (f_equal length) in Heq.
  rewrite length_take in Heq. lia.
Qed.

(** Temporary file plus rename, as the specification words it, is atomic
    at the target wherever it stops. *)
Lemma spec_atomic_save_atomic c obj tmp path (fs : FS) :
  tmp ≠ path → atomic_at obj path fs (spec_atomic_save c obj tmp path fs).
Proof.
  intros Hne. unfold atomic_at. destruct c as [k| |]; cbn.
  - left. by rewrite torch_save_interrupted_insert, lookup_insert_ne.
  - left. by rewrite torch_save_insert, lookup_insert_ne.
  - right. unfold rename. rewrite torch_save_insert, lookup_insert_eq.
    by rewrite lookup_insert_eq.
Qed.
End fs_facts.

Section cache_facts.
Context `{SamplerLib} `{Pickle}.
Import CoraDataset.

Lemma processed_paths_eq a :
  processed_paths a =
    [root a +:+ "/processed/train.pt";
     root a +:+ "/processed/val.pt";
     root a +:+ "/processed/test.pt"].
Proof. reflexivity. Qed.

Lemma stage_path_elem a path :
  stage_path a = Some path → path ∈ processed_paths a.
Proof. unfold stage_path. apply list_elem_of_lookup_2. Qed.

Lemma stage_path_is_Some a : is_Some (stage_path a).
Proof.
  unfold stage_path, processed_paths. apply lookup_lt_is_Some.
  rewrite length_fmap. unfold processed_file_names.
  destruct (stage a); cbn; lia.
Qed.

(** Whether [build] succeeds does not depend on the generators. *)
Lemma build_is_Some a w1 w2 : is_Some (build a w1) → is_Some (build a w2).
Proof.
  unfold build, get_cora_dataset.
  destruct (download_cora (raw a) (y a)) as [g|]; cbn; [|done].
  intros _. by destruct (Cora.sample_n _ g (num a) _).
Qed.

(** [process] writes the built split at the stage's path and nowhere
    else, and counts as one run. *)
Lemma process_spec a sys split w' path :
  build a (sys_world sys) = Some (split, w') →
  stage_path a = Some path →
  process a sys = Some {| sys_fs := <[path := dumps split]> (sys_fs sys);
                          sys_world := w';
                          process_calls := S (process_calls sys) |}.
Proof.
  intros Hb Hp. unfold process. rewrite Hb. cbn. rewrite Hp. cbn.
  by rewrite torch_save_insert.
Qed.

Lemma process_interrupted_spec k a sys split w' path :
  build a (sys_world sys) = Some (split, w') →
  stage_path a = Some path →
  process_interrupted k a sys
    = Some {| sys_fs := <[path := take k (dumps split)]> (sys_fs sys);
              sys_world := w';
              process_calls := S (process_calls sys) |}.
Proof.
  intros Hb Hp. unfold process_interrupted. rewrite Hb. cbn. rewrite Hp. cbn.
  by rewrite torch_save_interrupted_insert.
Qed.

(** With all three processed files in place, construction runs no
    [process] and returns what the stage's file holds. *)
Lemma init_cached a sys g path split :
  download_cora (raw a) (y a) = Some g →
  files_exist (processed_paths a) (sys_fs sys) = true →
  stage_path a = Some path →
  torch_load path (sys_fs sys) = Some split →
  init a sys = Some (mkDataset a split, sys).
Proof.
  intros Hd Hex Hp Hl. unfold init, base_process.
  rewrite Hd, Hex. cbn. rewrite Hp. cbn. by rewrite Hl.
Qed.

(** With a processed file missing, construction runs [process], whatever
    the stage's own file holds. *)
Lemma init_rebuilds a sys split w' path :
  files_exist (processed_paths a) (sys_fs sys) = false →
  build a (sys_world sys) = Some (split, w') →
  stage_path a = Some path →
  init a sys = Some (mkDataset a split,
                     {| sys_fs := <[path := dumps split]> (sys_fs sys);
                        sys_world := w';
                        process_calls := S (process_calls sys) |}).
Proof.
  intros Hex Hb Hp. unfold init, base_process. rewrite Hex.
  assert (is_Some (download_cora (raw a) (y a))) as [g Hd].
  { unfold build, get_cora_dataset in Hb.
    destruct (download_cora (raw a) (y a)); [done|by cbn in Hb]. }
  rewrite Hd. cbn. rewrite (process_spec a sys split w' path Hb Hp). cbn.
  rewrite Hp. cbn. unfold torch_load. rewrite lookup_insert_eq. cbn.
  by rewrite loads_dumps.
Qed.

(** The file one construction writes does not complete the set the next
    one looks for. *)
Lemma files_exist_after_one_stage a (fs : FS) path bs :
  stage_path a = Some path →
  (∃ p, p ∈ processed_paths a ∧ p ≠ path ∧ fs !! p = None) →
  files_exist (processed_paths a) (<[path := bs]> fs) = false.
Proof.
  intros Hp (p & Hin & Hne & Hnone). unfold files_exist.
  apply bool_decide_eq_false. intros [_ Hall].
  rewrite Forall_forall in Hall. specialize (Hall p Hin).
  rewrite lookup_insert_ne, Hnone in Hall by done. by destruct Hall.
Qed.
End cache_facts.

Lemma string_app_inv_head (s t1 t2 : string) : s +:+ t1 = s +:+ t2 → t1 = t2.
Proof. induction s as [|c s IH]; cbn; [done|]. intros [= Heq]. by apply IH. Qed.

Section cache_properties.
Context `{SamplerLib} `{Pickle}.
Import CoraDataset.

(** Next to the path of any stage there is another processed path. *)
Lemma other_processed_path a path :
  stage_path a = Some path →
  ∃ p, p ∈ processed_paths a ∧ p ≠ path.
Proof.
  unfold stage_path. rewrite processed_paths_eq.
  destruct (stage a); cbn; intros [= <-].
  - exists (root a +:+ "/processed/val.pt"). split; [set_solver|].
    by intros ?%string_app_inv_head.
  - exists (root a +:+ "/processed/train.pt"). split; [set_solver|].
    by intros ?%string_app_inv_head.
  - exists (root a +:+ "/processed/train.pt"). split; [set_solver|].
    by intros ?%string_app_inv_head.
Qed.

(** C5, as the code has it: on a root without processed files the first
    construction writes the file of its stage; a second construction for
    the same root and stage finds that file, still runs [process], and
    overwrites it. *)
Theorem second_construction_runs_process_again a sys d1 sys1 :
  (∀ p, p ∈ processed_paths a → sys_fs sys !! p = None) →
  init a sys = Some (d1, sys1) →
  ∃ path d2 sys2,
    stage_path a = Some path ∧
    sys_fs sys1 !! path = Some (dumps (data_slices d1)) ∧
    init a sys1 = Some (d2, sys2) ∧
    process_calls sys1 = S (process_calls sys) ∧
    process_calls sys2 = S (process_calls sys1) ∧
    sys_fs sys2 !! path = Some (dumps (data_slices d2)).
Proof.
  intros Hfresh Hinit.
  destruct (stage_path_is_Some a) as [path Hp].
  destruct (other_processed_path a path Hp) as (p & Hin & Hne).
  assert (files_exist (processed_paths a) (sys_fs sys) = false) as Hex.
  { apply bool_decide_eq_false. intros [_ Hall].
    rewrite Forall_forall in Hall. specialize (Hall p Hin).
    rewrite (Hfresh p Hin) in Hall. by destruct Hall. }
  destruct (build a (sys_world sys)) as [[split w']|] eqn:Hb.
  2:{ unfold init, base_process, process in Hinit. rewrite Hex, Hb in Hinit.
      by destruct (download_cora (raw a) (y a)). }
  rewrite (init_rebuilds a sys split w' path Hex Hb Hp) in Hinit.
  injection Hinit as <- <-. cbn.
  set (sys1 := {| sys_fs := <[path:=dumps split]> (sys_fs sys);
                  sys_world := w';
                  process_calls := S (process_calls sys) |}).
  assert (files_exist (processed_paths a) (sys_fs sys1) = false) as Hex1.
  { apply files_exist_after_one_stage; [done|]. exists p. auto. }
  destruct (build_is_Some a (sys_world sys) (sys_world sys1)) as [[split2 w2] Hb2].
  { by rewrite Hb. }
  exists path. eexists _, _. split_and!; [done| |by apply init_rebuilds|done|done|].
  - cbn. by rewrite lookup_insert_eq.
  - cbn. by rewrite lookup_insert_eq.
Qed.

(** C6, as the code has it: [process] writes the serialised split
    straight into the file at the stage's path and touches no other
    path; a completed run leaves the whole serialisation there, a run
    stopped after [k] bytes leaves a file that exists and holds only the
    first [k] bytes. *)
Theorem process_writes_in_place a sys split w' path k :
  build a (sys_world sys) = Some (split, w') →
  stage_path a = Some path →
  k < length (dumps split) →
  (∃ sys1, process a sys = Some sys1 ∧
           sys_fs sys1 = <[path := dumps split]> (sys_fs sys)) ∧
  (∃ sys2, process_interrupted k a sys = Some sys2 ∧
           sys_fs sys2 = <[path := take k (dumps split)]> (sys_fs sys) ∧
           files_exist [path] (sys_fs sys2) = true ∧
           sys_fs sys2 !! path ≠ Some (dumps split)).
Proof.
  intros Hb Hp Hk. split.
  - eexists. split; [by apply process_spec|done].
  - eexists. split; [by apply process_interrupted_spec|]. cbn.
    split_and!; [done| |].
    + apply bool_decide_eq_true. split; [done|].
      constructor; [|constructor]. by rewrite lookup_insert_eq.
    + rewrite lookup_insert_eq. intros [= Heq]. by apply take_proper_prefix in Heq.
Qed.
End cache_properties.


Section closed_cache_lemmas.
Import Demo CoraDataset.
#[local] Existing Instances random_lib sampler_lib pickle.

Lemma second_construction_runs_process_again_witness :
  ∃ d1 sys1 d2 sys2,
    init args0 sys0 = Some (d1, sys1) ∧
    sys_fs sys1 !! ("cora/processed/train.pt" : string)
      = Some (dumps (data_slices d1)) ∧
    init args0 sys1 = Some (d2, sys2) ∧
    process_calls sys1 = 1 ∧ process_calls sys2 = 2.
Proof.
  assert (is_Some (init args0 sys0)) as [[d1 sys1] Hinit]
    by (vm_compute; eexists; reflexivity).
  destruct (second_construction_runs_process_again args0 sys0 d1 sys1)
    as (path & d2 & sys2 & Hp & Hf & Hinit2 & Hc1 & Hc2 & _).
  - intros p Hp. apply lookup_empty.
  - exact Hinit.
  - vm_compute in Hp. injection Hp as <-.
    exists d1, sys1, d2, sys2. rewrite Hc2, Hc1.
    exact (conj Hinit (conj Hf (conj Hinit2 (conj eq_refl eq_refl)))).
Defined.

(** C6 refuted at [args0], [sys0]: a [process] stopped after one byte
    leaves at the conventional path a file that was not there before, is
    not the complete serialisation, exists for [files_exist], and does not
    load. *)
Lemma interrupted_process_is_not_atomic :
  let path : string := "cora/processed/train.pt" in
  fst <$> build args0 (sys_world sys0) = Some split0 ∧
  sys_fs <$> process_interrupted 1 args0 sys0 = Some {[path := [x00]]} ∧
  ¬ atomic_at split0 path (sys_fs sys0) {[path := [x00]]} ∧
  files_exist [path] {[path := [x00]]} = true ∧
  torch_load path {[path := [x00]]} = None.
Proof.
  cbv zeta. split_and!.
  - vm_compute. reflexivity.
  - vm_compute. reflexivity.
  - unfold atomic_at. rewrite lookup_singleton_eq.
    intros [Hold|Hnew]; [by vm_compute in Hold|by vm_compute in Hnew].
  - vm_compute. reflexivity.
  - vm_compute. reflexivity.
Qed.

Lemma process_writes_in_place_witness :
  ∃ split w',
    build args0 (sys_world sys0) = Some (split, w') ∧
    (∃ sys1, process args0 sys0 = Some sys1 ∧
             sys_fs sys1 = <[("cora/processed/train.pt" : string) := dumps split]>
                             (sys_fs sys0)) ∧
    (∃ sys2, process_interrupted 1 args0 sys0 = Some sys2 ∧
             sys_fs sys2 = <[("cora/processed/train.pt" : string)
                               := take 1 (dumps split)]> (sys_fs sys0) ∧
             files_exist ["cora/processed/train.pt"] (sys_fs sys2) = true ∧
             sys_fs sys2 !! ("cora/processed/train.pt" : string)
               ≠ Some (dumps split)).
Proof.
  assert (is_Some (build args0 (sys_world sys0))) as [[split w'] Hb]
    by (vm_compute; eexists; reflexivity).
  exists split, w'. split; [exact Hb|].
  apply (process_writes_in_place args0 sys0 split w'
           "cora/processed/train.pt" 1 Hb eq_refl).
  vm_compute in Hb. injection Hb as <- _. vm_compute. lia.
Defined.
End closed_cache_lemmas.

(** ** Merged handles *)

Module CombinerFacts.
Import Combiner.

Lemma cumsum_from_length s lens : length (cumsum_from s lens) = length lens.
Proof. revert s. induction lens as [|l lens IH]; intros s; cbn; [done|]. by rewrite IH. Qed.

(** Entry [j] of the running totals is the sum of the first [j+1] lengths. *)
Lemma cumsum_from_lookup s lens j :
  j < length lens →
  cumsum_from s lens !! j = Some (s + sum_list (take (S j) lens)).
Proof.
  revert s j. induction lens as [|l lens IH]; intros s j Hj; cbn in *; [lia|].
  destruct j as [|j]; cbn.
  - rewrite take_0. cbn. f_equal. lia.
  - rewrite IH by lia. f_equal. cbn. lia.
Qed.

Lemma cumsum_last lens : default 0 (last (cumsum lens)) = sum_list lens.
Proof.
  unfold cumsum. destruct (decide (lens = [])) as [->|Hne]; [done|].
  rewrite last_lookup, cumsum_from_length.
  rewrite cumsum_from_lookup by (destruct lens; [done|cbn; lia]).
  cbn. replace (S (pred (length lens))) with (length lens)
    by (destruct lens; [done|cbn; lia]).
  by rewrite firstn_all.
Qed.

Lemma len_concat datasets :
  len (ConcatDataset datasets) = sum_list (len <$> datasets).
Proof. cbn [len]. apply cumsum_last. Qed.

Lemma len_iadd a b : len (iadd a b) = len a + len b.
Proof. unfold iadd. rewrite len_concat. cbn. lia. Qed.

Lemma len_merge combined datasets :
  len (merge combined datasets) = len combined + sum_list (len <$> datasets).
Proof.
  unfold merge. revert combined.
  induction datasets as [|d datasets IH]; intros combined; cbn [foldl].
  - cbn. lia.
  - rewrite IH, len_iadd. cbn. lia.
Qed.

Lemma sum_list_snoc (lens : list nat) (l : nat) :
  sum_list (lens ++ [l]) = sum_list lens + l.
Proof. induction lens as [|x lens IH]; cbn; lia. Qed.

Lemma sum_list_take_le (lens : list nat) j k :
  j ≤ k → sum_list (take j lens) ≤ sum_list (take k lens).
Proof.
  revert j k. induction lens as [|l lens IH]; intros j k Hjk.
  - by rewrite !take_nil.
  - destruct j as [|j]; [cbn; lia|]. destruct k as [|k]; [lia|].
    cbn. specialize (IH j k). lia.
Qed.

(** The binary search stops at the first entry above [x]: everything
    before the result is at most [x], everything from it on is above. *)
Lemma bisect_loop_spec (a : list nat) (x : nat) fuel lo hi :
  (∀ i j vi vj, i ≤ j → a !! i = Some vi → a !! j = Some vj → vi ≤ vj) →
  lo ≤ hi → hi ≤ length a → hi - lo < fuel →
  (∀ j v, j < lo → a !! j = Some v → v ≤ x) →
  (∀ j v, hi ≤ j → a !! j = Some v → x < v) →
  let r := bisect_loop fuel a x lo hi in
  lo ≤ r ≤ hi ∧
  (∀ j v, j < r → a !! j = Some v → v ≤ x) ∧
  (∀ j v, r ≤ j → a !! j = Some v → x < v).
Proof.
  intros Hsorted. revert lo hi.
  induction fuel as [|fuel IH]; intros lo hi Hle Hhi Hfuel Hlow Hhigh; [lia|].
  cbn [bisect_loop]. case_decide as Hlt.
  2:{ assert (lo = hi) as -> by lia. split_and!; [lia|lia|done|done]. }
  assert (lo ≤ (lo + hi) `div` 2 < hi) as Hmid.
  { split.
    - apply Nat.div_le_lower_bound; lia.
    - apply Nat.Div0.div_lt_upper_bound; lia. }
  destruct (lookup_lt_is_Some_2 a ((lo + hi) `div` 2)) as [am Ham]; [lia|].
  rewrite Ham. case_decide as Hx.
  - assert (∀ j v, (lo + hi) `div` 2 ≤ j → a !! j = Some v → x < v) as Hhigh'.
    { intros j v Hj Hv. pose proof (Hsorted _ _ _ _ Hj Ham Hv). lia. }
    pose proof (IH lo ((lo + hi) `div` 2) ltac:(lia) ltac:(lia) ltac:(lia)
                  Hlow Hhigh') as (Hr & Hl & Hh).
    split_and!; [lia|lia|done|done].
  - assert (∀ j v, j < (lo + hi) `div` 2 + 1 → a !! j = Some v → v ≤ x) as Hlow'.
    { intros j v Hj Hv.
      assert (j ≤ (lo + hi) `div` 2) as Hj' by lia.
      pose proof (Hsorted _ _ _ _ Hj' Hv Ham). lia. }
    pose proof (IH ((lo + hi) `div` 2 + 1) hi ltac:(lia) ltac:(lia) ltac:(lia)
                  Hlow' Hhigh) as (Hr & Hl & Hh).
    split_and!; [lia|lia|done|done].
Qed.

Lemma cumsum_sorted lens i j vi vj :
  i ≤ j → cumsum lens !! i = Some vi → cumsum lens !! j = Some vj → vi ≤ vj.
Proof.
  intros Hij Hi Hj. unfold cumsum in *.
  pose proof (lookup_lt_Some _ _ _ Hi) as Hli.
  pose proof (lookup_lt_Some _ _ _ Hj) as Hlj.
  rewrite cumsum_from_length in Hli, Hlj.
  rewrite cumsum_from_lookup in Hi, Hj by done.
  injection Hi as <-. injection Hj as <-.
  pose proof (sum_list_take_le lens (S i) (S j)). lia.
Qed.

(** [bisect_right] on the running totals finds the part whose range
    holds position [x]. *)
Lemma bisect_right_cumsum lens x :
  x < sum_list lens →
  let r := bisect_right (cumsum lens) x in
  r < length lens ∧
  sum_list (take r lens) ≤ x < sum_list (take (S r) lens).
Proof.
  intros Hx. unfold bisect_right.
  destruct (bisect_loop_spec (cumsum lens) x (S (length (cumsum lens))) 0
              (length (cumsum lens))) as (Hr & Hl & Hh).
  - apply cumsum_sorted.
  - lia.
  - lia.
  - lia.
  - intros j v Hj. lia.
  - intros j v Hj Hv. apply lookup_lt_Some in Hv. lia.
  - cbn zeta. set (r := bisect_loop _ _ _ _ _) in *.
    unfold cumsum in *. rewrite cumsum_from_length in *.
    assert (r < length lens) as Hrlt.
    { destruct (decide (r < length lens)) as [?|Hge]; [done|].
      assert (lens ≠ []) as Hne by (intros ->; cbn in Hx; lia).
      assert (length lens - 1 < r) as Hlast by (destruct lens; [done|cbn in *; lia]).
      specialize (Hl (length lens - 1) _ Hlast
                    (cumsum_from_lookup 0 lens (length lens - 1)
                       ltac:(destruct lens; [done|cbn; lia]))).
      replace (S (length lens - 1)) with (length lens) in Hl
        by (destruct lens; [done|cbn; lia]).
      rewrite firstn_all in Hl. lia. }
    clearbody r. split; [done|]. split.
    + destruct r as [|r]; [rewrite take_0; cbn; lia|].
      specialize (Hl r _ ltac:(lia) (cumsum_from_lookup 0 lens r ltac:(lia))). lia.
    + specialize (Hh r _ ltac:(lia) (cumsum_from_lookup 0 lens r Hrlt)). lia.
Qed.

Lemma at_index_lookup {A B} (f : A → option B) (ds : list A) (k : nat) :
  at_index f ds k = ds !! k ≫= f.
Proof. revert k. induction ds as [|d ds IH]; intros [|k]; cbn; auto. Qed.

Lemma getitem_concat_unfold (datasets : list Handle) (i : nat) :
  getitem (ConcatDataset datasets) (Z.of_nat i)
  = let sizes := cumsum (len <$> datasets) in
    let dataset_idx := bisect_right sizes i in
    sample_idx ← (if decide (dataset_idx = 0) then Some i
                  else (λ c, i - c) <$> sizes !! (dataset_idx - 1));
    d ← datasets !! dataset_idx;
    getitem d (Z.of_nat sample_idx).
Proof.
  cbn [getitem]. rewrite decide_False by lia. cbn [mbind option_bind].
  rewrite Nat2Z.id. cbn zeta.
  destruct (if decide (bisect_right (cumsum (len <$> datasets)) i = 0)
            then Some i else _) as [si|]; [|done].
  cbn [mbind option_bind]. by rewrite at_index_lookup.
Qed.

(** Indexing a concatenation: the position falls into the cumulative
    range of exactly one part, and the answer is that part's sample at
    the offset into the range. *)
Lemma getitem_concat (datasets : list Handle) (i : nat) :
  i < len (ConcatDataset datasets) →
  ∃ k d,
    datasets !! k = Some d ∧
    sum_list (len <$> take k datasets) ≤ i
      < sum_list (len <$> take k datasets) + len d ∧
    getitem (ConcatDataset datasets) (Z.of_nat i)
      = getitem d (Z.of_nat (i - sum_list (len <$> take k datasets))).
Proof.
  rewrite len_concat. intros Hi.
  destruct (bisect_right_cumsum (len <$> datasets) i Hi) as (Hr & Hlo & Hhi).
  set (r := bisect_right (cumsum (len <$> datasets)) i) in *.
  rewrite length_fmap in Hr.
  destruct (lookup_lt_is_Some_2 datasets r Hr) as [d Hd].
  assert (sum_list (take (S r) (len <$> datasets))
          = sum_list (take r (len <$> datasets)) + len d) as Hstep.
  { rewrite (take_S_r _ _ (len d)) by (by rewrite list_lookup_fmap, Hd).
    by rewrite sum_list_snoc. }
  rewrite <-!fmap_take in *.
  exists r, d. split_and!; [done|lia|lia|].
  rewrite getitem_concat_unfold. cbn zeta. fold r. clearbody r.
  destruct (decide (r = 0)) as [Hz|Hnz].
  - cbn. rewrite Hd. cbn. rewrite Hz, take_0. cbn. by rewrite Nat.sub_0_r.
  - unfold cumsum. rewrite cumsum_from_lookup by (rewrite length_fmap; lia).
    cbn. rewrite Hd. cbn.
    replace (S (r - 1)) with r by lia. by rewrite <-fmap_take.
Qed.

Lemma getitem_iadd (a b : Handle) (i : nat) :
  i < len a + len b →
  getitem (iadd a b) (Z.of_nat i)
    = if decide (i < len a) then getitem a (Z.of_nat i)
      else getitem b (Z.of_nat (i - len a)).
Proof.
  intros Hi. unfold iadd.
  destruct (getitem_concat [a; b] i) as (k & d & Hk & Hrange & ->).
  { rewrite len_concat. cbn. lia. }
  destruct k as [|[|k]]; cbn in Hk; [| |done]; injection Hk as <-; cbn in *.
  - rewrite decide_True by lia. by rewrite Nat.sub_0_r.
  - rewrite decide_False by lia. do 2 f_equal. lia.
Qed.
End CombinerFacts.

(** C9: merging [A], [B], [C] in order gives a handle of length
    [len A + len B + len C], however the merges are grouped; a position in
    range is answered by the handle whose cumulative range holds it, at the
    offset into that range. *)
Theorem merge_length_and_indexing (A B C : Combiner.Handle) (i : nat) :
  let merged := Combiner.merge A [B; C] in
  (∀ combined datasets,
     Combiner.len (Combiner.merge combined datasets)
     = Combiner.len combined + sum_list (Combiner.len <$> datasets)) ∧
  Combiner.len merged = Combiner.len A + Combiner.len B + Combiner.len C ∧
  Combiner.len (Combiner.iadd A (Combiner.iadd B C)) = Combiner.len merged ∧
  (i < Combiner.len A →
   Combiner.getitem merged (Z.of_nat i) = Combiner.getitem A (Z.of_nat i)) ∧
  (Combiner.len A ≤ i < Combiner.len A + Combiner.len B →
   Combiner.getitem merged (Z.of_nat i)
     = Combiner.getitem B (Z.of_nat (i - Combiner.len A))) ∧
  (Combiner.len A + Combiner.len B ≤ i
     < Combiner.len A + Combiner.len B + Combiner.len C →
   Combiner.getitem merged (Z.of_nat i)
     = Combiner.getitem C (Z.of_nat (i - Combiner.len A - Combiner.len B))).
Proof.
  intros merged. subst merged. unfold Combiner.merge. cbn [foldl].
  pose proof (CombinerFacts.len_iadd A B) as HAB.
  split_and!.
  - apply CombinerFacts.len_merge.
  - rewrite !CombinerFacts.len_iadd. lia.
  - rewrite !CombinerFacts.len_iadd. lia.
  - intros Hi. rewrite CombinerFacts.getitem_iadd by lia.
    rewrite decide_True by lia. rewrite CombinerFacts.getitem_iadd by lia.
    by rewrite decide_True by lia.
  - intros Hi. rewrite CombinerFacts.getitem_iadd by lia.
    rewrite decide_True by lia. rewrite CombinerFacts.getitem_iadd by lia.
    by rewrite decide_False by lia.
  - intros Hi. rewrite CombinerFacts.getitem_iadd by lia.
    rewrite decide_False by lia. do 2 f_equal. lia.
Qed.

(** The scenario of the specification: a handle of 100 samples merged with
    one of 50 has length 150, and position 120 is sample 20 of the second. *)
Example merge_100_50 (xs ys : list Data) :
  length xs = 100 → length ys = 50 →
  Combiner.len (Combiner.merge (Combiner.Stored xs) [Combiner.Stored ys]) = 150 ∧
  Combiner.getitem (Combiner.merge (Combiner.Stored xs) [Combiner.Stored ys]) 120
    = ys !! 20.
Proof.
  intros Hxs Hys. unfold Combiner.merge. cbn [foldl]. split.
  - rewrite CombinerFacts.len_iadd. cbn. lia.
  - change 120%Z with (Z.of_nat 120).
    rewrite CombinerFacts.getitem_iadd by (cbn; lia).
    rewrite decide_False by (cbn; lia). cbn [Combiner.getitem Combiner.len].
    rewrite Hxs. unfold Combiner.py_index. rewrite decide_True by lia.
    by rewrite Nat2Z.id.
Qed.

(** * Further properties *)

(** ** More on the annotation loops *)

Module AnnotateMore.
Import Annotate AnnotateFacts.

Lemma node_classes_from_Some i nodes y acc :
  i + length nodes ≤ length y →
  ∃ m, node_classes_from i nodes y acc = Some m ∧
       (∀ n, n ∈ nodes → is_Some (m !! n)) ∧
       (∀ n, is_Some (acc !! n) → is_Some (m !! n)) ∧
       (∀ n c, last nodes = Some n → m !! n = Some c → y !! (i + length nodes - 1) = Some c).
Proof.
  revert i acc. induction nodes as [|n nodes IH]; intros i acc Hlen.
  - exists acc. cbn. split_and!; [done| |done|done]. by intros n ?%elem_of_nil.
  - cbn [node_classes_from]. cbn in Hlen.
    destruct (lookup_lt_is_Some_2 y i) as [c Hc]; [lia|]. rewrite Hc. cbn.
    destruct (IH (S i) (<[n:=c]> acc)) as (m & Hm & Hin & Hacc & Hlast); [lia|].
    exists m. split_and!; [done| | |].
    + intros n' [->|Hn']%elem_of_cons; [|by apply Hin].
      apply Hacc. rewrite lookup_insert_eq. by eexists.
    + intros n' Hn'. apply Hacc. rewrite lookup_insert. case_decide; [by eexists|done].
    + intros n' c' Hl Hmn. destruct nodes as [|n2 nodes].
      * cbn in Hl. injection Hl as <-. cbn in Hm. injection Hm as <-.
        rewrite lookup_insert_eq in Hmn. injection Hmn as <-.
        cbn. by replace (i + 1 - 1) with i by lia.
      * specialize (Hlast n' c' Hl Hmn).
        rewrite <-Hlast. f_equal. cbn. lia.
Qed.

Lemma node_classes_from_None i nodes y acc :
  i ≤ length y < i + length nodes → node_classes_from i nodes y acc = None.
Proof.
  revert i acc. induction nodes as [|n nodes IH]; intros i acc Hlen; cbn in *; [lia|].
  destruct (y !! i) as [c|] eqn:Hc; [|done]. cbn. apply IH.
  apply lookup_lt_Some in Hc. lia.
Qed.

(** The node loop on a store whose base tensor has a slot 0: it succeeds
    when every node has a class, changes the base tensor's slot 0 only,
    and leaves the class of the last node there. *)
Lemma node_loop_Some base classes nodes st t :
  heap st !! base = Some t → 0 < length t →
  (∀ n, n ∈ nodes → is_Some (classes !! n)) →
  ∃ st' v,
    node_loop base classes st nodes = Some st' ∧
    heap st' !! base = Some (v :: drop 1 t) ∧
    (∀ n c, last nodes = Some n → classes !! n = Some c → v = c) ∧
    (nodes = [] → Some v = t !! 0) ∧
    edge_attrs st' = edge_attrs st.
Proof.
  revert st t. induction nodes as [|n nodes IH]; intros st t Hb Ht Hcl.
  - destruct t as [|v t]; [cbn in Ht; lia|].
    exists st, v. cbn. by rewrite drop_0.
  - destruct (Hcl n) as [c Hc]; [by left|].
    cbn [node_loop]. unfold node_step. rewrite Hc. cbn.
    unfold setitem. rewrite Hb. cbn. rewrite decide_True by done. cbn.
    destruct (IH (mkState (<[base:=<[0:=c]> t]> (heap st))
                          (<[n:=base]> (node_attrs st)) (edge_attrs st))
                 (<[0:=c]> t)) as (st' & v & Hloop & Hheap & Hlast & Hnil & He).
    + cbn. apply list_lookup_insert_eq. by eapply lookup_lt_Some.
    + by rewrite length_insert.
    + intros n' Hn'. apply Hcl. by right.
    + exists st', v. split_and!; [done| | | done |done].
      * rewrite Hheap. destruct t; [cbn in Ht; lia|]. done.
      * intros n' c' Hl Hc'. destruct nodes as [|n2 nodes].
        -- cbn in Hl. injection Hl as <-.
           specialize (Hnil eq_refl). destruct t; [cbn in Ht; lia|].
           cbn in Hnil. congruence.
        -- by apply (Hlast n' c').
Qed.

Lemma annotate_unfold G y :
  annotate G y
  = classes ← node_classes_from 0 (g_nodes G) y ∅;
    st ← node_loop 0 classes (mkState [replicate 9 0%Z] ∅ ∅) (g_nodes G);
    Some (foldl edge_step st (g_edges G)).
Proof. reflexivity. Qed.

(** The edge loop allocates one tensor per edge, after those already in
    the store. *)
Lemma edge_loop_allocates edges st :
  NoDup edges →
  (∀ e, e ∈ edges → edge_attrs st !! e = None) →
  let st' := foldl edge_step st edges in
  length (heap st') = length (heap st) + length edges ∧
  (∀ j e, edges !! j = Some e →
          edge_attrs st' !! e = Some (length (heap st) + j) ∧
          heap st' !! (length (heap st) + j) = Some [1; 0; 0]%Z).
Proof.
  revert st. induction edges as [|e edges IH]; intros st Hnd Hfresh; cbn zeta.
  - cbn. split; [lia|]. by intros j e ?.
  - apply NoDup_cons in Hnd as [Hnotin Hnd]. cbn [foldl].
    destruct (IH (edge_step st e) Hnd) as [Hlen Hall].
    { intros e' He'. cbn. rewrite lookup_insert_ne; [|by intros ->].
      apply Hfresh. by right. }
    cbn zeta in Hlen, Hall.
    assert (heap (edge_step st e) = heap st ++ [[1; 0; 0]%Z]) as Hh1 by done.
    rewrite Hh1, length_app in Hlen, Hall. cbn [length] in Hlen, Hall.
    split; [cbn [length]; lia|].
    intros [|j] e' Hj.
    + cbn in Hj. injection Hj as <-.
      destruct (edge_loop_frame edges (edge_step st e)) as [_ Hframe].
      assert (edge_attrs (foldl edge_step (edge_step st e) edges) !! e
              = Some (length (heap st))) as Hattr.
      { assert (edge_attrs (edge_step st e) !! e = Some (length (heap st))) as Hs
          by (cbn; apply lookup_insert_eq).
        clear -Hnotin Hs. revert Hs. generalize (edge_step st e).
        induction edges as [|e2 edges IH]; intros s Hs; [done|].
        cbn [foldl]. apply IH.
        - intros ?. apply Hnotin. by right.
        - cbn. rewrite lookup_insert_ne; [done|].
          intros ->. apply Hnotin. by left. }
      rewrite Nat.add_0_r. split; [done|].
      rewrite Hframe by (rewrite Hh1, length_app; cbn; lia).
      rewrite Hh1. by rewrite lookup_app_r, Nat.sub_diag.
    + cbn in Hj. destruct (Hall j e' Hj) as [Ha Hh].
      replace (length (heap st) + S j) with (length (heap st) + 1 + j) by lia.
      done.
Qed.
Lemma annotate_is_Some G y :
  is_Some (annotate G y) ↔ length (g_nodes G) ≤ length y.
Proof.
  rewrite annotate_unfold. split.
  - intros [st Hst]. destruct (decide (length (g_nodes G) ≤ length y)) as [|Hlt]; [done|].
    rewrite node_classes_from_None in Hst by lia. done.
  - intros Hlen.
    destruct (node_classes_from_Some 0 (g_nodes G) y ∅)
      as (classes & -> & Hin & _); [lia|]. cbn [mbind option_bind].
    destruct (node_loop_Some 0 classes (g_nodes G)
                (mkState [replicate 9 0%Z] ∅ ∅) (replicate 9 0%Z))
      as (st' & v & -> & _); [done|cbn; lia|done|]. by eexists.
Qed.
End AnnotateMore.

(** X1: the annotation loops of [download_cora] run through exactly when
    there is a class label for every node; with fewer labels than nodes
    the dictionary comprehension raises. *)
Theorem annotate_needs_a_label_per_node (G : Graph) (y : list Z) :
  is_Some (Annotate.annotate G y) ↔ length (g_nodes G) ≤ length y.
Proof. apply AnnotateMore.annotate_is_Some. Qed.

(** X2: after the annotation loops on a graph with at least one node,
    every node reads the same vector of width 9: the class label of the
    last node in slot 0 and zeros behind it. *)
Theorem annotate_every_node_reads_last_label (G : Graph) (y : list Z)
    (st : Annotate.state) :
  Annotate.annotate G y = Some st → g_nodes G ≠ [] →
  ∃ c, y !! (length (g_nodes G) - 1) = Some c ∧
       ∀ n, n ∈ g_nodes G →
            Annotate.read_node_attrs st n = Some (c :: replicate 8 0%Z).
Proof.
  intros Hst Hne.
  assert (length (g_nodes G) ≤ length y) as Hlen.
  { apply AnnotateMore.annotate_is_Some. by eexists. }
  destruct (last (g_nodes G)) as [n_last|] eqn:Hlast;
    [|by apply last_None in Hlast].
  pose proof (AnnotateFacts.annotate_shares_one_tensor G y st Hst) as Hshare.
  rewrite AnnotateMore.annotate_unfold in Hst.
  destruct (AnnotateMore.node_classes_from_Some 0 (g_nodes G) y ∅)
    as (classes & Hcl & Hin & _ & Hy); [lia|].
  rewrite Hcl in Hst. cbn [mbind option_bind] in Hst.
  destruct (AnnotateMore.node_loop_Some 0 classes (g_nodes G)
              (Annotate.mkState [replicate 9 0%Z] ∅ ∅) (replicate 9 0%Z))
    as (st' & v & Hloop & Hheap & Hv & _ & _); [done|cbn; lia|done|].
  rewrite Hloop in Hst. cbn [mbind option_bind] in Hst. injection Hst as <-.
  destruct (Hin n_last) as [c Hc].
  { apply last_Some in Hlast as [l' ->]. apply elem_of_app. right. by left. }
  exists c. split; [by apply (Hy n_last)|].
  intros n Hn. rewrite (Hshare n Hn).
  destruct (AnnotateFacts.edge_loop_frame (g_edges G) st') as [_ Hframe].
  rewrite Hframe by (apply lookup_lt_Some in Hheap; done).
  rewrite Hheap. by rewrite (Hv n_last c Hlast Hc).
Qed.

Lemma annotate_every_node_reads_last_label_witness :
  ∃ st, Annotate.annotate (mkGraph [4; 7; 9] [(4, 7); (7, 9)]) [2; 0; 6]%Z = Some st ∧
  ∃ c, [2; 0; 6]%Z !! (length [4; 7; 9] - 1) = Some c ∧
       ∀ n, n ∈ [4; 7; 9] →
            Annotate.read_node_attrs st n = Some (c :: replicate 8 0%Z).
Proof.
  assert (is_Some (Annotate.annotate (mkGraph [4; 7; 9] [(4, 7); (7, 9)]) [2; 0; 6]%Z))
    as [st Hst] by (vm_compute; eexists; reflexivity).
  exists st. split; [exact Hst|].
  apply (annotate_every_node_reads_last_label
           (mkGraph [4; 7; 9] [(4, 7); (7, 9)]) [2; 0; 6]%Z st Hst).
  discriminate.
Defined.

(** X3: the edge loop gives every edge a tensor of its own, (1, 0, 0):
    no two edges share one, and none shares the nodes' tensor. *)
Theorem annotate_edges_own_tensors (G : Graph) (y : list Z) (st : Annotate.state) :
  Annotate.annotate G y = Some st → NoDup (g_edges G) →
  ∀ e, e ∈ g_edges G →
    ∃ r, Annotate.edge_attrs st !! e = Some r ∧
         Annotate.heap st !! r = Some [1; 0; 0]%Z ∧
         (∀ n, Annotate.node_attrs st !! n ≠ Some r) ∧
         (∀ e', e' ∈ g_edges G → Annotate.edge_attrs st !! e' = Some r → e' = e).
Proof.
  intros Hst Hnd e He.
  assert (length (g_nodes G) ≤ length y) as Hlen.
  { apply AnnotateMore.annotate_is_Some. by eexists. }
  rewrite AnnotateMore.annotate_unfold in Hst.
  destruct (AnnotateMore.node_classes_from_Some 0 (g_nodes G) y ∅)
    as (classes & Hcl & Hin & _ & Hy); [lia|].
  rewrite Hcl in Hst. cbn [mbind option_bind] in Hst.
  destruct (Annotate.node_loop 0 classes _ (g_nodes G)) as [st'|] eqn:Hloop; [|done].
  cbn [mbind option_bind] in Hst. injection Hst as <-.
  destruct (AnnotateMore.node_loop_Some 0 classes (g_nodes G)
              (Annotate.mkState [replicate 9 0%Z] ∅ ∅) (replicate 9 0%Z))
    as (st2 & v & Hloop2 & _ & _ & _ & Hedge); [done|cbn; lia|done|].
  rewrite Hloop in Hloop2. injection Hloop2 as <-.
  apply AnnotateFacts.node_loop_alias in Hloop as (Hl & Hall & _);
    [|by intros ??; cbn; rewrite lookup_empty].
  cbn in Hl, Hedge.
  destruct (AnnotateMore.edge_loop_allocates (g_edges G) st' Hnd) as [_ Halloc].
  { intros e' _. by rewrite Hedge, lookup_empty. }
  rewrite Hl in Halloc. cbn in Halloc.
  destruct (AnnotateFacts.edge_loop_frame (g_edges G) st') as [Hnodes _].
  apply list_elem_of_lookup in He as [j Hj].
  destruct (Halloc j e Hj) as [Ha Hh].
  exists (S j). split_and!; [done|done| |].
  - intros n Hn. rewrite Hnodes in Hn. by apply Hall in Hn.
  - intros e' [j' Hj']%list_elem_of_lookup He'.
    destruct (Halloc j' e' Hj') as [Ha' _]. rewrite Ha' in He'.
    injection He' as [= ->]. congruence.
Qed.

Lemma annotate_edges_own_tensors_witness :
  ∃ st, Annotate.annotate (mkGraph [4; 7; 9] [(4, 7); (7, 9)]) [2; 0; 6]%Z = Some st ∧
  ∀ e, e ∈ [(4, 7); (7, 9)] →
    ∃ r, Annotate.edge_attrs st !! e = Some r ∧
         Annotate.heap st !! r = Some [1; 0; 0]%Z ∧
         (∀ n, Annotate.node_attrs st !! n ≠ Some r) ∧
         (∀ e', e' ∈ [(4, 7); (7, 9)] → Annotate.edge_attrs st !! e' = Some r → e' = e).
Proof.
  assert (is_Some (Annotate.annotate (mkGraph [4; 7; 9] [(4, 7); (7, 9)]) [2; 0; 6]%Z))
    as [st Hst] by (vm_compute; eexists; reflexivity).
  exists st. split; [exact Hst|].
  apply (annotate_edges_own_tensors
           (mkGraph [4; 7; 9] [(4, 7); (7, 9)]) [2; 0; 6]%Z st Hst).
  apply (bool_decide_unpack (NoDup [(4, 7); (7, 9)])). vm_compute. exact I.
Defined.

(** ** More on component extraction *)

Section component_facts.
Context (G : Graph) (Hwf : wf_graph G).

#[local] Abbreviation closed := (closed_nodes G).

Lemma plain_bfs_closed v : v ∈ g_nodes G → closed (plain_bfs G v).
Proof.
  intros Hv u w Hu Hc. apply elem_of_plain_bfs in Hu; [|done..].
  apply elem_of_plain_bfs; [done..|]. by etrans.
Qed.

Lemma plain_bfs_disjoint_closed v S :
  v ∈ g_nodes G → closed S → v ∉ S → plain_bfs G v ## S.
Proof.
  intros Hv Hcl Hn w Hw HS. apply elem_of_plain_bfs in Hw; [|done..].
  apply Hn, (Hcl w v HS). by apply connected_sym.
Qed.

Lemma closed_union S1 S2 : closed S1 → closed S2 → closed (S1 ∪ S2).
Proof.
  intros H1 H2 u w [Hu|Hu]%elem_of_union Hc; apply elem_of_union;
    [left; by eapply H1|right; by eapply H2].
Qed.

Lemma components_from_partition todo seen :
  (∀ v, v ∈ todo → v ∈ g_nodes G) → closed seen →
  let cs := components_from G todo seen in
  (∀ c, c ∈ cs → c ## seen) ∧
  (∀ i j ci cj, cs !! i = Some ci → cs !! j = Some cj → i ≠ j → ci ## cj) ∧
  (∀ v, v ∈ todo → v ∈ seen ∨ ∃ c, c ∈ cs ∧ v ∈ c) ∧
  size (seen ∪ ⋃ cs) = size seen + sum_list (size <$> cs).
Proof.
  revert seen. induction todo as [|v todo IH]; intros seen Htodo Hcl; cbn zeta.
  - cbn. split_and!; [by intros ? ?%elem_of_nil|done|by intros ? ?%elem_of_nil|].
    rewrite union_empty_r_L. lia.
  - cbn [components_from]. case_decide as Hv.
    + destruct (IH seen) as (Hd & Hp & Hc & Hs);
        [by intros ? ?; apply Htodo; right|done|].
      split_and!; [done|done| |done].
      intros u [->|Hu]%elem_of_cons; [by left|by apply Hc].
    + assert (v ∈ g_nodes G) as HvG by (apply Htodo; by left).
      pose proof (plain_bfs_closed v HvG) as Hclv.
      pose proof (plain_bfs_disjoint_closed v seen HvG Hcl Hv) as Hdv.
      destruct (IH (seen ∪ plain_bfs G v)) as (Hd & Hp & Hc & Hs);
        [by intros ? ?; apply Htodo; right|by apply closed_union|].
      cbn zeta. split_and!.
      * intros c [->|Hc']%elem_of_cons; [done|]. apply Hd in Hc'.
        intros x Hx Hx'. apply (Hc' x Hx), elem_of_union. by left.
      * intros [|i] [|j] ci cj Hi Hj Hij; cbn in Hi, Hj; simplify_eq.
        -- apply list_elem_of_lookup_2, Hd in Hj.
           intros x Hx Hx'. apply (Hj x Hx'), elem_of_union. by right.
        -- apply list_elem_of_lookup_2, Hd in Hi.
           intros x Hx Hx'. apply (Hi x Hx), elem_of_union. by right.
        -- eapply Hp; [done..|lia].
      * intros u [->|Hu]%elem_of_cons.
        -- right. exists (plain_bfs G v). split; [by left|].
           apply elem_of_plain_bfs; done.
        -- destruct (Hc u Hu) as [[?|?]%elem_of_union|(c & ? & ?)].
           ++ by left.
           ++ right. exists (plain_bfs G v). split; [by left|done].
           ++ right. exists c. split; [by right|done].
      * cbn.
        assert (size (seen ∪ plain_bfs G v) = size seen + size (plain_bfs G v)) as Hsz
          by (apply size_union; by symmetry).
        rewrite Hsz in Hs.
        replace (seen ∪ (plain_bfs G v ∪ ⋃ components_from G todo (seen ∪ plain_bfs G v)))
          with (seen ∪ plain_bfs G v ∪ ⋃ components_from G todo (seen ∪ plain_bfs G v))
          by (by rewrite (assoc_L (∪))).
        lia.
Qed.

Lemma connected_components_partition_aux :
  let cs := connected_components G in
  (∀ v, v ∈ g_nodes G ↔ ∃ c, c ∈ cs ∧ v ∈ c) ∧
  (∀ i j ci cj, cs !! i = Some ci → cs !! j = Some cj → i ≠ j → ci ## cj) ∧
  sum_list (size <$> cs) = number_of_nodes G.
Proof.
  destruct (components_from_partition (g_nodes G) ∅) as (_ & Hp & Hc & Hs);
    [done|by intros ?? ?%elem_of_empty|].
  cbn zeta in *. fold (connected_components G) in *.
  assert (∀ v, v ∈ g_nodes G ↔ ∃ c, c ∈ connected_components G ∧ v ∈ c) as Hcover.
  { intros v. split.
    - intros Hv. destruct (Hc v Hv) as [?%elem_of_empty|?]; done.
    - intros (c & Hin & Hv).
      apply connected_components_sound in Hin as (_ & Hsub & _); [|done].
      by apply Hsub. }
  split_and!; [done|done|].
  rewrite size_empty, union_empty_l_L in Hs. cbn in Hs. rewrite <-Hs.
  assert (⋃ connected_components G = list_to_set (g_nodes G)) as ->.
  { apply set_eq. intros v. rewrite elem_of_union_list, elem_of_list_to_set.
    by rewrite Hcover. }
  apply size_list_to_set, Hwf.
Qed.

(** Inside the view on a component, its nodes stay connected. *)
Lemma subgraph_connected c u w :
  is_component G c → u ∈ c → connected G u w → connected (subgraph G c) u w.
Proof.
  intros (_ & _ & Hcomp) Hu Hc. induction Hc as [u|u v w Huv Hvw IH]; [done|].
  assert (v ∈ c) as Hv by (apply (Hcomp u Hu); by apply rtc_once).
  eapply rtc_l; [|by apply IH].
  unfold adjacent in *. apply elem_of_neighbors in Huv.
  apply elem_of_neighbors. cbn. rewrite !list_elem_of_filter. cbn. tauto.
Qed.
End component_facts.

Section relabel_connected.
Context (G : Graph) (Hwf : wf_graph G).

Lemma convert_adjacent a b u v :
  g_nodes G !! a = Some u → g_nodes G !! b = Some v →
  adjacent G u v →
  adjacent (convert_node_labels_to_integers G) a b.
Proof.
  destruct Hwf as [Hnd Hedges]. intros Ha Hb Hadj. unfold adjacent in *.
  apply elem_of_neighbors in Hadj. apply elem_of_neighbors.
  rewrite !(convert_edges G Hnd) by done.
  destruct Hadj as [He|He]; [left; by exists u, v|right; by exists v, u].
Qed.

Lemma adjacent_node u v : adjacent G u v → v ∈ g_nodes G.
Proof.
  destruct Hwf as [_ Hedges]. rewrite Forall_forall in Hedges.
  unfold adjacent. intros [He|He]%elem_of_neighbors; apply Hedges in He; tauto.
Qed.

Lemma convert_connected a u v :
  g_nodes G !! a = Some u → connected G u v →
  ∃ b, g_nodes G !! b = Some v ∧
       connected (convert_node_labels_to_integers G) a b.
Proof.
  intros Ha Hc. revert a Ha. induction Hc as [u|u u' v Hadj Hc IH]; intros a Ha.
  - by exists a.
  - pose proof (adjacent_node u u' Hadj) as [a' Ha']%list_elem_of_lookup.
    destruct (IH a' Ha') as (b & Hb & Hcb). exists b. split; [done|].
    eapply rtc_l; [|done]. by eapply convert_adjacent.
Qed.

Lemma convert_wf : wf_graph (convert_node_labels_to_integers G).
Proof.
  destruct Hwf as [Hnd Hedges]. split.
  - rewrite convert_nodes by done. apply NoDup_seq.
  - apply Forall_forall. intros [a b] He.
    apply (convert_edges G Hnd) in He as (u & v & _ & Ha & Hb); [|done].
    rewrite convert_nodes by done. cbn.
    apply lookup_lt_Some in Ha, Hb. rewrite !elem_of_seq.
    unfold number_of_nodes. lia.
Qed.
End relabel_connected.

Lemma largest_component_Some (G H : Graph) :
  largest_component G = Some H →
  ∃ c, c ∈ connected_components G ∧
       H = convert_node_labels_to_integers (subgraph G c).
Proof.
  unfold largest_component. cbn zeta.
  destruct (sorted_reverse number_of_nodes (subgraph G <$> connected_components G) !! 0)
    as [g|] eqn:Hg; [|done].
  cbn. intros [= <-].
  apply list_elem_of_lookup_2 in Hg. rewrite sorted_reverse_perm in Hg.
  apply list_elem_of_fmap in Hg as (c & -> & Hc). by exists c.
Qed.

Lemma largest_component_None (G : Graph) :
  largest_component G = None ↔ g_nodes G = [].
Proof.
  unfold largest_component. cbn zeta. split.
  - intros Hn. destruct (decide (g_nodes G = [])) as [|Hne]; [done|exfalso].
    apply connected_components_nonempty in Hne.
    destruct (sorted_reverse number_of_nodes (subgraph G <$> connected_components G))
      as [|g l] eqn:Hs; [|done].
    apply Hne. eapply fmap_nil_inv, Permutation_nil_r.
    by rewrite <-(sorted_reverse_perm number_of_nodes), Hs.
  - intros Hnil. unfold connected_components. by rewrite Hnil.
Qed.

(** X4: on a well-formed graph the sets [connected_components] yields
    partition the nodes: every node lies in one of them, sets at different
    positions share no node, and the sizes add up to the node count. *)
Theorem connected_components_partition (G : Graph) :
  wf_graph G →
  (∀ v, v ∈ g_nodes G ↔ ∃ c, c ∈ connected_components G ∧ v ∈ c) ∧
  (∀ i j ci cj, connected_components G !! i = Some ci →
                connected_components G !! j = Some cj → i ≠ j → ci ## cj) ∧
  sum_list (size <$> connected_components G) = number_of_nodes G.
Proof. intros Hwf. by apply connected_components_partition_aux. Qed.

Lemma connected_components_partition_witness :
  (∀ v, v ∈ g_nodes Demo.raw0 ↔ ∃ c, c ∈ connected_components Demo.raw0 ∧ v ∈ c) ∧
  (∀ i j ci cj, connected_components Demo.raw0 !! i = Some ci →
                connected_components Demo.raw0 !! j = Some cj → i ≠ j → ci ## cj) ∧
  sum_list (size <$> connected_components Demo.raw0) = number_of_nodes Demo.raw0.
Proof.
  apply (connected_components_partition Demo.raw0).
  apply (bool_decide_unpack (wf_graph Demo.raw0)). vm_compute. exact I.
Defined.

(** X5: [download_cora] raises exactly when the label tensor has fewer
    entries than the graph has nodes, or the graph has no node at all
    ([CGs[0]] on an empty list). *)
Theorem download_cora_fails_iff (raw : Graph) (y : list Z) :
  download_cora raw y = None ↔
  length y < length (g_nodes raw) ∨ g_nodes raw = [].
Proof.
  unfold download_cora.
  destruct (Annotate.annotate raw y) as [st|] eqn:Hst; cbn.
  - assert (length (g_nodes raw) ≤ length y) as Hlen
      by (apply AnnotateMore.annotate_is_Some; by eexists).
    rewrite largest_component_None. split; [by right|].
    intros [?|?]; [lia|done].
  - split; [|done]. intros _. left.
    destruct (decide (length (g_nodes raw) ≤ length y)) as [Hle|]; [|lia].
    apply AnnotateMore.annotate_is_Some in Hle as [? ?]. congruence.
Qed.

(** X6: what [download_cora] returns for a well-formed graph is itself a
    well-formed graph in which any two nodes are joined by a path. *)
Theorem download_cora_result_connected (raw : Graph) (y : list Z) (H : Graph) :
  wf_graph raw → download_cora raw y = Some H →
  wf_graph H ∧ ∀ a b, a ∈ g_nodes H → b ∈ g_nodes H → connected H a b.
Proof.
  intros Hwf. unfold download_cora.
  destruct (Annotate.annotate raw y) as [st|]; [|done]. cbn.
  intros (c & Hc & ->)%largest_component_Some.
  pose proof (connected_components_sound raw c Hwf Hc) as Hcomp.
  pose proof (subgraph_wf raw c Hwf) as Hswf.
  split; [by apply convert_wf|].
  intros a b. rewrite !convert_nodes by apply Hswf.
  rewrite !elem_of_seq. unfold number_of_nodes. intros Ha Hb.
  destruct (lookup_lt_is_Some_2 (g_nodes (subgraph raw c)) a) as [u Hu]; [lia|].
  destruct (lookup_lt_is_Some_2 (g_nodes (subgraph raw c)) b) as [v Hv]; [lia|].
  assert (u ∈ c ∧ v ∈ c) as [Huc Hvc].
  { apply list_elem_of_lookup_2 in Hu, Hv. cbn in Hu, Hv.
    apply list_elem_of_filter in Hu, Hv. tauto. }
  assert (connected raw u v) as Huv by (by apply Hcomp).
  apply (subgraph_connected raw c u v Hcomp Huc) in Huv.
  destruct (convert_connected (subgraph raw c) Hswf a u v Hu Huv) as (b' & Hb' & Hconn).
  assert (b' = b) as ->
    by (apply (NoDup_lookup (g_nodes (subgraph raw c)) b' b v); [apply Hswf|done|done]).
  done.
Qed.

Lemma download_cora_result_connected_witness :
  ∃ H, download_cora Demo.raw0 Demo.y0 = Some H ∧
       wf_graph H ∧ ∀ a b, a ∈ g_nodes H → b ∈ g_nodes H → connected H a b.
Proof.
  assert (is_Some (download_cora Demo.raw0 Demo.y0)) as [H HH]
    by (vm_compute; eexists; reflexivity).
  exists H. split; [exact HH|].
  apply (download_cora_result_connected Demo.raw0 Demo.y0 H); [|exact HH].
  apply (bool_decide_unpack (wf_graph Demo.raw0)). vm_compute. exact I.
Defined.

(** ** Sampling and the seed *)

Section reseed_facts.
Context `{SamplerLib}.
Import Utils.

Lemma same_draws_refl w : same_draws w w.
Proof. done. Qed.

Lemma append_budgets_same_draws a budgets l1 l2 w1 w2 :
  constructors_reseed → same_draws w1 w2 ∨ budgets ≠ [] →
  same_draws (append_budgets a budgets l1 w1).2 (append_budgets a budgets l2 w2).2.
Proof.
  intros Hre. revert l1 l2 w1 w2.
  induction budgets as [|i rest IH]; intros l1 l2 w1 w2 Hor.
  - by destruct Hor.
  - cbn. apply IH. left. apply Hre.
Qed.

Lemma append_samplers_same_draws samplers budgets l1 l2 w1 w2 :
  constructors_reseed →
  same_draws w1 w2 ∨ (samplers ≠ [] ∧ budgets ≠ []) →
  same_draws (append_samplers samplers budgets l1 w1).2
             (append_samplers samplers budgets l2 w2).2.
Proof.
  intros Hre. revert l1 l2 w1 w2.
  induction samplers as [|a rest IH]; intros l1 l2 w1 w2 Hor.
  - destruct Hor as [?|[? _]]; done.
  - cbn [append_samplers].
    pose proof (append_budgets_same_draws a budgets l1 l2 w1 w2 Hre) as Hb.
    destruct (append_budgets a budgets l1 w1) as [l1' w1'].
    destruct (append_budgets a budgets l2 w2) as [l2' w2'].
    apply IH. left. apply Hb. destruct Hor as [?|[_ ?]]; [by left|by right].
Qed.

Lemma draw_sampler_same_draws pool w1 w2 :
  same_draws w1 w2 →
  option_Forall2 (λ r1 r2 : Sampler * World, r1.1 = r2.1 ∧ same_draws r1.2 r2.2)
                 (draw_sampler pool w1) (draw_sampler pool w2).
Proof.
  intros [Hnp Hpy]. unfold draw_sampler, randint.
  case_decide; [constructor|]. rewrite Hnp.
  destruct (np_random_randint (length pool) (np_random w2)) as [idx g]. cbn.
  destruct (pool !! idx) as [s|]; cbn; constructor. done.
Qed.

Lemma generate_same_draws pool graph n graphs w1 w2 :
  sample_reads_draws → same_draws w1 w2 →
  fst <$> generate pool graph n graphs w1 = fst <$> generate pool graph n graphs w2.
Proof.
  intros Hsa. revert graphs w1 w2.
  induction n as [|n IH]; intros graphs w1 w2 Hw; [done|].
  cbn [generate].
  destruct (draw_sampler_same_draws pool w1 w2 Hw) as [[s1 w1'] [s2 w2'] [Hs Hw']|];
    [|done].
  cbn in Hs, Hw'. subst s2. cbn.
  destruct (Hsa s1 graph w1' w2' Hw') as [Hg Hw2].
  destruct (sample s1 graph w1') as [g1 v1], (sample s1 graph w2') as [g2 v2].
  cbn in Hg, Hw2. subst g2. by apply IH.
Qed.

Lemma sample_n_same_draws sampler graph n1 n2 w1 w2 :
  sample_reads_draws → same_draws w1 w2 → n1 ≤ n2 →
  (Cora.sample_n sampler graph n1 w1).1
  = take n1 (Cora.sample_n sampler graph n2 w2).1.
Proof.
  intros Hsa. revert n2 w1 w2.
  induction n1 as [|n1 IH]; intros n2 w1 w2 Hw Hle.
  - by rewrite take_0.
  - destruct n2 as [|n2]; [lia|]. cbn [Cora.sample_n].
    destruct (Hsa sampler graph w1 w2 Hw) as [Hg Hw2].
    destruct (sample sampler graph w1) as [g1 v1], (sample sampler graph w2) as [g2 v2].
    cbn in Hg, Hw2. subst g2.
    specialize (IH n2 v1 v2 Hw2 ltac:(lia)).
    destruct (Cora.sample_n sampler graph n1 v1) as [r1 u1].
    destruct (Cora.sample_n sampler graph n2 v2) as [r2 u2].
    cbn in *. by rewrite IH.
Qed.

Lemma Cora_ESWR_same_draws graph n1 n2 size w1 w2 :
  constructors_reseed → sample_reads_draws → n1 ≤ n2 →
  (Cora.ESWR graph n1 size w1).1 = take n1 (Cora.ESWR graph n2 size w2).1.
Proof.
  intros Hre Hsa Hle. unfold Cora.ESWR. cbn.
  apply sample_n_same_draws; [done|apply Hre|done].
Qed.
End reseed_facts.

Section seed_properties.
Context `{SamplerLib}.
Import Utils.

(** X7: when the sampler constructors reseed the two generators and
    [sample] draws from them only, as littleballoffur's do, the samples
    either [ESWR] returns do not depend on the seed given to [setup_seed]:
    two runs with different seeds return the same graphs. *)
Theorem ESWR_samples_ignore_seed (seed1 seed2 : Z) (graph : Graph)
    (n size : nat) (w1 w2 : World) :
  constructors_reseed → sample_reads_draws →
  seeded_ESWR seed1 graph n size w1 = seeded_ESWR seed2 graph n size w2 ∧
  (Cora.ESWR graph n size (setup_seed seed1 w1)).1
    = (Cora.ESWR graph n size (setup_seed seed2 w2)).1.
Proof.
  intros Hre Hsa. split.
  - unfold seeded_ESWR, ESWR.
    pose proof (build_pool_list possible_samplers 24 96 (setup_seed seed1 w1)) as Hp1.
    pose proof (build_pool_list possible_samplers 24 96 (setup_seed seed2 w2)) as Hp2.
    pose proof (append_samplers_same_draws possible_samplers (seq 24 (96 - 24)) [] []
                  (setup_seed seed1 w1) (setup_seed seed2 w2) Hre) as Hw.
    fold (build_pool possible_samplers 24 96 (setup_seed seed1 w1)) in Hw.
    fold (build_pool possible_samplers 24 96 (setup_seed seed2 w2)) in Hw.
    destruct (build_pool possible_samplers 24 96 (setup_seed seed1 w1)) as [p1 v1].
    destruct (build_pool possible_samplers 24 96 (setup_seed seed2 w2)) as [p2 v2].
    cbn [fst snd] in Hp1, Hp2, Hw. rewrite Hp1, Hp2.
    apply generate_same_draws; [done|]. apply Hw. right. done.
  - rewrite (Cora_ESWR_same_draws graph n n size _ (setup_seed seed2 w2)) by done.
    apply firstn_all2. 
    destruct (sample_n_spec (mkSampler MetropolisHastingsRandomWalkSampler size) graph n
                (sampler_init MetropolisHastingsRandomWalkSampler size (setup_seed seed2 w2)))
      as [Hlen _].
    unfold Cora.ESWR. cbn. lia.
Qed.
End seed_properties.

Section closed_seed_lemmas.
Import Demo.
#[local] Existing Instances random_lib sampler_lib.

Lemma demo_constructors_reseed : @constructors_reseed random_lib sampler_lib.
Proof. intros a i w1 w2. done. Qed.

Lemma demo_sample_reads_draws : @sample_reads_draws random_lib sampler_lib.
Proof.
  intros s G w1 w2 [Hnp Hpy]. cbn in *. unfold visited. rewrite Hnp, Hpy. done.
Qed.

Lemma ESWR_samples_ignore_seed_witness :
  Utils.seeded_ESWR 1 ring 3 48 world0 = Utils.seeded_ESWR 2 ring 3 48 world0 ∧
  (Cora.ESWR ring 3 48 (setup_seed 1 world0)).1
    = (Cora.ESWR ring 3 48 (setup_seed 2 world0)).1.
Proof.
  apply (ESWR_samples_ignore_seed 1 2 ring 3 48 world0 world0).
  - exact demo_constructors_reseed.
  - exact demo_sample_reads_draws.
Defined.
End closed_seed_lemmas.

(** ** More on the cached dataset *)

Section dataset_facts.
Context `{SamplerLib} `{Pickle}.
Import CoraDataset.

Lemma stage_path_with_stage a s :
  stage_path (with_stage a s)
  = Some (root a +:+ "/processed/" +:+
          match s with train => "train.pt" | val => "val.pt" | test => "test.pt" end).
Proof. by destruct s. Qed.

Lemma stage_path_inj a s1 s2 p :
  stage_path (with_stage a s1) = Some p →
  stage_path (with_stage a s2) = Some p → s1 = s2.
Proof.
  rewrite !stage_path_with_stage. intros [= <-] [= Heq].
  apply string_app_inv_head in Heq.
  destruct s1, s2; done.
Qed.

Lemma processed_paths_with_stage a s :
  processed_paths (with_stage a s) = processed_paths a.
Proof. done. Qed.

Lemma get_cora_dataset_spec a w data w' :
  get_cora_dataset a w = Some (data, w') →
  length data = num a ∧ Forall (λ d, d_y d = None) data.
Proof.
  unfold get_cora_dataset.
  destruct (download_cora (raw a) (y a)) as [g|]; [|done]. cbn.
  pose proof (sample_n_spec (mkSampler MetropolisHastingsRandomWalkSampler 48)
                g (num a) (sampler_init MetropolisHastingsRandomWalkSampler 48 w))
    as [Hlen _].
  unfold Cora.ESWR. cbn.
  destruct (Cora.sample_n _ g (num a) _) as [gs w1]. cbn in Hlen.
  intros [= <- <-]. split.
  - by rewrite !length_fmap.
  - apply Forall_fmap, Forall_fmap, Forall_forall. done.
Qed.

Lemma build_unfiltered a w split w' :
  pre_filter a = None →
  build a w = Some (split, w') →
  length split = num a ∧
  (pre_transform a = None → Forall (λ d, d_y d = None) split).
Proof.
  intros Hf. unfold build.
  destruct (get_cora_dataset a w) as [[data w1]|] eqn:Hg; [|done].
  apply get_cora_dataset_spec in Hg as [Hlen Hy]. cbn. rewrite Hf.
  intros [= <- <-]. unfold collate. split.
  - destruct (pre_transform a); by rewrite ?length_fmap.
  - by intros ->.
Qed.

(** What a construction that finds a processed file missing returns. *)
Lemma init_rebuilds_inv a sys d sys' :
  files_exist (processed_paths a) (sys_fs sys) = false →
  init a sys = Some (d, sys') →
  ∃ w' path,
    build a (sys_world sys) = Some (data_slices d, w') ∧
    stage_path a = Some path ∧
    d = mkDataset a (data_slices d) ∧
    sys' = {| sys_fs := <[path := dumps (data_slices d)]> (sys_fs sys);
              sys_world := w';
              process_calls := S (process_calls sys) |}.
Proof.
  intros Hex Hinit. destruct (stage_path_is_Some a) as [path Hp].
  destruct (build a (sys_world sys)) as [[split w']|] eqn:Hb.
  - rewrite (init_rebuilds a sys split w' path Hex Hb Hp) in Hinit.
    injection Hinit as <- <-. by exists w', path.
  - unfold init, base_process, process in Hinit. rewrite Hex, Hb in Hinit.
    by destruct (download_cora (raw a) (y a)).
Qed.

(** What a construction that finds all processed files returns. *)
Lemma init_cached_inv a sys d sys' :
  files_exist (processed_paths a) (sys_fs sys) = true →
  init a sys = Some (d, sys') →
  ∃ path,
    is_Some (download_cora (raw a) (y a)) ∧
    stage_path a = Some path ∧
    torch_load path (sys_fs sys) = Some (data_slices d) ∧
    d = mkDataset a (data_slices d) ∧ sys' = sys.
Proof.
  intros Hex. unfold init, base_process. rewrite Hex.
  destruct (download_cora (raw a) (y a)) as [g|]; [|done]. cbn.
  destruct (stage_path a) as [path|]; [|done]. cbn.
  destruct (torch_load path (sys_fs sys)) as [split|] eqn:Hl; [|done]. cbn.
  intros ?. simplify_eq. by exists path.
Qed.

Lemma files_exist_processed_paths a (fs : FS) :
  files_exist (processed_paths a) fs = true ↔
  ∀ s, ∃ p, stage_path (with_stage a s) = Some p ∧ is_Some (fs !! p).
Proof.
  unfold files_exist. rewrite bool_decide_eq_true, processed_paths_eq. split.
  - intros [_ Hall]. rewrite !Forall_cons in Hall.
    destruct Hall as (? & ? & ? & _).
    intros s. rewrite stage_path_with_stage. eexists. split; [done|].
    by destruct s.
  - intros Hall. split; [done|].
    pose proof (Hall train) as (p1 & Hp1 & ?).
    pose proof (Hall val) as (p2 & Hp2 & ?).
    pose proof (Hall test) as (p3 & Hp3 & ?).
    rewrite stage_path_with_stage in Hp1, Hp2, Hp3. simplify_eq.
    repeat constructor; done.
Qed.

Lemma build_with_stage a s w : build (with_stage a s) w = build a w.
Proof. done. Qed.

(** Under the library behaviour of [constructors_reseed] and
    [sample_reads_draws], a smaller build is the head of a larger one. *)
Lemma get_cora_dataset_prefix a1 a2 w1 w2 data1 data2 w1' w2' :
  constructors_reseed → sample_reads_draws →
  raw a1 = raw a2 → y a1 = y a2 → num a1 ≤ num a2 →
  get_cora_dataset a1 w1 = Some (data1, w1') →
  get_cora_dataset a2 w2 = Some (data2, w2') →
  data1 = take (num a1) data2.
Proof.
  intros Hre Hsa Hraw Hy Hle. unfold get_cora_dataset. rewrite Hraw, Hy.
  destruct (download_cora (raw a2) (y a2)) as [g|]; [|done]. cbn -[Cora.ESWR].
  pose proof (Cora_ESWR_same_draws g (num a1) (num a2) 48 w1 w2 Hre Hsa Hle) as Heq.
  destruct (Cora.ESWR g (num a1) 48 w1) as [l1 v1].
  destruct (Cora.ESWR g (num a2) 48 w2) as [l2 v2]. cbn in Heq.
  intros ? ?. simplify_eq. by rewrite !fmap_take.
Qed.

Lemma prefix_filter {A} (P : A → Prop) `{∀ x, Decision (P x)} (l1 l2 : list A) :
  l1 `prefix_of` l2 → filter P l1 `prefix_of` filter P l2.
Proof. intros [k ->]. rewrite filter_app. by eexists. Qed.

Lemma prefix_fmap {A B} (f : A → B) (l1 l2 : list A) :
  l1 `prefix_of` l2 → f <$> l1 `prefix_of` f <$> l2.
Proof. intros [k ->]. rewrite fmap_app. by eexists. Qed.

Lemma build_prefix a1 a2 w1 w2 split1 split2 w1' w2' :
  constructors_reseed → sample_reads_draws →
  raw a1 = raw a2 → y a1 = y a2 →
  pre_filter a1 = pre_filter a2 → pre_transform a1 = pre_transform a2 →
  num a1 ≤ num a2 →
  build a1 w1 = Some (split1, w1') →
  build a2 w2 = Some (split2, w2') →
  split1 `prefix_of` split2.
Proof.
  intros Hre Hsa Hraw Hy Hf Ht Hle. unfold build. rewrite Hf, Ht.
  destruct (get_cora_dataset a1 w1) as [[d1 v1]|] eqn:Hg1; [|done].
  destruct (get_cora_dataset a2 w2) as [[d2 v2]|] eqn:Hg2; [|done].
  pose proof (get_cora_dataset_prefix a1 a2 w1 w2 d1 d2 v1 v2 Hre Hsa Hraw Hy Hle Hg1 Hg2)
    as ->.
  cbn. intros ? ?. simplify_eq. unfold collate.
  assert (take (num a1) d2 `prefix_of` d2) as Hpre by apply prefix_take.
  destruct (pre_filter a2) as [keep|], (pre_transform a2) as [f|];
    repeat first [apply prefix_fmap | apply prefix_filter]; done.
Qed.
End dataset_facts.

Section dataset_properties.
Context `{SamplerLib} `{Pickle}.
Import CoraDataset.

Lemma build_Some_download a w r :
  build a w = Some r → is_Some (download_cora (raw a) (y a)).
Proof.
  unfold build, get_cora_dataset.
  destruct (download_cora (raw a) (y a)); [by eexists|done].
Qed.

(** X8: a construction that finds a processed file missing, with no
    [pre_filter] and a positive [num] (torch_geometric's [collate] raises
    on an empty list), returns a dataset of exactly [num] samples, every
    one with [y = None] when there is no [pre_transform] either;
    [process] has run once and the file of the stage loads to the
    returned samples. *)
Theorem fresh_construction_holds_num_samples a sys d sys' :
  files_exist (processed_paths a) (sys_fs sys) = false →
  pre_filter a = None → 0 < num a →
  init a sys = Some (d, sys') →
  length (data_slices d) = num a ∧
  (pre_transform a = None → Forall (λ x, d_y x = None) (data_slices d)) ∧
  process_calls sys' = S (process_calls sys) ∧
  ∃ path, stage_path a = Some path ∧
          torch_load path (sys_fs sys') = Some (data_slices d).
Proof.
  intros Hex Hf Hnum Hinit.
  destruct (init_rebuilds_inv a sys d sys' Hex Hinit) as (w' & path & Hb & Hp & _ & ->).
  destruct (build_unfiltered a _ _ _ Hf Hb) as [Hlen Hy].
  split_and!; [done|done|done|]. exists path. split; [done|]. cbn.
  unfold torch_load. rewrite lookup_insert_eq. cbn. apply loads_dumps.
Qed.

(** X9: with all three processed files in place, what a construction
    returns is read from the stage's file alone: a construction with
    another [num], [pre_filter], [pre_transform] or downloaded graph, for
    the same root and stage, returns the same samples, and the machine is
    left as it was. *)
Theorem complete_cache_ignores_arguments a a' sys d sys' :
  files_exist (processed_paths a) (sys_fs sys) = true →
  init a sys = Some (d, sys') →
  root a' = root a → stage a' = stage a →
  is_Some (download_cora (raw a') (y a')) →
  sys' = sys ∧ init a' sys = Some (mkDataset a' (data_slices d), sys).
Proof.
  intros Hex Hinit Hroot Hstage [g Hg].
  destruct (init_cached_inv a sys d sys' Hex Hinit) as (path & _ & Hp & Hl & _ & ->).
  split; [done|]. apply (init_cached a' sys g path); [done| | |done].
  - unfold processed_paths in *. by rewrite Hroot.
  - unfold stage_path, processed_paths in *. by rewrite Hroot, Hstage.
Qed.

(** X10: on a root without processed files, constructing the three stages
    one after the other, in any order, runs [process] three times; from
    then on a construction of any of them runs no [process] and returns
    the samples its first construction built. *)
Theorem three_stages_complete_the_cache a sys s1 s2 s3 d1 d2 d3 sys1 sys2 sys3 :
  NoDup [s1; s2; s3] →
  (∀ p, p ∈ processed_paths a → sys_fs sys !! p = None) →
  init (with_stage a s1) sys = Some (d1, sys1) →
  init (with_stage a s2) sys1 = Some (d2, sys2) →
  init (with_stage a s3) sys2 = Some (d3, sys3) →
  process_calls sys3 = 3 + process_calls sys ∧
  init (with_stage a s1) sys3 = Some (d1, sys3) ∧
  init (with_stage a s2) sys3 = Some (d2, sys3) ∧
  init (with_stage a s3) sys3 = Some (d3, sys3).
Proof.
  intros Hnd Hfresh Hi1 Hi2 Hi3.
  apply NoDup_cons in Hnd as [Hn1 Hnd]. apply NoDup_cons in Hnd as [Hn2 _].
  assert (s1 ≠ s2 ∧ s1 ≠ s3 ∧ s2 ≠ s3) as (H12 & H13 & H23).
  { split_and!; intros ->;
      [apply Hn1|apply Hn1|apply Hn2]; repeat constructor. }
  clear Hn1 Hn2.
  destruct (stage_path_is_Some (with_stage a s1)) as [p1 Hp1].
  destruct (stage_path_is_Some (with_stage a s2)) as [p2 Hp2].
  destruct (stage_path_is_Some (with_stage a s3)) as [p3 Hp3].
  assert (p1 ≠ p2 ∧ p1 ≠ p3 ∧ p2 ≠ p3) as (Hq12 & Hq13 & Hq23).
  { split_and!; intros ->;
      [apply H12|apply H13|apply H23]; by eapply stage_path_inj. }
  assert (∀ s p, stage_path (with_stage a s) = Some p → sys_fs sys !! p = None)
    as Hnone.
  { intros s p Hp. apply Hfresh. apply stage_path_elem in Hp.
    by rewrite processed_paths_with_stage in Hp. }
  assert (∀ (fs : FS) s p, stage_path (with_stage a s) = Some p → fs !! p = None →
            ∀ s', files_exist (processed_paths (with_stage a s')) fs = false) as Hmiss.
  { intros fs s p Hp Hfs s'. apply not_true_iff_false.
    rewrite processed_paths_with_stage. intros Hall.
    destruct (proj1 (files_exist_processed_paths a fs) Hall s) as (p' & Hp' & Hsome).
    simplify_eq.
    rewrite Hfs in Hsome. by destruct Hsome. }
  destruct (init_rebuilds_inv (with_stage a s1) sys d1 sys1)
    as (w1 & q1 & Hb1 & Hq1 & Hd1 & Hs1);
    [by apply (Hmiss _ s1 p1), (Hnone s1)|done|].
  assert (q1 = p1) as -> by congruence.
  assert (sys_fs sys1 = <[p1:=dumps (data_slices d1)]> (sys_fs sys)) as Hfs1
    by (by rewrite Hs1).
  assert (process_calls sys1 = S (process_calls sys)) as Hc1 by (by rewrite Hs1).
  clear Hs1.
  destruct (init_rebuilds_inv (with_stage a s2) sys1 d2 sys2)
    as (w2 & q2 & Hb2 & Hq2 & Hd2 & Hs2); [|done|].
  { apply (Hmiss _ s3 p3 Hp3). rewrite Hfs1, lookup_insert_ne by done.
    by apply (Hnone s3). }
  assert (q2 = p2) as -> by congruence.
  assert (sys_fs sys2 = <[p2:=dumps (data_slices d2)]> (sys_fs sys1)) as Hfs2
    by (by rewrite Hs2).
  assert (process_calls sys2 = S (process_calls sys1)) as Hc2 by (by rewrite Hs2).
  clear Hs2.
  destruct (init_rebuilds_inv (with_stage a s3) sys2 d3 sys3)
    as (w3 & q3 & Hb3 & Hq3 & Hd3 & Hs3); [|done|].
  { apply (Hmiss _ s3 p3 Hp3). rewrite Hfs2, Hfs1, !lookup_insert_ne by done.
    by apply (Hnone s3). }
  assert (q3 = p3) as -> by congruence.
  assert (sys_fs sys3 = <[p3:=dumps (data_slices d3)]> (sys_fs sys2)) as Hfs3
    by (by rewrite Hs3).
  assert (process_calls sys3 = S (process_calls sys2)) as Hc3 by (by rewrite Hs3).
  clear Hs3.
  assert (sys_fs sys3 !! p1 = Some (dumps (data_slices d1))) as Hl1.
  { by rewrite Hfs3, Hfs2, Hfs1, !lookup_insert_ne, lookup_insert_eq by done. }
  assert (sys_fs sys3 !! p2 = Some (dumps (data_slices d2))) as Hl2.
  { by rewrite Hfs3, Hfs2, lookup_insert_ne, lookup_insert_eq by done. }
  assert (sys_fs sys3 !! p3 = Some (dumps (data_slices d3))) as Hl3.
  { by rewrite Hfs3, lookup_insert_eq. }
  assert (files_exist (processed_paths a) (sys_fs sys3) = true) as Hex.
  { apply files_exist_processed_paths. intros s.
    assert (s = s1 ∨ s = s2 ∨ s = s3) as [->|[->| ->]]
      by (destruct s, s1, s2, s3; tauto).
    - exists p1. by rewrite Hl1.
    - exists p2. by rewrite Hl2.
    - exists p3. by rewrite Hl3. }
  destruct (build_Some_download _ _ _ Hb1) as [g Hg].
  split; [lia|].
  split_and!.
  - etrans; [apply (init_cached _ sys3 g p1 (data_slices d1)); [done|done|done|]
            |by rewrite <-Hd1].
    unfold torch_load. rewrite Hl1. cbn. apply loads_dumps.
  - etrans; [apply (init_cached _ sys3 g p2 (data_slices d2)); [done|done|done|]
            |by rewrite <-Hd2].
    unfold torch_load. rewrite Hl2. cbn. apply loads_dumps.
  - etrans; [apply (init_cached _ sys3 g p3 (data_slices d3)); [done|done|done|]
            |by rewrite <-Hd3].
    unfold torch_load. rewrite Hl3. cbn. apply loads_dumps.
Qed.

(** X11: when the sampler constructors reseed the generators and
    [sample] draws from them only, two freshly built splits of the same
    downloaded graph hold the same samples as far as the shorter one goes,
    whatever their stages, roots and the generator states: the smaller
    split is a prefix of the larger, and equal [num] gives equal splits. *)
Theorem stage_splits_share_samples a1 a2 sys1 sys2 d1 d2 sys1' sys2' :
  constructors_reseed → sample_reads_draws →
  raw a1 = raw a2 → y a1 = y a2 →
  pre_filter a1 = pre_filter a2 → pre_transform a1 = pre_transform a2 →
  num a1 ≤ num a2 →
  files_exist (processed_paths a1) (sys_fs sys1) = false →
  files_exist (processed_paths a2) (sys_fs sys2) = false →
  init a1 sys1 = Some (d1, sys1') → init a2 sys2 = Some (d2, sys2') →
  data_slices d1 `prefix_of` data_slices d2 ∧
  (num a1 = num a2 → data_slices d1 = data_slices d2).
Proof.
  intros Hre Hsa Hraw Hy Hf Ht Hle Hex1 Hex2 Hi1 Hi2.
  destruct (init_rebuilds_inv a1 sys1 d1 sys1' Hex1 Hi1) as (w1 & q1 & Hb1 & _).
  destruct (init_rebuilds_inv a2 sys2 d2 sys2' Hex2 Hi2) as (w2 & q2 & Hb2 & _).
  assert (data_slices d1 `prefix_of` data_slices d2) as Hp12.
  { by apply (build_prefix a1 a2 (sys_world sys1) (sys_world sys2) _ _ w1 w2). }
  split; [done|]. intros Hnum.
  assert (data_slices d2 `prefix_of` data_slices d1) as Hp21.
  { apply (build_prefix a2 a1 (sys_world sys2) (sys_world sys1) _ _ w2 w1);
      [done|done|done|done|done|done|lia|done|done]. }
  by apply (anti_symm prefix).
Qed.

End dataset_properties.

Section closed_dataset_lemmas.
Import Demo CoraDataset.
#[local] Existing Instances random_lib sampler_lib pickle.

Lemma sys0_fresh s :
  files_exist (processed_paths (with_stage args0 s)) (sys_fs sys0) = false.
Proof. vm_compute. reflexivity. Qed.

Lemma fresh_construction_holds_num_samples_witness :
  ∃ d sys',
    init args0 sys0 = Some (d, sys') ∧
    length (data_slices d) = 2 ∧
    (pre_transform args0 = None → Forall (λ x, d_y x = None) (data_slices d)) ∧
    process_calls sys' = 1 ∧
    ∃ path, stage_path args0 = Some path ∧
            torch_load path (sys_fs sys') = Some (data_slices d).
Proof.
  assert (is_Some (init args0 sys0)) as [[d sys'] Hinit]
    by (vm_compute; eexists; reflexivity).
  exists d, sys'. split; [exact Hinit|].
  apply (fresh_construction_holds_num_samples args0 sys0 d sys').
  - exact (sys0_fresh train).
  - reflexivity.
  - cbn. lia.
  - exact Hinit.
Defined.

Lemma complete_cache_ignores_arguments_witness :
  ∃ d, init args0 sys_complete = Some (d, sys_complete) ∧
       init args_other sys_complete
       = Some (mkDataset args_other (data_slices d), sys_complete).
Proof.
  assert (is_Some (init args0 sys_complete)) as [[d sys'] Hinit]
    by (vm_compute; eexists; reflexivity).
  assert (files_exist (processed_paths args0) (sys_fs sys_complete) = true) as Hex
    by (vm_compute; reflexivity).
  assert (is_Some (download_cora (raw args_other) (y args_other))) as Hdl
    by (vm_compute; eexists; reflexivity).
  destruct (complete_cache_ignores_arguments args0 args_other sys_complete d sys'
              Hex Hinit eq_refl eq_refl Hdl) as [Hsys Hother].
  exists d. rewrite Hsys in Hinit. exact (conj Hinit Hother).
Defined.

Lemma three_stages_complete_the_cache_witness :
  ∃ d1 d2 d3 sys3,
    process_calls sys3 = 3 ∧
    init (with_stage args0 val) sys3 = Some (d1, sys3) ∧
    init (with_stage args0 train) sys3 = Some (d2, sys3) ∧
    init (with_stage args0 test) sys3 = Some (d3, sys3).
Proof.
  assert (is_Some three_stage_run) as [[[[d1 sys1] [d2 sys2]] [d3 sys3]] Hrun]
    by (vm_compute; eexists; reflexivity).
  unfold three_stage_run in Hrun. cbv zeta in Hrun.
  apply bind_Some in Hrun as ([d1' sys1'] & Hi1 & Hrun).
  apply bind_Some in Hrun as ([d2' sys2'] & Hi2 & Hrun).
  apply bind_Some in Hrun as ([d3' sys3'] & Hi3 & Hrun).
  injection Hrun as -> -> -> -> -> ->.
  exists d1, d2, d3, sys3.
  apply (three_stages_complete_the_cache args0 sys0 val train test
           d1 d2 d3 sys1 sys2 sys3).
  - apply (bool_decide_unpack (NoDup [val; train; test])). vm_compute. exact I.
  - intros p Hp. apply lookup_empty.
  - exact Hi1.
  - exact Hi2.
  - exact Hi3.
Defined.

Lemma stage_splits_share_samples_witness :
  ∃ d1 d2 sys1 sys2,
    init args0 sys0 = Some (d1, sys1) ∧
    init (with_stage args0 val) sys0 = Some (d2, sys2) ∧
    data_slices d1 `prefix_of` data_slices d2 ∧
    (num args0 = num (with_stage args0 val) → data_slices d1 = data_slices d2).
Proof.
  assert (is_Some (init args0 sys0)) as [[d1 sys1] Hi1]
    by (vm_compute; eexists; reflexivity).
  assert (is_Some (init (with_stage args0 val) sys0)) as [[d2 sys2] Hi2]
    by (vm_compute; eexists; reflexivity).
  exists d1, d2, sys1, sys2. split; [exact Hi1|]. split; [exact Hi2|].
  apply (stage_splits_share_samples args0 (with_stage args0 val) sys0 sys0
           d1 d2 sys1 sys2).
  - exact demo_constructors_reseed.
  - exact demo_sample_reads_draws.
  - reflexivity.
  - reflexivity.
  - reflexivity.
  - reflexivity.
  - cbn. lia.
  - exact (sys0_fresh train).
  - exact (sys0_fresh val).
  - exact Hi1.
  - exact Hi2.
Defined.

End closed_dataset_lemmas.

(** ** Restoring a saved configuration *)

Module ConfigFacts.
Section ConfigFacts.
Context {V : Type}.
Import Config.
Implicit Types (o : gmap string V) (w : gmap string (Entry V)).

Lemma cfg_loop_Some w o keys o' :
  cfg_loop w o keys = Some o' →
  ∀ k, o' !! k = if decide (k ∈ keys) then restored w o k else o !! k.
Proof.
  revert o. induction keys as [|key rest IH]; intros o; cbn.
  - intros [= <-] k. by rewrite decide_False by apply not_elem_of_nil.
  - unfold cfg_step at 1. destruct (w !! key) as [e|] eqn:Hw; cbn.
    + destruct (entry_value e) as [v|] eqn:He; [|done]. cbn.
      intros Hloop k. rewrite (IH _ Hloop k). unfold restored.
      destruct (decide (k = key)) as [->|Hne].
      * rewrite (decide_True (P := key ∈ key :: rest)) by left.
        rewrite Hw, He. case_decide; [done|]. by rewrite lookup_insert_eq.
      * rewrite lookup_insert_ne by done.
        destruct (decide (k ∈ rest)) as [Hin|Hnin].
        -- rewrite decide_True by (by right). done.
        -- rewrite decide_False; [done|]. by intros [?|?]%elem_of_cons.
    + intros Hloop k. rewrite (IH _ Hloop k). unfold restored.
      destruct (decide (k = key)) as [->|Hne].
      * rewrite (decide_True (P := key ∈ key :: rest)) by left.
        rewrite Hw. by case_decide.
      * destruct (decide (k ∈ rest)) as [Hin|Hnin].
        -- rewrite decide_True by (by right). done.
        -- rewrite decide_False; [done|]. by intros [?|?]%elem_of_cons.
Qed.

Lemma cfg_loop_None w o keys :
  cfg_loop w o keys = None ↔
  ∃ k e, k ∈ keys ∧ w !! k = Some e ∧ entry_value e = None.
Proof.
  revert o. induction keys as [|key rest IH]; intros o; cbn.
  - split; [done|]. by intros (k & e & ?%elem_of_nil & _).
  - unfold cfg_step at 1. destruct (w !! key) as [e|] eqn:Hw; cbn.
    + destruct (entry_value e) as [v|] eqn:He; cbn.
      * rewrite IH. split.
        -- intros (k & e' & ? & ? & ?). exists k, e'. split; [by right|done].
        -- intros (k & e' & [->|?]%elem_of_cons & Hk & He').
           ++ congruence.
           ++ by exists k, e'.
      * split; [|done]. intros _. exists key, e. split; [by left|done].
    + rewrite IH. split.
      * intros (k & e' & ? & ? & ?). exists k, e'. split; [by right|done].
      * intros (k & e' & [->|?]%elem_of_cons & Hk & He').
        -- congruence.
        -- by exists k, e'.
Qed.

Lemma elem_of_original_keys o k :
  k ∈ (map_to_list o).*1 ↔ is_Some (o !! k).
Proof.
  rewrite list_elem_of_fmap. split.
  - intros ([k' v] & -> & Hin). apply elem_of_map_to_list in Hin. by eexists.
  - intros [v Hv]. exists (k, v). split; [done|]. by apply elem_of_map_to_list.
Qed.

Lemma wandb_cfg_to_actual_cfg_lookup o w o' :
  wandb_cfg_to_actual_cfg o w = Some o' →
  ∀ k, o' !! k = match o !! k with Some _ => restored w o k | None => None end.
Proof.
  intros Hloop k. unfold wandb_cfg_to_actual_cfg in Hloop. cbn zeta in Hloop.
  rewrite (cfg_loop_Some _ _ _ _ Hloop k).
  destruct (o !! k) as [v|] eqn:Hk.
  - rewrite decide_True; [done|]. apply elem_of_original_keys. by eexists.
  - rewrite decide_False; [done|]. rewrite elem_of_original_keys, Hk.
    by intros [? ?].
Qed.

Lemma wandb_cfg_to_actual_cfg_None o w :
  wandb_cfg_to_actual_cfg o w = None ↔
  ∃ k e, is_Some (o !! k) ∧ w !! k = Some e ∧ entry_value e = None.
Proof.
  unfold wandb_cfg_to_actual_cfg. cbn zeta. rewrite cfg_loop_None.
  by setoid_rewrite elem_of_original_keys.
Qed.
End ConfigFacts.
End ConfigFacts.

(** X13: when [wandb_cfg_to_actual_cfg] returns, the configuration has
    the keys it had before and no others; a key the saved configuration
    has too holds the saved ['value'], any other key keeps its value; and
    a second application changes nothing. *)
Theorem wandb_cfg_restores_shared_keys {V : Type}
    (original_cfg cfg : gmap string V) (wandb_cfg : gmap string (Config.Entry V)) :
  Config.wandb_cfg_to_actual_cfg original_cfg wandb_cfg = Some cfg →
  (∀ k, is_Some (cfg !! k) ↔ is_Some (original_cfg !! k)) ∧
  (∀ k v e, original_cfg !! k = Some v → wandb_cfg !! k = Some e →
            cfg !! k = Config.entry_value e) ∧
  (∀ k, wandb_cfg !! k = None → cfg !! k = original_cfg !! k) ∧
  Config.wandb_cfg_to_actual_cfg cfg wandb_cfg = Some cfg.
Proof.
  intros Hcfg.
  pose proof (ConfigFacts.wandb_cfg_to_actual_cfg_lookup _ _ _ Hcfg) as Hlook.
  assert (∀ k e, is_Some (original_cfg !! k) → wandb_cfg !! k = Some e →
                 is_Some (Config.entry_value e)) as Hval.
  { intros k e Hk Hw. destruct (Config.entry_value e) as [v|] eqn:He; [by eexists|].
    assert (Config.wandb_cfg_to_actual_cfg original_cfg wandb_cfg = None) as Hnone
      by (apply ConfigFacts.wandb_cfg_to_actual_cfg_None; by exists k, e).
    congruence. }
  assert (∀ k, is_Some (cfg !! k) ↔ is_Some (original_cfg !! k)) as Hdom.
  { intros k. rewrite Hlook. unfold restored.
    destruct (original_cfg !! k) as [v|] eqn:Hk.
    - split; [by eexists|]. intros _.
      destruct (wandb_cfg !! k) as [e|] eqn:Hw; [|by eexists].
      apply (Hval k e); [by eexists|done].
    - split; by intros [? ?]. }
  split_and!.
  - done.
  - intros k v e Hk Hw. rewrite Hlook, Hk. unfold restored. by rewrite Hw.
  - intros k Hw. rewrite Hlook. unfold restored. rewrite Hw.
    by destruct (original_cfg !! k).
  - destruct (Config.wandb_cfg_to_actual_cfg cfg wandb_cfg) as [cfg2|] eqn:H2.
    + f_equal. apply map_eq. intros k.
      rewrite (ConfigFacts.wandb_cfg_to_actual_cfg_lookup _ _ _ H2 k).
      unfold restored.
      destruct (cfg !! k) as [v|] eqn:Hk; [|done].
      destruct (wandb_cfg !! k) as [e|] eqn:Hw; [|done].
      rewrite <-Hk, Hlook. unfold restored. rewrite Hw.
      destruct (original_cfg !! k) eqn:Ho; [done|].
      assert (is_Some (cfg !! k)) as Hs by (by eexists).
      apply Hdom in Hs. rewrite Ho in Hs. by destruct Hs.
    + apply ConfigFacts.wandb_cfg_to_actual_cfg_None in H2 as (k & e & Hk & Hw & He).
      apply Hdom in Hk. destruct (Hval k e Hk Hw) as [v Hv]. congruence.
Qed.

Lemma wandb_cfg_restores_shared_keys_witness :
  let cfg : gmap string Z := {[ ("seed" : string) := 1%Z; ("lr" : string) := 5%Z ]} in
  Config.wandb_cfg_to_actual_cfg cfg_run cfg_saved = Some cfg ∧
  (∀ k, is_Some (cfg !! k) ↔ is_Some (cfg_run !! k)) ∧
  (∀ k v e, cfg_run !! k = Some v → cfg_saved !! k = Some e →
            cfg !! k = Config.entry_value e) ∧
  (∀ k, cfg_saved !! k = None → cfg !! k = cfg_run !! k) ∧
  Config.wandb_cfg_to_actual_cfg cfg cfg_saved = Some cfg.
Proof.
  cbv zeta.
  assert (Config.wandb_cfg_to_actual_cfg cfg_run cfg_saved
          = Some {[ ("seed" : string) := 1%Z; ("lr" : string) := 5%Z ]}) as Hrun
    by (vm_compute; reflexivity).
  split; [exact Hrun|].
  apply (wandb_cfg_restores_shared_keys cfg_run _ cfg_saved Hrun).
Defined.

(** X14: [wandb_cfg_to_actual_cfg] raises exactly when some key of the
    run's configuration has an entry in the saved one that holds no
    ['value']: a dictionary without that key, or a plain value.  Entries
    for keys the run does not have are never looked at. *)
Theorem wandb_cfg_fails_iff {V : Type}
    (original_cfg : gmap string V) (wandb_cfg : gmap string (Config.Entry V)) :
  Config.wandb_cfg_to_actual_cfg original_cfg wandb_cfg = None ↔
  ∃ k e, is_Some (original_cfg !! k) ∧ wandb_cfg !! k = Some e ∧
         Config.entry_value e = None.
Proof. apply ConfigFacts.wandb_cfg_to_actual_cfg_None. Qed.

(** ** From tensors back to a graph *)

Section to_nx_facts.

Lemma add_node_nodes n G x :
  x ∈ g_nodes (add_node n G) ↔ x ∈ g_nodes G ∨ x = n.
Proof.
  unfold add_node. case_decide; cbn.
  - split; [by left|]. by intros [?| ->].
  - rewrite elem_of_app, list_elem_of_singleton. done.
Qed.

Lemma add_node_edges n G : g_edges (add_node n G) = g_edges G.
Proof. unfold add_node. by case_decide. Qed.

Lemma add_node_NoDup n G : NoDup (g_nodes G) → NoDup (g_nodes (add_node n G)).
Proof.
  intros Hnd. unfold add_node. case_decide; [done|]. cbn.
  apply NoDup_app. split_and!; [done| |apply NoDup_singleton].
  intros x Hx ->%list_elem_of_singleton. done.
Qed.

Lemma add_node_prefix n G : g_nodes G `prefix_of` g_nodes (add_node n G).
Proof. unfold add_node. case_decide; [done|]. cbn. by eexists. Qed.

Lemma add_edge_nodes u v G x :
  x ∈ g_nodes (add_edge u v G) ↔ x ∈ g_nodes G ∨ x = u ∨ x = v.
Proof.
  unfold add_edge. cbn zeta. case_decide; cbn; rewrite !add_node_nodes; tauto.
Qed.

Lemma add_edge_edges u v G a b :
  (a, b) ∈ g_edges (add_edge u v G) ∨ (b, a) ∈ g_edges (add_edge u v G) ↔
  ((a, b) ∈ g_edges G ∨ (b, a) ∈ g_edges G) ∨
  (a = u ∧ b = v) ∨ (a = v ∧ b = u).
Proof.
  unfold add_edge. cbn zeta. rewrite !add_node_edges.
  case_decide as Hin; cbn [g_edges]; rewrite ?add_node_edges.
  - split; [by left|]. intros [?|[[-> ->]|[-> ->]]]; tauto.
  - rewrite !elem_of_app, !list_elem_of_singleton. split.
    + intros [[?|[= -> ->]]|[?|[= -> ->]]]; tauto.
    + intros [[?|?]|[[-> ->]|[-> ->]]]; tauto.
Qed.

Lemma add_edge_NoDup u v G : NoDup (g_nodes G) → NoDup (g_nodes (add_edge u v G)).
Proof.
  intros Hnd. unfold add_edge. cbn zeta.
  case_decide; cbn; by do 2 apply add_node_NoDup.
Qed.

Lemma add_edge_prefix u v G : g_nodes G `prefix_of` g_nodes (add_edge u v G).
Proof.
  unfold add_edge. cbn zeta.
  case_decide; cbn; (etrans; [apply add_node_prefix|apply add_node_prefix]).
Qed.

Lemma add_edge_simple u v G :
  simple_edges (g_edges G) → simple_edges (g_edges (add_edge u v G)).
Proof.
  intros [Hnd Hone]. unfold add_edge. cbn zeta. rewrite !add_node_edges.
  case_decide as Hin; cbn; rewrite ?add_node_edges; [done|].
  split.
  - apply NoDup_app. split_and!; [done| |apply NoDup_singleton].
    intros e He ->%list_elem_of_singleton. tauto.
  - intros a b. rewrite !elem_of_app, !list_elem_of_singleton.
    intros [Hab|[= -> ->]] Hne [Hba|[= Ha Hb]].
    + by apply (Hone a b).
    + subst. tauto.
    + tauto.
    + done.
Qed.

Lemma add_edge_wf u v G : wf_graph G → wf_graph (add_edge u v G).
Proof.
  intros [Hnd Hedges]. split; [by apply add_edge_NoDup|].
  rewrite Forall_forall in Hedges. apply Forall_forall. intros [a b] He. cbn.
  rewrite !add_edge_nodes.
  assert ((a, b) ∈ g_edges (add_edge u v G) ∨ (b, a) ∈ g_edges (add_edge u v G))
    as Hor by (by left).
  apply add_edge_edges in Hor as [[H1|H1]|[[-> ->]|[-> ->]]];
    [apply Hedges in H1..| |]; cbn in *; tauto.
Qed.

Lemma add_edges_from_spec edges G :
  let G' := add_edges_from edges G in
  (∀ x, x ∈ g_nodes G' ↔ x ∈ g_nodes G ∨ x ∈ edge_values edges) ∧
  (∀ a b, (a, b) ∈ g_edges G' ∨ (b, a) ∈ g_edges G' ↔
          ((a, b) ∈ g_edges G ∨ (b, a) ∈ g_edges G) ∨
          ((a, b) ∈ edges ∨ (b, a) ∈ edges)) ∧
  (wf_graph G → wf_graph G') ∧
  (simple_edges (g_edges G) → simple_edges (g_edges G')) ∧
  g_nodes G `prefix_of` g_nodes G'.
Proof.
  revert G. induction edges as [|[u v] edges IH]; intros G; cbn zeta.
  - cbn. split_and!; [|  |done|done|done].
    + intros x. split; [by left|]. by intros [?|?%elem_of_nil].
    + intros a b. split; [by left|]. by intros [?|[?%elem_of_nil|?%elem_of_nil]].
  - cbn [add_edges_from foldl]. fold (add_edges_from edges (add_edge u v G)).
    destruct (IH (add_edge u v G)) as (Hn & He & Hwf & Hs & Hp). cbn zeta in *.
    split_and!.
    + intros x. rewrite Hn, add_edge_nodes. cbn.
      rewrite !elem_of_cons. tauto.
    + intros a b. rewrite He, add_edge_edges, !elem_of_cons.
      split.
      * intros [[?|[[-> ->]|[-> ->]]]|[?|?]]; tauto.
      * intros [?|[[[= -> ->]|?]|[[= -> ->]|?]]]; tauto.
    + intros HG. by apply Hwf, add_edge_wf.
    + intros HG. by apply Hs, add_edge_simple.
    + etrans; [apply add_edge_prefix|done].
Qed.

Lemma add_isolated_spec edges n G :
  let G' := add_isolated edges n G in
  (∀ x, x ∈ g_nodes G' ↔ x ∈ g_nodes G ∨ (x < n ∧ x ∉ edge_values edges)) ∧
  g_edges G' = g_edges G ∧
  (NoDup (g_nodes G) → NoDup (g_nodes G')) ∧
  g_nodes G `prefix_of` g_nodes G'.
Proof.
  unfold add_isolated. cbn zeta. induction n as [|n IH].
  - cbn. split_and!; [|done..]. intros x. split; [by left|]. intros [?|[? _]]; [done|lia].
  - rewrite seq_S, foldl_app. cbn [foldl]. cbn [Nat.add].
    destruct IH as (Hn & He & Hnd & Hp).
    set (G1 := foldl _ G (seq 0 n)) in *. clearbody G1.
    case_decide as Hin.
    + split_and!; [|done..]. intros x. rewrite Hn. split.
      * intros [?|[? ?]]; [by left|right; split; [lia|done]].
      * intros [?|[Hlt ?]]; [by left|].
        destruct (decide (x = n)) as [->|]; [done|]. right. split; [lia|done].
    + split_and!.
      * intros x. rewrite add_node_nodes, Hn. split.
        -- intros [[?|[? ?]]| ->]; [by left|right; split; [lia|done]|right; split; [lia|done]].
        -- intros [?|[Hlt ?]]; [by left; left|].
           destruct (decide (x = n)) as [->|]; [by right|].
           left. right. split; [lia|done].
      * by rewrite add_node_edges.
      * intros HG. by apply add_node_NoDup, Hnd.
      * etrans; [done|apply add_node_prefix].
Qed.

Lemma first_column_length x labels :
  first_column x = Some labels → length labels = length x.
Proof. unfold first_column. intros Hm. symmetry. by eapply length_mapM. Qed.

Lemma simple_edges_double (es l : list (node * node)) :
  simple_edges es → NoDup l →
  (∀ a b, (a, b) ∈ l → a ≠ b) →
  (∀ a b, (a, b) ∈ l ↔ (a, b) ∈ es ∨ (b, a) ∈ es) →
  length l = 2 * length es.
Proof.
  intros [Hnd Hone] Hl Hloop Hiff.
  assert (l ≡ₚ es ++ ((λ e : node * node, (e.2, e.1)) <$> es)) as Hperm.
  { apply NoDup_Permutation; [done| |].
    - apply NoDup_app. split_and!; [done| |].
      + intros [a b] Hab ([b' a'] & Heq & Hba)%list_elem_of_fmap.
        cbn in Heq. injection Heq as Ha Hb. subst a' b'.
        assert (a ≠ b) as Hne by (apply Hloop, Hiff; by left).
        by apply (Hone a b).
      + apply NoDup_fmap_2; [|done]. by intros [a b] [a' b'] [= -> ->].
    - intros [a b]. rewrite Hiff, elem_of_app, list_elem_of_fmap. split.
      + intros [?|?]; [by left|right]. by exists (b, a).
      + intros [?|([b' a'] & Heq & ?)]; [by left|].
        cbn in Heq. injection Heq as Ha Hb. subst a' b'. by right. }
  rewrite Hperm, length_app, length_fmap. lia.
Qed.
End to_nx_facts.

Lemma better_to_nx_spec (data : TensorData) (g : Graph) (labels : list Z) :
  better_to_nx data = Some (g, labels) →
  length labels = length (td_x data) ∧
  wf_graph g ∧
  (∀ n, n ∈ g_nodes g ↔
        n < length (td_x data) ∨ n ∈ edge_values (td_edge_index data)) ∧
  (∀ u v, adjacent g u v ↔
          (u, v) ∈ td_edge_index data ∨ (v, u) ∈ td_edge_index data) ∧
  ((∀ n, n ∈ edge_values (td_edge_index data) → n < length (td_x data)) →
   g_nodes g ≡ₚ seq 0 (length (td_x data))).
Proof.
  unfold better_to_nx. cbn zeta.
  destruct (first_column (td_x data)) as [labels'|] eqn:Hcol; [|done]. cbn.
  intros [= <- <-]. apply first_column_length in Hcol. rewrite Hcol.
  destruct (add_edges_from_spec (td_edge_index data) (mkGraph [] []))
    as (Hn1 & He1 & Hwf1 & _ & _).
  cbn zeta in *.
  set (g1 := add_edges_from (td_edge_index data) (mkGraph [] [])) in *.
  destruct (add_isolated_spec (td_edge_index data) (length (td_x data)) g1)
    as (Hn2 & He2 & Hnd2 & _).
  cbn zeta in *.
  set (g2 := add_isolated (td_edge_index data) (length (td_x data)) g1) in *.
  assert (wf_graph g1) as [Hnd1 Hedges1].
  { apply Hwf1. split; [apply NoDup_nil_2|apply Forall_nil_2]. }
  assert (∀ n, n ∈ g_nodes g2 ↔
               n < length (td_x data) ∨ n ∈ edge_values (td_edge_index data))
    as Hnodes.
  { intros n. rewrite Hn2, Hn1. cbn. rewrite elem_of_nil.
    destruct (decide (n ∈ edge_values (td_edge_index data))); tauto. }
  split_and!.
  - done.
  - split; [by apply Hnd2|]. rewrite He2.
    eapply Forall_impl; [exact Hedges1|]. cbn. intros e [? ?].
    rewrite !Hn2. tauto.
  - done.
  - intros u v. unfold adjacent. rewrite elem_of_neighbors, He2, He1. cbn.
    rewrite !elem_of_nil. tauto.
  - intros Hsmall. apply NoDup_Permutation; [by apply Hnd2|apply NoDup_seq|].
    intros n. rewrite Hnodes, elem_of_seq. split; [|lia].
    intros [?|?%Hsmall]; lia.
Qed.

(** X15: the graph [better_to_nx] builds is well formed; its nodes are
    the row numbers of [x] together with every value in [edge_index], so a
    node without edges is kept; two nodes are joined exactly when
    [edge_index] has the pair in one direction or the other; and when
    [edge_index] names no node beyond the rows of [x], the graph has as
    many nodes as [x] has rows. *)
Theorem better_to_nx_graph (data : TensorData) (g : Graph) (labels : list Z) :
  better_to_nx data = Some (g, labels) →
  length labels = length (td_x data) ∧
  wf_graph g ∧
  (∀ n, n ∈ g_nodes g ↔
        n < length (td_x data) ∨ n ∈ edge_values (td_edge_index data)) ∧
  (∀ u v, adjacent g u v ↔
          (u, v) ∈ td_edge_index data ∨ (v, u) ∈ td_edge_index data) ∧
  ((∀ n, n ∈ edge_values (td_edge_index data) → n < length (td_x data)) →
   g_nodes g ≡ₚ seq 0 (length (td_x data))).
Proof. apply better_to_nx_spec. Qed.

Lemma better_to_nx_graph_witness :
  ∃ g labels,
    better_to_nx triangle_data = Some (g, labels) ∧
    length labels = length (td_x triangle_data) ∧
    wf_graph g ∧
    (∀ n, n ∈ g_nodes g ↔
          n < length (td_x triangle_data) ∨
          n ∈ edge_values (td_edge_index triangle_data)) ∧
    (∀ u v, adjacent g u v ↔
            (u, v) ∈ td_edge_index triangle_data ∨
            (v, u) ∈ td_edge_index triangle_data) ∧
    ((∀ n, n ∈ edge_values (td_edge_index triangle_data) →
           n < length (td_x triangle_data)) →
     g_nodes g ≡ₚ seq 0 (length (td_x triangle_data))).
Proof.
  assert (is_Some (better_to_nx triangle_data)) as [[g labels] Hg]
    by (vm_compute; eexists; reflexivity).
  exists g, labels. split; [exact Hg|].
  apply (better_to_nx_graph triangle_data g labels Hg).
Defined.

(** X16: every undirected edge is entered once.  For an [edge_index]
    that lists each edge in both directions, without repeats and without
    self-loops, the graph has half as many edges as [edge_index] has
    columns. *)
Theorem better_to_nx_halves_edge_count (data : TensorData) (g : Graph)
    (labels : list Z) :
  better_to_nx data = Some (g, labels) →
  NoDup (td_edge_index data) →
  (∀ u v, (u, v) ∈ td_edge_index data → u ≠ v ∧ (v, u) ∈ td_edge_index data) →
  length (td_edge_index data) = 2 * length (g_edges g).
Proof.
  unfold better_to_nx. cbn zeta.
  destruct (first_column (td_x data)) as [labels'|] eqn:Hcol; [|done]. cbn.
  intros [= <- <-] Hnd Hsym.
  destruct (add_edges_from_spec (td_edge_index data) (mkGraph [] []))
    as (_ & He1 & _ & Hs1 & _).
  cbn zeta in *.
  set (g1 := add_edges_from (td_edge_index data) (mkGraph [] [])) in *.
  destruct (add_isolated_spec (td_edge_index data) (length labels') g1)
    as (_ & -> & _ & _).
  apply simple_edges_double; [|done| |].
  - apply Hs1. split; [apply NoDup_nil_2|]. by intros ?? ?%elem_of_nil.
  - intros a b Hab. by apply Hsym.
  - intros a b. rewrite He1. cbn. rewrite !elem_of_nil. split.
    + intros ?. right. by left.
    + intros [[[]|[]]|[?|?%Hsym]]; tauto.
Qed.

Lemma better_to_nx_halves_edge_count_witness :
  ∃ g labels,
    better_to_nx triangle_data = Some (g, labels) ∧
    length (td_edge_index triangle_data) = 2 * length (g_edges g).
Proof.
  assert (is_Some (better_to_nx triangle_data)) as [[g labels] Hg]
    by (vm_compute; eexists; reflexivity).
  exists g, labels. split; [exact Hg|].
  apply (better_to_nx_halves_edge_count triangle_data g labels Hg).
  - apply (bool_decide_unpack (NoDup (td_edge_index triangle_data))).
    vm_compute. exact I.
  - intros u v Huv.
    assert (Forall (λ e : node * node,
                      e.1 ≠ e.2 ∧ (e.2, e.1) ∈ td_edge_index triangle_data)
                   (td_edge_index triangle_data)) as Hall.
    { apply (bool_decide_unpack _). vm_compute. exact I. }
    rewrite Forall_forall in Hall. exact (Hall (u, v) Huv).
Defined.

(** ** File names of pictures *)

Section name_facts.

Lemma app_String c (s t : string) : String c s +:+ t = String c (s +:+ t).
Proof. reflexivity. Qed.

Lemma app_empty (t : string) : EmptyString +:+ t = t.
Proof. reflexivity. Qed.

Lemma string_length_app (s t : string) :
  String.length (s +:+ t) = String.length s + String.length t.
Proof. induction s as [|c s IH]; [done|]. rewrite app_String. cbn. by rewrite IH. Qed.

Lemma string_drop_app (p s : string) : string_drop (String.length p) (p +:+ s) = s.
Proof. induction p as [|c p IH]; [by destruct s|]. rewrite app_String. cbn. exact IH. Qed.

Lemma string_take_app (s t : string) : string_take (String.length s) (s +:+ t) = s.
Proof. induction s as [|c s IH]; [done|]. rewrite app_String. cbn. by rewrite IH. Qed.

(** [(p + d + q)[len(p):-len(q)]] is [d]. *)
Lemma slice_middle (p d q : string) :
  slice (String.length p) (String.length q) (p +:+ d +:+ q) = d.
Proof.
  unfold slice. rewrite string_drop_app, !string_length_app.
  replace (String.length p + (String.length d + String.length q)
           - String.length q - String.length p) with (String.length d) by lia.
  apply string_take_app.
Qed.

Lemma split_on_nonempty sep s : split_on sep s ≠ [].
Proof.
  induction s as [|c s IH]; cbn; [done|]. case_decide; [done|].
  by destruct (split_on sep s).
Qed.

Lemma split_on_app sep (p s : string) :
  split_on sep (p +:+ String sep s) = split_on sep p ++ split_on sep s.
Proof.
  induction p as [|c p IH].
  - rewrite app_empty. cbn. by rewrite decide_True.
  - rewrite app_String. cbn. case_decide; [by rewrite IH|]. rewrite IH.
    pose proof (split_on_nonempty sep p). by destruct (split_on sep p).
Qed.

(** Decimal digits hold no slash. *)
Lemma split_on_digits (d : Decimal.uint) (t : string) :
  split_on "/" (NilEmpty.string_of_uint d +:+ t)
  = match split_on "/" t with
    | h :: r => (NilEmpty.string_of_uint d +:+ h) :: r
    | [] => []
    end.
Proof.
  pose proof (split_on_nonempty "/" t) as Hne.
  induction d as [|d IH|d IH|d IH|d IH|d IH|d IH|d IH|d IH|d IH|d IH];
    cbn [NilEmpty.string_of_uint];
    [rewrite app_empty; by destruct (split_on "/" t)|..];
    (rewrite app_String; cbn [split_on]; rewrite decide_False by done;
     rewrite IH; by destruct (split_on "/" t)).
Qed.

Lemma basename_name (pre post root : string) (i : nat) :
  split_on "/" pre = [pre] → split_on "/" post = [post] →
  last (split_on "/" (root +:+ "/" +:+ (pre +:+ str i +:+ post)))
  = Some (pre +:+ str i +:+ post).
Proof.
  intros Hpre Hpost.
  change (root +:+ "/" +:+ (pre +:+ str i +:+ post))
    with (root +:+ String "/" (pre +:+ str i +:+ post)).
  rewrite split_on_app, last_app.
  assert (split_on "/" (pre +:+ str i +:+ post) = [pre +:+ str i +:+ post]) as ->;
    [|done].
  clear root. unfold str.
  assert (split_on "/" (NilEmpty.string_of_uint (Nat.to_uint i) +:+ post)
          = [NilEmpty.string_of_uint (Nat.to_uint i) +:+ post]) as Hmid.
  { by rewrite split_on_digits, Hpost. }
  revert Hpre Hmid. generalize (NilEmpty.string_of_uint (Nat.to_uint i) +:+ post).
  intros s. induction pre as [|c pre IH]; [done|].
  rewrite app_String. cbn [split_on]. case_decide; [done|].
  pose proof (split_on_nonempty "/" pre) as Hne.
  destruct (split_on "/" pre) as [|h [|h' r]] eqn:Hs; [done| |done].
  intros [= Hh] Hmid. rewrite IH; [done|by rewrite Hh|done].
Qed.

Lemma str_nonempty i : str i ≠ EmptyString.
Proof.
  unfold str. intros Hs.
  pose proof (NilEmpty.usu (Nat.to_uint i)) as Husu. rewrite Hs in Husu.
  cbn in Husu. injection Husu as Hnil.
  pose proof (Unsigned.of_to i) as Hof. rewrite <-Hnil in Hof. cbn in Hof.
  subst i. done.
Qed.

Lemma py_int_str i : py_int (str i) = Some i.
Proof.
  unfold py_int. rewrite decide_False by apply str_nonempty.
  unfold str. rewrite NilEmpty.usu. cbn. by rewrite Unsigned.of_to.
Qed.

Lemma file_number_name (pre post root : string) (i : nat) :
  split_on "/" pre = [pre] → split_on "/" post = [post] →
  String.length post = 4 →
  file_number (String.length pre) (root +:+ "/" +:+ (pre +:+ str i +:+ post))
  = Some i.
Proof.
  intros Hpre Hpost Hlen. unfold file_number.
  rewrite basename_name by done. cbn [mbind option_bind].
  rewrite <-Hlen, slice_middle. apply py_int_str.
Qed.

Lemma file_number_val root i :
  file_number 4 (root +:+ "/" +:+ val_name i) = Some i.
Proof. by apply (file_number_name "val-" ".png"). Qed.

Lemma file_number_view root i :
  file_number 5 (root +:+ "/" +:+ view_name i) = Some i.
Proof. by apply (file_number_name "view-" ".png"). Qed.

#[global] Instance val_name_inj : Inj (=) (=) val_name.
Proof.
  intros i j Heq. apply (inj Some).
  rewrite <-(file_number_val "" i), <-(file_number_val "" j). by rewrite Heq.
Qed.

#[global] Instance view_name_inj : Inj (=) (=) view_name.
Proof.
  intros i j Heq. apply (inj Some).
  rewrite <-(file_number_view "" i), <-(file_number_view "" j). by rewrite Heq.
Qed.
End name_facts.

(** X17: the number [run] reads back from a picture's path is the index
    the picture was saved under: [int(path.split('/')[-1][4:-4])] on a path
    ending in [/val-{i}.png], and the same with [[5:-4]] for
    [/view-{i}.png], give [i], whatever directory the path names; so two
    indices never share a file name. *)
Theorem picture_number_round_trip (root : string) (i j : nat) :
  file_number 4 (root +:+ "/" +:+ val_name i) = Some i ∧
  file_number 5 (root +:+ "/" +:+ view_name i) = Some i ∧
  (val_name i = val_name j → i = j) ∧
  (view_name i = view_name j → i = j).
Proof.
  split_and!.
  - apply file_number_val.
  - apply file_number_view.
  - apply (inj val_name).
  - apply (inj view_name).
Qed.

(** ** Saving pictures *)

Section vis_facts.
Context {Picture : Type} (render : TensorData → option Picture).
Context (name : nat → string) `{!Inj (=) (=) name}.
#[local] Abbreviation Dir := (Dir Picture).

Lemma skip_all_true num (existing : gset string) :
  skip_all name num existing = true ↔ ∀ i, i < num → name i ∈ existing.
Proof.
  unfold skip_all. rewrite forallb_forall. split.
  - intros Hall i Hi. eapply bool_decide_eq_true_1, Hall, list_elem_of_In, elem_of_seq. lia.
  - intros Hall i Hi%list_elem_of_In%elem_of_seq. apply bool_decide_eq_true_2, Hall. lia.
Qed.

Lemma vis_from_pyg_Some data f (dir dir' : Dir) :
  vis_from_pyg render data f dir = Some dir' →
  ∃ pic, render data = Some pic ∧ dir' = <[f := pic]> dir.
Proof.
  unfold vis_from_pyg. destruct (render data) as [pic|]; [|done].
  cbn. intros [= <-]. by exists pic.
Qed.

Lemma vis_loop_spec num (existing : gset string) i datas (dir dir' : Dir) ok :
  vis_loop render name num existing i datas dir = (dir', ok) →
  (∀ f, f ∈ existing ∨ (∀ j, j < length datas → i + j < num → f ≠ name (i + j)) →
        dir' !! f = dir !! f) ∧
  (∀ f, is_Some (dir' !! f) → is_Some (dir !! f) ∨
        ∃ j, j < length datas ∧ i + j < num ∧ f = name (i + j)) ∧
  (ok = true →
   ∀ j data, datas !! j = Some data → i + j < num → name (i + j) ∉ existing →
             is_Some (render data) ∧ dir' !! name (i + j) = render data).
Proof.
  revert i dir. induction datas as [|data rest IH]; intros i dir; cbn [vis_loop].
  - intros [= <- <-]. split_and!; [done|by left|]. intros _ j data' Hj. done.
  - case_decide as Hskip.
    + intros Hloop. destruct (IH _ _ Hloop) as (Hkeep & Hnew & Hpic).
      split_and!.
      * intros f Hf. apply Hkeep. destruct Hf as [?|Hf]; [by left|right].
        intros j Hj Hn. replace (S i + j) with (i + S j) by lia.
        apply Hf; cbn; lia.
      * intros f Hf. destruct (Hnew f Hf) as [?|(j & ? & ? & ->)]; [by left|right].
        exists (S j). cbn. split_and!; [lia|lia|f_equal; lia].
      * intros Hok [|j] data' Hj Hn Hex; cbn in Hj.
        -- exfalso. rewrite Nat.add_0_r in Hn, Hex. destruct Hskip; [lia|done].
        -- replace (i + S j) with (S i + j) in * by lia. by apply Hpic.
    + destruct (vis_from_pyg render data (name i) dir) as [dir1|] eqn:Hvis.
      * apply vis_from_pyg_Some in Hvis as (pic & Hpic1 & ->).
        intros Hloop. destruct (IH _ _ Hloop) as (Hkeep & Hnew & Hpic).
        split_and!.
        -- intros f Hf. rewrite Hkeep.
           ++ apply lookup_insert_ne. intros <-. destruct Hf as [?|Hf].
              ** apply Hskip. by right.
              ** apply (Hf 0); cbn; [lia|lia|f_equal; lia].
           ++ destruct Hf as [?|Hf]; [by left|right].
              intros j Hj Hn. replace (S i + j) with (i + S j) by lia.
              apply Hf; cbn; lia.
        -- intros f Hf. destruct (Hnew f Hf) as [Hin|(j & ? & ? & ->)].
           ++ destruct (decide (f = name i)) as [->|Hne].
              ** right. exists 0. cbn. split_and!; [lia|lia|f_equal; lia].
              ** left. by rewrite lookup_insert_ne in Hin.
           ++ right. exists (S j). cbn. split_and!; [lia|lia|f_equal; lia].
        -- intros Hok [|j] data' Hj Hn Hex; cbn in Hj.
           ++ injection Hj as <-. rewrite Nat.add_0_r. split; [by eexists|].
              rewrite Hkeep, lookup_insert_eq; [done|]. right.
              intros j _ _ Heq. apply (inj name) in Heq. lia.
           ++ replace (i + S j) with (S i + j) in * by lia. by apply Hpic.
      * intros [= <- <-]. split_and!; [done|by left|done].
Qed.

Lemma vis_files_spec num loader (sub : option Dir) (dir' : Dir) ok :
  vis_files render name num loader sub = (dir', ok) →
  (∀ f pic, default ∅ sub !! f = Some pic → dir' !! f = Some pic) ∧
  (∀ f, is_Some (dir' !! f) → is_Some (default ∅ sub !! f) ∨
        ∃ i, i < num ∧ i < length loader ∧ f = name i) ∧
  (ok = true →
   ∀ i data, i < num → loader !! i = Some data →
     is_Some (dir' !! name i) ∧
     (default ∅ sub !! name i = None →
      is_Some (render data) ∧ dir' !! name i = render data)).
Proof.
  unfold vis_files. cbn zeta. set (dir := default ∅ sub).
  destruct (skip_all name num (dom dir)) eqn:Hskip.
  - intros [= <- <-]. rewrite skip_all_true in Hskip.
    split_and!; [done|by left|].
    intros _ i data Hi Hdata. specialize (Hskip i Hi).
    apply elem_of_dom in Hskip. split; [done|].
    intros Hnone. rewrite Hnone in Hskip. by destruct Hskip.
  - intros Hloop. apply vis_loop_spec in Hloop as (Hkeep & Hnew & Hpic).
    split_and!.
    + intros f pic Hf. rewrite Hkeep; [done|]. left. apply elem_of_dom. by eexists.
    + intros f Hf. destruct (Hnew f Hf) as [?|(j & ? & ? & ->)]; [by left|right].
      exists j. done.
    + intros Hok i data Hi Hdata.
      destruct (dir !! name i) as [pic|] eqn:Hdir.
      * split; [|done]. rewrite (Hkeep (name i)); [by rewrite Hdir|].
        left. apply elem_of_dom. by eexists.
      * destruct (Hpic Hok i data Hdata Hi) as [Hsome Heq].
        { by apply not_elem_of_dom. }
        cbn in Heq. split; [by rewrite Heq|done].
Qed.

Lemma vis_loop_nothing_to_do num (existing : gset string) i datas (dir : Dir) :
  (∀ j, j < length datas → i + j < num → name (i + j) ∈ existing) →
  vis_loop render name num existing i datas dir = (dir, true).
Proof.
  revert i. induction datas as [|data rest IH]; intros i Hall; cbn [vis_loop]; [done|].
  rewrite decide_True.
  - apply IH. intros j Hj Hn. replace (S i + j) with (i + S j) by lia.
    apply Hall; cbn; lia.
  - destruct (decide (num ≤ i)); [by left|right].
    rewrite <-(Nat.add_0_r i). apply Hall; cbn; lia.
Qed.

Lemma vis_files_nothing_to_do num loader (dir : Dir) :
  (∀ i, i < num → i < length loader → is_Some (dir !! name i)) →
  vis_files render name num loader (Some dir) = (dir, true).
Proof.
  intros Hall. unfold vis_files. cbn.
  destruct (skip_all name num (dom dir)); [done|].
  apply vis_loop_nothing_to_do. intros j Hj Hn. apply elem_of_dom.
  apply Hall; lia.
Qed.

Lemma vis_files_again num loader loader' (sub : option Dir) (dir' : Dir) :
  vis_files render name num loader sub = (dir', true) →
  num ≤ length loader ∨ length loader' ≤ length loader →
  vis_files render name num loader' (Some dir') = (dir', true).
Proof.
  intros Hvis Hlen. apply vis_files_spec in Hvis as (_ & _ & Hpic).
  apply vis_files_nothing_to_do. intros i Hi Hi'.
  destruct (lookup_lt_is_Some_2 loader i) as [data Hdata]; [lia|].
  by destruct (Hpic eq_refl i data Hi Hdata).
Qed.
End vis_facts.

(** X18: [vis_vals] and [vis_views] never replace a picture that is
    already there, and create none but the [val-{i}.png] (or
    [view-{i}.png]) with [i] below both [num] and the number of samples.
    When the call returns, each of these exists; one that was missing
    before shows the sample at position [i]. *)
Theorem vis_files_write_missing_pictures {Picture : Type}
    (render : TensorData → option Picture)
    (vis : nat → list TensorData → option (Dir Picture) → Dir Picture * bool)
    (name : nat → string)
    (num : nat) (loader : list TensorData) (sub : option (Dir Picture))
    (dir' : Dir Picture) (ok : bool) :
  (vis = vis_vals render ∧ name = val_name) ∨
  (vis = vis_views render ∧ name = view_name) →
  vis num loader sub = (dir', ok) →
  (∀ f pic, default ∅ sub !! f = Some pic → dir' !! f = Some pic) ∧
  (∀ f, is_Some (dir' !! f) → is_Some (default ∅ sub !! f) ∨
        ∃ i, i < num ∧ i < length loader ∧ f = name i) ∧
  (ok = true →
   ∀ i data, i < num → loader !! i = Some data →
     is_Some (dir' !! name i) ∧
     (default ∅ sub !! name i = None →
      is_Some (render data) ∧ dir' !! name i = render data)).
Proof.
  intros [[-> ->]|[-> ->]] Hvis.
  - by apply (vis_files_spec render val_name).
  - by apply (vis_files_spec render view_name).
Qed.

Lemma vis_files_write_missing_pictures_witness :
  ∃ dir',
    vis_vals graph_of 5 [triangle_data; triangle_data] None = (dir', true) ∧
    (∀ f pic, (∅ : Dir Graph) !! f = Some pic → dir' !! f = Some pic) ∧
    (∀ f, is_Some (dir' !! f) → is_Some ((∅ : Dir Graph) !! f) ∨
          ∃ i, i < 5 ∧ i < 2 ∧ f = val_name i) ∧
    (true = true →
     ∀ i data, i < 5 → [triangle_data; triangle_data] !! i = Some data →
       is_Some (dir' !! val_name i) ∧
       ((∅ : Dir Graph) !! val_name i = None →
        is_Some (graph_of data) ∧ dir' !! val_name i = graph_of data)).
Proof.
  assert (∃ dir', vis_vals graph_of 5 [triangle_data; triangle_data] None = (dir', true))
    as [dir' Hvis] by (vm_compute; eexists; reflexivity).
  exists dir'. split; [exact Hvis|].
  apply (vis_files_write_missing_pictures graph_of (vis_vals graph_of) val_name 5
           [triangle_data; triangle_data] None dir' true).
  - left. split; reflexivity.
  - exact Hvis.
Defined.

(** X19: pictures are never refreshed.  After a call of [vis_vals] or
    [vis_views] that returned, a later call with the same [num] leaves the
    directory as it is, whatever samples the loader now holds, as long as
    the first call had at least [num] samples (then the later call returns
    before reading the loader) or the later loader is no longer than the
    first. *)
Theorem vis_files_never_refresh {Picture : Type}
    (render : TensorData → option Picture)
    (vis : nat → list TensorData → option (Dir Picture) → Dir Picture * bool)
    (num : nat) (loader loader' : list TensorData) (sub : option (Dir Picture))
    (dir' : Dir Picture) :
  vis = vis_vals render ∨ vis = vis_views render →
  vis num loader sub = (dir', true) →
  num ≤ length loader ∨ length loader' ≤ length loader →
  vis num loader' (Some dir') = (dir', true).
Proof.
  intros [-> | ->] Hvis Hlen.
  - by apply (vis_files_again render val_name num loader loader' sub).
  - by apply (vis_files_again render view_name num loader loader' sub).
Qed.

Lemma vis_files_never_refresh_witness :
  ∃ dir',
    vis_vals graph_of 2 [triangle_data; triangle_data] None = (dir', true) ∧
    vis_vals graph_of 2 [no_feature_data; no_feature_data; triangle_data] (Some dir')
    = (dir', true).
Proof.
  assert (∃ dir', vis_vals graph_of 2 [triangle_data; triangle_data] None = (dir', true))
    as [dir' Hvis] by (vm_compute; eexists; reflexivity).
  exists dir'. split; [exact Hvis|].
  apply (vis_files_never_refresh graph_of (vis_vals graph_of) 2
           [triangle_data; triangle_data]
           [no_feature_data; no_feature_data; triangle_data] None dir').
  - left. reflexivity.
  - exact Hvis.
  - left. cbn. lia.
Defined.

(** ** Listing the pictures in order *)

Section listing_facts.

Lemma mapM_Permutation {A B} (f : A → option B) (l1 l2 : list A) (r1 : list B) :
  l1 ≡ₚ l2 → mapM f l1 = Some r1 → ∃ r2, mapM f l2 = Some r2 ∧ r1 ≡ₚ r2.
Proof.
  intros Hperm. revert r1.
  induction Hperm as [|x l1 l2 _ IH|x y l|l1 l2 l3 _ IH1 _ IH2]; intros r1.
  - intros [= <-]. by exists [].
  - rewrite !mapM_Some. intros Hall.
    apply Forall2_cons_inv_l in Hall as (b & r & Hb & Hall & ->).
    apply mapM_Some in Hall. destruct (IH _ Hall) as (r2 & Hr2 & Hp).
    exists (b :: r2). split; [|by constructor].
    apply mapM_Some. constructor; [done|]. by apply mapM_Some.
  - rewrite !mapM_Some. intros Hall.
    apply Forall2_cons_inv_l in Hall as (b1 & r & Hb1 & Hall & ->).
    apply Forall2_cons_inv_l in Hall as (b2 & r' & Hb2 & Hall & ->).
    exists (b2 :: b1 :: r'). split; [|apply Permutation_swap].
    apply mapM_Some. by repeat constructor.
  - intros H1. destruct (IH1 _ H1) as (r2 & H2 & Hp12).
    destruct (IH2 _ H2) as (r3 & H3 & Hp23). exists r3. split; [done|by etrans].
Qed.

Lemma mapM_lookup_seq {A} (l : list A) : mapM (l !!.) (seq 0 (length l)) = Some l.
Proof.
  apply mapM_Some. apply Forall2_same_length_lookup. split; [by rewrite length_seq|].
  intros i j x Hj Hx. apply lookup_seq in Hj as [-> _]. done.
Qed.

(** Taking every position once gives the list, reordered. *)
Lemma mapM_lookup_Permutation {A} (l : list A) inds :
  inds ≡ₚ seq 0 (length l) → ∃ r, mapM (l !!.) inds = Some r ∧ r ≡ₚ l.
Proof.
  intros Hperm. symmetry in Hperm.
  destruct (mapM_Permutation (l !!.) _ _ l Hperm (mapM_lookup_seq l)) as (r & Hr & Hp).
  exists r. split; [done|by symmetry].
Qed.

Lemma mapM_lookup_fmap {A B} (f : A → B) (l : list A) (inds : list nat)
    (r : list A) :
  mapM (M:=option) (l !!.) inds = Some r →
  mapM (M:=option) ((f <$> l) !!.) inds = Some (f <$> r).
Proof.
  rewrite !mapM_Some. intros Hall. apply Forall2_fmap_r.
  eapply Forall2_impl; [exact Hall|]. cbn. intros i x Hi.
  by rewrite list_lookup_fmap, Hi.
Qed.

Lemma Sorted_seq a k : Sorted le (seq a k).
Proof.
  revert a. induction k as [|k IH]; intros a; cbn; [constructor|].
  constructor; [apply IH|]. destruct k; cbn; constructor. lia.
Qed.

Lemma Sorted_le_seq (l : list nat) k : Sorted le l → l ≡ₚ seq 0 k → l = seq 0 k.
Proof.
  intros Hs Hp. apply (Sorted_unique le); [done|apply Sorted_seq|done].
Qed.

Lemma paths_of_numbers (a : nat) (path : nat → string) (ps : list string)
    (fs : list nat) :
  (∀ i, file_number a (path i) = Some i) →
  (∀ p, p ∈ ps → ∃ i, p = path i) →
  mapM (file_number a) ps = Some fs → ps = path <$> fs.
Proof.
  intros Hnum Hall Hf. apply mapM_Some in Hf.
  induction Hf as [|p i ps fs Hpi _ IH]; [done|].
  destruct (Hall p) as [i' ->]; [by left|].
  rewrite Hnum in Hpi. injection Hpi as ->. rewrite fmap_cons. f_equal.
  apply IH. intros p Hp. apply Hall. by right.
Qed.
End listing_facts.

(** X20: when the picture directory holds [val-0.png] to [val-{k-1}.png]
    and nothing else, the paths [run] keeps are those of the first
    [min num k] indices in ascending order of the index (not of the
    name), in whatever order [glob] listed the directory and whichever
    ascending order [argsort] returns. *)
Theorem run_lists_pictures_by_index (root : string) (k num : nat)
    (img_paths : list string) :
  img_paths ≡ₚ (λ i, root +:+ "/" +:+ val_name i) <$> seq 0 k →
  ∃ filenames,
    mapM (file_number 4) img_paths = Some filenames ∧
    ∀ sort_inds, is_argsort filenames sort_inds →
      select_paths img_paths sort_inds num
      = Some ((λ i, root +:+ "/" +:+ val_name i) <$> seq 0 (num `min` k)).
Proof.
  intros Hperm. set (path := λ i, root +:+ "/" +:+ val_name i) in *.
  assert (mapM (file_number 4) (path <$> seq 0 k) = Some (seq 0 k)) as Hall.
  { apply mapM_fmap_Some. intros i. apply file_number_val. }
  symmetry in Hperm.
  destruct (mapM_Permutation _ _ _ _ Hperm Hall) as (filenames & Hf & Hpf).
  exists filenames. split; [done|].
  assert (img_paths = path <$> filenames) as Hpaths.
  { apply (paths_of_numbers 4); [intros i; apply file_number_val| |done].
    intros p Hp. rewrite <-Hperm in Hp.
    apply list_elem_of_fmap in Hp as (i & -> & _). by exists i. }
  intros sort_inds [Hinds (sorted & Hsel & Hsorted)].
  destruct (mapM_lookup_Permutation filenames sort_inds Hinds) as (r & Hr & Hpr).
  assert (r = sorted) as -> by congruence.
  assert (sorted = seq 0 k) as ->.
  { apply Sorted_le_seq; [done|]. etrans; [done|by symmetry]. }
  unfold select_paths. rewrite Hpaths.
  rewrite (mapM_lookup_fmap path _ _ _ Hsel). cbn.
  by rewrite <-fmap_take, take_seq.
Qed.

Lemma run_lists_pictures_by_index_witness :
  ∃ filenames,
    mapM (file_number 4) ["d/vals/val-2.png"; "d/vals/val-0.png"; "d/vals/val-1.png"]
    = Some filenames ∧
    ∀ sort_inds, is_argsort filenames sort_inds →
      select_paths ["d/vals/val-2.png"; "d/vals/val-0.png"; "d/vals/val-1.png"]
                   sort_inds 2
      = Some ((λ i, ("d/vals" : string) +:+ "/" +:+ val_name i) <$> seq 0 (2 `min` 3)).
Proof.
  apply (run_lists_pictures_by_index "d/vals" 3 2
           ["d/vals/val-2.png"; "d/vals/val-0.png"; "d/vals/val-1.png"]).
  vm_compute.
  etrans; [apply Permutation_swap|]. apply perm_skip, Permutation_swap.
Defined.

(** ** Views *)

Section view_facts.

Lemma mask_select_spec {A} (l : list A) (mask : list bool) :
  length mask = length l →
  ∃ r, mask_select l mask = Some r ∧ r `sublist_of` l ∧
       length r = length (filter (λ b, b = true) mask).
Proof.
  intros Hlen. unfold mask_select. rewrite decide_True by done.
  eexists. split; [done|]. revert mask Hlen.
  induction l as [|x l IH]; intros [|b mask] Hlen; cbn in Hlen; try done.
  destruct (IH mask) as [Hsub Hl]; [lia|].
  set (f := λ p : A * bool, if p.2 then [p.1] else []) in *.
  destruct b.
  - change (zip (x :: l) (true :: mask) ≫= f) with (x :: (zip l mask ≫= f)).
    rewrite filter_cons_True by done.
    split; [apply sublist_skip, Hsub|]. cbn [length]. by rewrite Hl.
  - change (zip (x :: l) (false :: mask) ≫= f) with (zip l mask ≫= f).
    rewrite filter_cons_False by done.
    split; [apply sublist_cons, Hsub|done].
Qed.

Lemma edge_values_sublist (es1 es2 : list (node * node)) n :
  es1 `sublist_of` es2 → n ∈ edge_values es1 → n ∈ edge_values es2.
Proof.
  intros Hsub. unfold edge_values. rewrite !list_elem_of_bind.
  intros (e & Hn & He). exists e. split; [done|].
  by eapply elem_of_sublist.
Qed.

Lemma slice_views_spec (kept : list bool) (off : nat) (datalist : list TensorData) :
  let total := sum_list ((length ∘ td_edge_index) <$> datalist) in
  off + total ≤ length kept →
  ∃ views,
    slice_views kept off datalist = Some views ∧
    Forall2 (λ d v, td_x v = td_x d ∧
                    td_edge_index v `sublist_of` td_edge_index d) datalist views ∧
    sum_list ((length ∘ td_edge_index) <$> views)
    = length (filter (λ b, b = true) (take total (drop off kept))).
Proof.
  revert off. induction datalist as [|d rest IH]; intros off; cbn zeta.
  - intros _. exists []. cbn. split_and!; [done|constructor|by rewrite take_0].
  - cbn [fmap list_fmap sum_list sum_list_with compose]. intros Hlen.
    set (n := length (td_edge_index d)) in *.
    set (total := sum_list ((length ∘ td_edge_index) <$> rest)) in *.
    cbn [slice_views]. fold n.
    destruct (mask_select_spec (td_edge_index d) (take n (drop off kept)))
      as (new_edges & -> & Hsub & Hcount).
    { rewrite length_take, length_drop. fold n. unfold id in Hlen. lia. }
    cbn [mbind option_bind].
    destruct (IH (off + n)) as (views & -> & Hall & Hsum);
      [fold total; unfold id in Hlen; lia|].
    cbn [mbind option_bind]. eexists. split; [done|]. split.
    + constructor; [|done]. done.
    + cbn [fmap list_fmap sum_list sum_list_with compose td_edge_index].
      fold total in Hsum. rewrite Hsum. unfold id. rewrite Hcount.
      rewrite <-length_app, <-filter_app. f_equal. f_equal.
      by rewrite <-take_take_drop, drop_drop.
Qed.
End view_facts.

(** X21: the views [vis_views] builds from a batch.  When the mask
    [kept] has one entry per edge of the batch, every sample gets its own
    slice: the view has the sample's feature matrix and a sub-list of its
    edges, the edges of all views together are as many as [kept] marks,
    and the graph drawn for a view has the nodes of the graph of its
    sample, also those that lost all their edges. *)
Theorem views_keep_every_node (kept : list bool) (datalist : list TensorData) :
  length kept = sum_list ((length ∘ td_edge_index) <$> datalist) →
  ∃ views,
    slice_views kept 0 datalist = Some views ∧
    length views = length datalist ∧
    sum_list ((length ∘ td_edge_index) <$> views)
    = length (filter (λ b, b = true) kept) ∧
    ∀ i d v, datalist !! i = Some d → views !! i = Some v →
      td_x v = td_x d ∧
      td_edge_index v `sublist_of` td_edge_index d ∧
      ∀ g labels,
        better_to_nx d = Some (g, labels) →
        (∀ n, n ∈ edge_values (td_edge_index d) → n < length (td_x d)) →
        ∃ g', better_to_nx v = Some (g', labels) ∧ g_nodes g' ≡ₚ g_nodes g.
Proof.
  intros Hlen.
  destruct (slice_views_spec kept 0 datalist) as (views & Hviews & Hall & Hsum);
    [cbn zeta; lia|].
  cbn zeta in Hsum. rewrite drop_0, <-Hlen, firstn_all in Hsum.
  exists views. split_and!; [done|symmetry; by eapply Forall2_length|done|].
  intros i d v Hd Hv.
  destruct (Forall2_lookup_lr _ _ _ _ _ _ Hall Hd Hv) as [Hx Hsub].
  split_and!; [done|done|].
  intros g labels Hg Hsmall.
  destruct (better_to_nx_spec d g labels Hg) as (_ & _ & _ & _ & Hnodes).
  specialize (Hnodes Hsmall).
  destruct (better_to_nx v) as [[g' labels']|] eqn:Hg'.
  - destruct (better_to_nx_spec v g' labels' Hg') as (_ & _ & _ & _ & Hnodes').
    rewrite Hx in Hnodes'.
    assert (labels' = labels) as ->.
    { unfold better_to_nx in Hg, Hg'. rewrite Hx in Hg'.
      destruct (first_column (td_x d)); [|done]. cbn in Hg, Hg'. congruence. }
    exists g'. split; [done|]. rewrite Hnodes, Hnodes'; [done|].
    intros n Hn. apply Hsmall. by eapply edge_values_sublist.
  - exfalso. unfold better_to_nx in Hg, Hg'. rewrite Hx in Hg'.
    by destruct (first_column (td_x d)).
Qed.

Lemma views_keep_every_node_witness :
  ∃ views,
    slice_views [true; false; false; false; false; true; true; true]
                0 [triangle_data; no_feature_data] = Some views ∧
    length views = 2 ∧
    sum_list ((length ∘ td_edge_index) <$> views) = 4 ∧
    ∀ i d v, [triangle_data; no_feature_data] !! i = Some d → views !! i = Some v →
      td_x v = td_x d ∧
      td_edge_index v `sublist_of` td_edge_index d ∧
      ∀ g labels,
        better_to_nx d = Some (g, labels) →
        (∀ n, n ∈ edge_values (td_edge_index d) → n < length (td_x d)) →
        ∃ g', better_to_nx v = Some (g', labels) ∧ g_nodes g' ≡ₚ g_nodes g.
Proof.
  apply (views_keep_every_node
           [true; false; false; false; false; true; true; true]
           [triangle_data; no_feature_data]).
  reflexivity.
Defined.

(** ** Fetching the raw file *)

Module FetchFacts.

Lemma app_singleton_ne (p : Fetch.Path) (a b : string) : a ≠ b → p ++ [a] ≠ p ++ [b].
Proof. intros Hne Heq. apply app_inv_head in Heq. congruence. Qed.

Lemma path_grow_ne (p : Fetch.Path) (a b c : string) : p ++ [a] ≠ p ++ [b] ++ [c].
Proof.
  intros Heq. apply app_inv_head in Heq. done.
Qed.

(** With a directory [cora] that holds the file, the call reads it and
    changes nothing. *)
Lemma download_cora_cached net os raw y graph :
  let data_dir := Fetch.cwd os ++ ["original_datasets"] in
  Fetch.cwd os ∈ Fetch.dirs os → data_dir ∈ Fetch.dirs os → data_dir ++ ["cora"] ∈ Fetch.dirs os →
  Fetch.files os !! ((data_dir ++ ["cora"]) ++ ["cora_ml.npz"]) = Some (raw, y) →
  download_cora raw y = Some graph →
  Fetch.download_cora net os = (os, Some graph).
Proof.
  cbn zeta. intros Hcwd Hdata Hcora Hfile Hgraph.
  unfold Fetch.download_cora, Fetch.chdir, Fetch.chdir_abs. cbn.
  rewrite (decide_True (P := Fetch.cwd os ++ ["original_datasets"] ∈ Fetch.dirs os)) by done.
  rewrite decide_False; last first.
  { intros Hnot. apply Hnot. left. done. }
  cbn. rewrite decide_True by done. cbn.
  unfold Fetch.read_npz. cbn. rewrite Hfile, Hgraph.
  rewrite decide_True by done. by destruct os.
Qed.

(** With a directory [cora] that does not hold the file, the call raises
    whatever the network would send. *)
Lemma download_cora_empty_dir net os :
  let data_dir := Fetch.cwd os ++ ["original_datasets"] in
  data_dir ∈ Fetch.dirs os → data_dir ++ ["cora"] ∈ Fetch.dirs os →
  Fetch.files os !! ((data_dir ++ ["cora"]) ++ ["cora_ml.npz"]) = None →
  Fetch.download_cora net os
  = (Fetch.mkOS (data_dir ++ ["cora"]) (Fetch.dirs os) (Fetch.files os), None).
Proof.
  cbn zeta. intros Hdata Hcora Hfile.
  unfold Fetch.download_cora, Fetch.chdir, Fetch.chdir_abs. cbn.
  rewrite (decide_True (P := Fetch.cwd os ++ ["original_datasets"] ∈ Fetch.dirs os)) by done.
  rewrite decide_False; last first.
  { intros Hnot. apply Hnot. left. done. }
  cbn. rewrite decide_True by done. cbn.
  unfold Fetch.read_npz. cbn. by rewrite Hfile.
Qed.

Lemma download_cora_Some_inv net os os' graph :
  let data_dir := Fetch.cwd os ++ ["original_datasets"] in
  Fetch.download_cora net os = (os', Some graph) →
  ∃ raw y,
    Fetch.cwd os' = Fetch.cwd os ∧ Fetch.cwd os ∈ Fetch.dirs os' ∧
    data_dir ∈ Fetch.dirs os' ∧ data_dir ++ ["cora"] ∈ Fetch.dirs os' ∧
    Fetch.files os' !! ((data_dir ++ ["cora"]) ++ ["cora_ml.npz"]) = Some (raw, y) ∧
    download_cora raw y = Some graph.
Proof.
  cbn zeta. unfold Fetch.download_cora, Fetch.chdir, Fetch.chdir_abs, Fetch.mkdir, Fetch.wget_download, Fetch.read_npz.
  cbn.
  destruct (decide (Fetch.cwd os ++ ["original_datasets"] ∈ Fetch.dirs os)) as [Hdata|]; [|done].
  cbn. case_decide as Hlisted.
  - rewrite decide_False by done. cbn.
    rewrite decide_True by (apply elem_of_union; left; by apply elem_of_singleton).
    cbn. destruct net as [[raw y]|]; cbn; [|done].
    rewrite lookup_insert_eq.
    destruct (download_cora raw y) as [g|] eqn:Hg; [|done].
    case_decide as Hstart; [|done]. intros [= <- <-]. cbn.
    exists raw, y. split_and!; [done|done| | |by rewrite lookup_insert_eq|done].
    + apply elem_of_union. by right.
    + apply elem_of_union. left. by apply elem_of_singleton.
  - destruct (decide ((Fetch.cwd os ++ ["original_datasets"]) ++ ["cora"] ∈ Fetch.dirs os))
      as [Hcora|]; [|done].
    cbn.
    destruct (Fetch.files os !! (((Fetch.cwd os ++ ["original_datasets"]) ++ ["cora"])
                           ++ ["cora_ml.npz"])) as [[raw y]|] eqn:Hfile; [|done].
    destruct (download_cora raw y) as [g|] eqn:Hg; [|done].
    case_decide as Hstart; [|done]. intros [= <- <-]. cbn.
    by exists raw, y.
Qed.
End FetchFacts.

(** X22: when [download_cora] returns a graph, the working directory is
    the one the call started in, and the file is in place: any later call
    from there returns the same graph without using the network and
    leaves everything as it is. *)
Theorem download_cora_fetches_once (net net' : option Fetch.Npz)
    (os os' : Fetch.OS) (graph : Graph) :
  Fetch.download_cora net os = (os', Some graph) →
  Fetch.cwd os' = Fetch.cwd os ∧
  Fetch.download_cora net' os' = (os', Some graph).
Proof.
  intros Hcall.
  destruct (FetchFacts.download_cora_Some_inv net os os' graph Hcall)
    as (raw & y & Hcwd & Hstart & Hdata & Hcora & Hfile & Hgraph).
  split; [done|].
  apply (FetchFacts.download_cora_cached net' os' raw y graph);
    cbn zeta; by rewrite ?Hcwd.
Qed.

Lemma download_cora_fetches_once_witness :
  ∃ os' graph,
    Fetch.download_cora (Some (Demo.raw0, Demo.y0)) os_fresh = (os', Some graph) ∧
    Fetch.cwd os' = Fetch.cwd os_fresh ∧
    Fetch.download_cora None os' = (os', Some graph).
Proof.
  assert (∃ os' graph, Fetch.download_cora (Some (Demo.raw0, Demo.y0)) os_fresh
                       = (os', Some graph)) as (os' & graph & Hcall)
    by (vm_compute; eexists _, _; reflexivity).
  exists os', graph. split; [exact Hcall|].
  apply (download_cora_fetches_once (Some (Demo.raw0, Demo.y0)) None
           os_fresh os' graph Hcall).
Defined.

(** X23: a download that fails is not tried again.  Called where
    [original_datasets] has no entry [cora], with the request failing,
    [download_cora] raises with the new, empty directory [cora] as the
    working directory; and once the caller is back in the directory it
    started from, every later call raises too, whatever the network would
    send, and no file is ever written. *)
Theorem failed_download_is_not_retried (net' : option Fetch.Npz) (os : Fetch.OS) :
  let data_dir := Fetch.cwd os ++ ["original_datasets"] in
  data_dir ∈ Fetch.dirs os →
  data_dir ++ ["cora"] ∉ Fetch.dirs os →
  Fetch.files os !! (data_dir ++ ["cora"]) = None →
  Fetch.files os !! ((data_dir ++ ["cora"]) ++ ["cora_ml.npz"]) = None →
  ∃ os1 os2,
    Fetch.download_cora None os = (os1, None) ∧
    Fetch.cwd os1 = data_dir ++ ["cora"] ∧
    Fetch.download_cora net' (Fetch.back_to (Fetch.cwd os) os1) = (os2, None) ∧
    Fetch.files os2 = Fetch.files os.
Proof.
  cbn zeta. intros Hdata Hdir Hentry Hfile.
  assert (Fetch.download_cora None os
          = (Fetch.mkOS ((Fetch.cwd os ++ ["original_datasets"]) ++ ["cora"])
               ({[(Fetch.cwd os ++ ["original_datasets"]) ++ ["cora"]]} ∪ Fetch.dirs os)
               (Fetch.files os), None)) as Hfirst.
  { unfold Fetch.download_cora, Fetch.chdir, Fetch.chdir_abs, Fetch.mkdir,
      Fetch.wget_download. cbn.
    rewrite (decide_True (P := Fetch.cwd os ++ ["original_datasets"] ∈ Fetch.dirs os))
      by done.
    cbn.
    assert (¬ Fetch.listed "cora"
              (Fetch.mkOS (Fetch.cwd os ++ ["original_datasets"]) (Fetch.dirs os)
                          (Fetch.files os))) as Hnl.
    { intros [?|Hs]; [done|]. cbn in Hs. rewrite Hentry in Hs. by destruct Hs. }
    rewrite (decide_True (P := ¬ Fetch.listed "cora" _)) by done.
    rewrite (decide_False (P := Fetch.listed "cora" _)) by done. cbn.
    rewrite decide_True by (apply elem_of_union; left; by apply elem_of_singleton).
    done. }
  set (cora_dir := (Fetch.cwd os ++ ["original_datasets"]) ++ ["cora"]) in *.
  exists (Fetch.mkOS cora_dir ({[cora_dir]} ∪ Fetch.dirs os) (Fetch.files os)),
         (Fetch.mkOS cora_dir ({[cora_dir]} ∪ Fetch.dirs os) (Fetch.files os)).
  split; [exact Hfirst|]. split; [done|]. split; [|done].
  unfold Fetch.back_to. cbn.
  apply (FetchFacts.download_cora_empty_dir net'
           (Fetch.mkOS (Fetch.cwd os) _ (Fetch.files os))); cbn.
  - apply elem_of_union. by right.
  - apply elem_of_union. left. by apply elem_of_singleton.
  - done.
Qed.

Lemma failed_download_is_not_retried_witness :
  ∃ os1 os2,
    Fetch.download_cora None os_fresh = (os1, None) ∧
    Fetch.cwd os1 = (Fetch.cwd os_fresh ++ ["original_datasets"]) ++ ["cora"] ∧
    Fetch.download_cora (Some (Demo.raw0, Demo.y0))
      (Fetch.back_to (Fetch.cwd os_fresh) os1) = (os2, None) ∧
    Fetch.files os2 = Fetch.files os_fresh.
Proof.
  apply (failed_download_is_not_retried (Some (Demo.raw0, Demo.y0)) os_fresh).
  - vm_compute. reflexivity.
  - apply (bool_decide_unpack _). vm_compute. exact I.
  - reflexivity.
  - reflexivity.
Defined.

(** ** Merged handles as lists *)

Module SamplesFacts.
Import Combiner CombinerFacts.

Lemma Handle_nested_ind (P : Handle → Prop) :
  (∀ s, P (Stored s)) →
  (∀ datasets, Forall P datasets → P (ConcatDataset datasets)) →
  ∀ h, P h.
Proof.
  intros Hs Hc. fix IH 1. intros [s|datasets]; [apply Hs|].
  apply Hc. induction datasets as [|d datasets IHd]; constructor; [apply IH|exact IHd].
Qed.

Lemma length_bind_samples (datasets : list Handle) :
  Forall (λ d, len d = length (samples d)) datasets →
  sum_list (len <$> datasets) = length (datasets ≫= samples).
Proof.
  induction 1 as [|d datasets Hd _ IH]; [done|].
  cbn. rewrite length_app. cbn in IH. lia.
Qed.

Lemma len_samples h : len h = length (samples h).
Proof.
  induction h as [s|datasets IH] using Handle_nested_ind; [done|].
  rewrite len_concat. by apply length_bind_samples.
Qed.

Lemma bind_samples_lookup (datasets : list Handle) k d j :
  datasets !! k = Some d → j < len d →
  (datasets ≫= samples) !! (sum_list (len <$> take k datasets) + j)
  = samples d !! j.
Proof.
  revert k. induction datasets as [|d' datasets IH]; intros [|k] Hk Hj; cbn in *;
    try done.
  - injection Hk as ->. rewrite len_samples in Hj. by rewrite lookup_app_l.
  - rewrite lookup_app_r by (rewrite <-len_samples; lia).
    rewrite <-len_samples.
    replace (len d' + sum_list (len <$> take k datasets) + j - len d')
      with (sum_list (len <$> take k datasets) + j) by lia.
    by apply IH.
Qed.

(** Past the last sample the search finds no part. *)
Lemma bisect_right_cumsum_ge lens x :
  sum_list lens ≤ x → bisect_right (cumsum lens) x = length lens.
Proof.
  intros Hx. unfold bisect_right.
  destruct (bisect_loop_spec (cumsum lens) x (S (length (cumsum lens))) 0
              (length (cumsum lens))) as (Hr & Hl & Hh).
  - apply cumsum_sorted.
  - lia.
  - lia.
  - lia.
  - intros j v Hj. lia.
  - intros j v Hj Hv. apply lookup_lt_Some in Hv. lia.
  - cbn zeta in *. set (r := bisect_loop _ _ _ _ _) in *.
    unfold cumsum in *. rewrite cumsum_from_length in *.
    destruct (decide (r = length lens)) as [|Hne]; [done|exfalso].
    assert (r < length lens) as Hrlt by lia.
    specialize (Hh r _ ltac:(lia) (cumsum_from_lookup 0 lens r Hrlt)).
    pose proof (sum_list_take_le lens (S r) (length lens) ltac:(lia)) as Hle.
    rewrite firstn_all in Hle. lia.
Qed.

Lemma getitem_concat_ge (datasets : list Handle) (i : nat) :
  len (ConcatDataset datasets) ≤ i →
  getitem (ConcatDataset datasets) (Z.of_nat i) = None.
Proof.
  rewrite len_concat. intros Hi. rewrite getitem_concat_unfold. cbn zeta.
  rewrite bisect_right_cumsum_ge by done. rewrite length_fmap.
  destruct (if decide (length datasets = 0) then Some i else _) as [si|]; [|done].
  cbn. by rewrite (lookup_ge_None_2 datasets (length datasets)).
Qed.

Lemma getitem_nat h (i : nat) : getitem h (Z.of_nat i) = samples h !! i.
Proof.
  revert i. induction h as [s|datasets IH] using Handle_nested_ind; intros i.
  - cbn. unfold py_index. rewrite decide_True by lia. by rewrite Nat2Z.id.
  - destruct (decide (i < len (ConcatDataset datasets))) as [Hi|Hi].
    + destruct (getitem_concat datasets i Hi) as (k & d & Hk & Hrange & ->).
      rewrite Forall_forall in IH.
      rewrite (IH d) by (by eapply list_elem_of_lookup_2).
      cbn [samples].
      rewrite <-(bind_samples_lookup datasets k d) by (done || lia).
      f_equal. lia.
    + rewrite getitem_concat_ge by lia. symmetry. apply lookup_ge_None.
      rewrite <-len_samples. lia.
Qed.

Lemma getitem_py_index h (idx : Z) : getitem h idx = py_index (samples h) idx.
Proof.
  destruct h as [s|datasets]; [done|].
  pose proof (len_samples (ConcatDataset datasets)) as Hlen.
  unfold py_index. destruct (decide (0 ≤ idx)%Z) as [Hpos|Hneg].
  - rewrite <-(Z2Nat.id idx) at 1 by done. apply getitem_nat.
  - rewrite <-Hlen. destruct (decide (- idx ≤ Z.of_nat (len (ConcatDataset datasets)))%Z)
      as [Hin|Hout].
    + rewrite <-getitem_nat. cbn [getitem]. cbn [len] in Hin.
      rewrite (decide_True (P := (idx < 0)%Z)) by lia.
      rewrite (decide_False (P := (_ < - idx)%Z)) by lia.
      cbn [mbind option_bind]. cbn [len].
      rewrite (decide_False (P := (Z.of_nat _ < 0)%Z)) by lia.
      cbn [mbind option_bind]. by rewrite Nat2Z.id.
    + cbn [getitem]. cbn [len] in Hout.
      rewrite (decide_True (P := (idx < 0)%Z)) by lia.
      by rewrite (decide_True (P := (_ < - idx)%Z)) by lia.
Qed.

Lemma samples_merge combined datasets :
  samples (merge combined datasets) = samples combined ++ (datasets ≫= samples).
Proof.
  unfold merge. revert combined.
  induction datasets as [|d datasets IH]; intros combined; cbn [foldl].
  - cbn. by rewrite app_nil_r.
  - rewrite IH. cbn. by rewrite app_nil_r, <-app_assoc.
Qed.
End SamplesFacts.

(** X24: a handle built by any number of merges, nested in any way,
    answers like the Python list of its samples in order: [len] is the
    length of that list, and [handle[idx]] is the list's entry at [idx],
    for positions from the front, for negative positions from the end, and
    raising for anything out of range; merging appends the samples of the
    merged handles in the order of the loop. *)
Theorem merged_handle_indexes_like_a_list
    (h combined : Combiner.Handle) (datasets : list Combiner.Handle) (idx : Z) :
  Combiner.len h = length (samples h) ∧
  Combiner.getitem h idx = Combiner.py_index (samples h) idx ∧
  samples (Combiner.merge combined datasets)
  = samples combined ++ (datasets ≫= samples).
Proof.
  split_and!.
  - apply SamplesFacts.len_samples.
  - apply SamplesFacts.getitem_py_index.
  - apply SamplesFacts.samples_merge.
Qed.

(** ** Choosing the latest checkpoint *)

Lemma epoch_key_of_match (stem : string) :
  head (split_on "-" (Latest.checkpoint_root +:+ "/Checkpoint-" +:+ stem +:+ ".pt"))
  = Some ("wandb/latest" : string).
Proof.
  change (Latest.checkpoint_root +:+ "/Checkpoint-" +:+ stem +:+ ".pt")
    with ("wandb/latest" +:+ String "-" ("run/files/Checkpoint-" +:+ stem +:+ ".pt")).
  by rewrite split_on_app.
Qed.

(** X25: with [checkpoint == "latest"], the keys the checkpoints are
    sorted by are all the same string, the part of the path before its
    first hyphen, so the epoch in the file name plays no part in the
    choice; and the path built from the chosen match names the directory
    twice. *)
Theorem latest_checkpoint_ignores_epochs (stems : list string) (ind : nat)
    (path : string) :
  Latest.checkpoint_path (Latest.glob stems) ind = Some path →
  Latest.epochs (Latest.glob stems) = replicate (length stems) "wandb/latest" ∧
  ∃ stem, stems !! ind = Some stem ∧
          path = "wandb/latest-run/files/wandb/latest-run/files/Checkpoint-"
                 +:+ stem +:+ ".pt".
Proof.
  intros Hpath. split.
  - clear Hpath. unfold Latest.epochs, Latest.glob. rewrite <-list_fmap_compose.
    induction stems as [|stem stems IH]; [done|].
    cbn [fmap list_fmap length replicate compose].
    rewrite epoch_key_of_match. cbn [default]. f_equal. exact IH.
  - unfold Latest.checkpoint_path, Latest.glob in Hpath.
    rewrite list_lookup_fmap in Hpath.
    destruct (stems !! ind) as [stem|]; [|done].
    cbn in Hpath. injection Hpath as <-. by exists stem.
Qed.

Lemma latest_checkpoint_ignores_epochs_witness :
  Latest.epochs (Latest.glob ["10"; "200"]) = replicate 2 "wandb/latest" ∧
  ∃ stem, ["10"; "200"] !! 0 = Some stem ∧
          ("wandb/latest-run/files/wandb/latest-run/files/Checkpoint-10.pt" : string)
          = "wandb/latest-run/files/wandb/latest-run/files/Checkpoint-"
            +:+ stem +:+ ".pt".
Proof.
  apply (latest_checkpoint_ignores_epochs ["10"; "200"] 0
           "wandb/latest-run/files/wandb/latest-run/files/Checkpoint-10.pt").
  reflexivity.
Defined.
